(** * Frame interpolation and camera paths of the forest-fire video pipeline

    A shallow embedding of
    - [visualization/video/scripts/data_exporter.py]  ([SimulationDataExporter]),
    - [visualization/video/scripts/interpolator.py]   ([FrameInterpolator]),
    - [visualization/video/scripts/camera_paths.py]   ([CameraPathController]),
    and the properties of the resampler, the field interpolator and the
    camera path synthesizer.

    Numbers.  Python [float]s are modelled by exact rationals [Q]: the
    comparisons of the code ([<=], [<], [!=], [>]) agree with the IEEE
    comparisons on finite values, and arithmetic is taken without rounding.
    Equality of numbers is therefore [Qeq] ([==]).  A [NaN] cell of a pandas
    column is [None] in [float].

    Exceptions.  A Python function that may raise returns [py A]; the
    exception classes the modelled code can raise are the constructors of
    [exn].

    Randomness.  The uniform and normal draws of [np.random] are inputs
    (the record [draws]); every theorem holds for all draws.

    Libraries.  [scipy.ndimage.gaussian_filter], the spline kinds of
    [scipy.interpolate.interp1d] and the row order of a pandas outer join
    are parameters of the development.  The numpy and pandas operations
    the code applies to arrays and Series are modelled in [Np] and
    [Pandas], with the exceptions they raise.

    Scope.  Of [FrameInterpolator] the embedding covers
    [_interpolate_fire_states] and the functions it calls; the frame loop
    of [interpolate_frames], which calls it once per frame with the grid
    dimensions of the first snapshot, is not embedded.  Of
    [export_for_video] it covers the validation and the frame loop, not
    the files written; [prepare_scenario_comparison] is the two exports
    and the split frame.  Of [CameraPathController] it covers
    [generate_camera_path], the six presets, [get_cinematic_paths],
    [combine_paths] and [smooth_transition]. *)

From Stdlib Require Import String ZArith QArith Qround List Bool Lia Lqa Sorting.Sorted.
Import ListNotations.

Set Implicit Arguments.

(** ** Python values and exceptions *)

Module Py.

Inductive exn : Type :=
| IndexError
| ValueError
| KeyError
| ZeroDivisionError
| IndexingError.

Definition py (A : Type) : Type := (exn + A)%type.

Definition ret {A : Type} (a : A) : py A := inr a.
Definition raise {A : Type} (e : exn) : py A := inl e.

Definition bind {A B : Type} (c : py A) (k : A -> py B) : py B :=
  match c with
  | inl e => inl e
  | inr a => k a
  end.

(** [len(l)] *)
Definition len {A : Type} (l : list A) : Z := Z.of_nat (length l).

(** [l[i]]: a negative index counts from the end, anything outside
    [-len(l) <= i < len(l)] raises [IndexError]. *)
Definition getitem {A : Type} (l : list A) (i : Z) : py A :=
  let j := if (i <? 0)%Z then (i + len l)%Z else i in
  if (j <? 0)%Z then raise IndexError
  else match nth_error l (Z.to_nat j) with
       | Some a => ret a
       | None => raise IndexError
       end.

(** [range(n)] *)
Definition range (n : Z) : list Z := map Z.of_nat (seq 0 (Z.to_nat n)).

(** [int(x)] on a float: truncation towards zero. *)
Definition int (x : Q) : Z := Z.quot (Qnum x) (Zpos (Qden x)).

(** Python's [a / b] on floats raises on a zero divisor. *)
Definition truediv (a b : Q) : py Q :=
  if Qeq_bool b 0 then raise ZeroDivisionError else ret (a / b).

(** [a < b] on floats. *)
Definition Qlt_bool (a b : Q) : bool := negb (Qle_bool b a).

(** [for x in l: ...] threading an accumulator through a body that may raise. *)
Fixpoint for_each {A S : Type} (l : list A) (body : S -> A -> py S) (s : S) : py S :=
  match l with
  | [] => ret s
  | a :: l' => bind (body s a) (for_each l' body)
  end.

(** [[f(x) for x in l]] with a body that may raise. *)
Fixpoint comprehension {A B : Type} (f : A -> py B) (l : list A) : py (list B) :=
  match l with
  | [] => ret []
  | a :: l' => bind (f a) (fun b => bind (comprehension f l') (fun bs => ret (b :: bs)))
  end.

End Py.
Import Py.

Declare Scope py_scope.
Delimit Scope py_scope with py.
Notation "x <- c ;; k" := (bind c (fun x => k))
  (at level 61, c at next level, right associativity) : py_scope.
Notation "' pat <- c ;; k" := (bind c (fun x => match x with pat => k end))
  (at level 61, pat pattern, c at next level, right associativity) : py_scope.
Local Open Scope py_scope.

(** ** numpy arrays and pandas Series, as far as the modelled code uses them *)

Module Np.

(** [a > b] on two 1-d arrays, with numpy broadcasting: equal lengths
    compare position by position, a length-1 operand is repeated, any
    other pair of shapes raises [ValueError]. *)
Definition broadcast2 {A B C : Type} (f : A -> B -> C) (a : list A) (b : list B)
  : py (list C) :=
  if Nat.eqb (length a) (length b) then ret (map (fun p => f (fst p) (snd p)) (combine a b))
  else match a, b with
       | [x], _ => ret (map (f x) b)
       | _, [y] => ret (map (fun x => f x y) a)
       | _, _ => raise ValueError
       end.

(** [np.zeros((height, width), dtype=int)] *)
Definition zeros (height width : Z) : py (list (list Z)) :=
  if (height <? 0)%Z || (width <? 0)%Z then raise ValueError
  else ret (repeat (repeat 0%Z (Z.to_nat width)) (Z.to_nat height)).

(** A numpy index [i] into an axis of size [n]: negative indices wrap
    once, anything else out of bounds raises [IndexError]. *)
Definition axis_index (n : nat) (i : Z) : py nat :=
  let j := if (i <? 0)%Z then (i + Z.of_nat n)%Z else i in
  if (j <? 0)%Z || (Z.of_nat n <=? j)%Z then raise IndexError else ret (Z.to_nat j).

(** The list [l] with [f] applied at position [n] (unchanged when [n] is past the end). *)
Fixpoint update {A : Type} (l : list A) (n : nat) (f : A -> A) : list A :=
  match l, n with
  | [], _ => []
  | a :: l', O => f a :: l'
  | a :: l', S n' => a :: update l' n' f
  end.

(** [grid[y, x] = v] *)
Definition setitem2 {A : Type} (grid : list (list A)) (y x : Z) (v : A)
  : py (list (list A)) :=
  r <- axis_index (length grid) y ;;
  c <- axis_index (length (nth r grid [])) x ;;
  ret (update grid r (fun row => update row c (fun _ => v))).

(** [np.clip(x, lo, hi)] on one entry *)
Definition clip (x lo hi : Q) : Q :=
  if Qlt_bool x lo then lo else if Qlt_bool hi x then hi else x.

(** [a.flatten()] of a 2-d array (row-major) *)
Definition flatten {A : Type} (a : list (list A)) : list A := concat a.

End Np.

Module Pandas.

(** An index label: a tuple [(x, y)] of a two-level MultiIndex, or a plain
    integer of a sequential index. *)
Inductive label : Type :=
| Tuple (x y : Z)
| Int (i : Z).

Definition label_eqb (a b : label) : bool :=
  match a, b with
  | Tuple x y, Tuple x' y' => (x =? x')%Z && (y =? y')%Z
  | Int i, Int i' => (i =? i')%Z
  | _, _ => false
  end.

Fixpoint index_equals (a b : list label) : bool :=
  match a, b with
  | [], [] => true
  | x :: a', y :: b' => label_eqb x y && index_equals a' b'
  | _, _ => false
  end.

(** A Series: its labels and values, in row order. *)
Definition Series (A : Type) : Type := list (label * A).

Definition labels {A : Type} (s : Series A) : list label := map fst s.
Definition values {A : Type} (s : Series A) : list A := map snd s.

(** [s.loc[l]] on unique labels: the value of the first row labelled [l]. *)
Fixpoint loc {A : Type} (s : Series A) (l : label) : option A :=
  match s with
  | [] => None
  | (l', a) :: s' => if label_eqb l' l then Some a else loc s' l
  end.

Definition indexed_same {A B : Type} (a : Series A) (b : Series B) : bool :=
  index_equals (labels a) (labels b).

(** [s == 'Tree'] *)
Definition eq_scalar (s : Series string) (v : string) : Series bool :=
  map (fun r => (fst r, String.eqb (snd r) v)) s.

(** [a != b] on two Series: pandas compares identically-labelled Series
    only and raises [ValueError] otherwise. *)
Definition ne (a b : Series string) : py (Series bool) :=
  if indexed_same a b
  then ret (map (fun p => (fst (fst p), negb (String.eqb (snd (fst p)) (snd (snd p)))))
                (combine a b))
  else raise ValueError.

(** [mask & flag] with a Python [bool] *)
Definition and_scalar (mask : Series bool) (flag : bool) : Series bool :=
  map (fun r => (fst r, snd r && flag)) mask.

(** [a & b] on two boolean Series.  Identically-labelled operands are
    combined row by row.  Otherwise pandas aligns them on the outer join
    of the two indexes (row order given by [outer_join]) and a label
    missing on one side counts as [False]. *)
Definition and_series (outer_join : list label -> list label -> list label)
           (a b : Series bool) : Series bool :=
  if indexed_same a b
  then map (fun p => (fst (fst p), snd (fst p) && snd (snd p))) (combine a b)
  else map (fun l => (l, match loc a l, loc b l with
                         | Some x, Some y => x && y
                         | _, _ => false
                         end))
           (outer_join (labels a) (labels b)).

(** [mask & arr] with a numpy array: positional, numpy broadcasting; the
    result keeps the labels of [mask], so its length must be kept too. *)
Definition and_array (mask : Series bool) (arr : list bool) : py (Series bool) :=
  vs <- Np.broadcast2 andb (values mask) arr ;;
  if Nat.eqb (length vs) (length mask) then ret (combine (labels mask) vs)
  else raise ValueError.

(** A boolean Series used as an indexer of [target]: used as it is when
    identically labelled, else re-indexed by the labels of [target];
    a label it does not have raises [IndexingError]. *)
Definition check_bool_indexer {A : Type} (target : Series A) (key : Series bool)
  : py (list bool) :=
  if indexed_same target key then ret (values key)
  else comprehension (fun l => match loc key l with
                               | Some b => ret b
                               | None => raise IndexingError
                               end) (labels target).

(** [s[mask]] *)
Definition getitem_mask {A : Type} (s : Series A) (mask : Series bool) : py (Series A) :=
  key <- check_bool_indexer s mask ;;
  ret (map fst (filter (fun p : (label * A) * bool => snd p) (combine s key))).

(** [s[mask] = v] with a scalar [v] *)
Definition setitem_mask {A : Type} (s : Series A) (mask : Series bool) (v : A)
  : py (Series A) :=
  key <- check_bool_indexer s mask ;;
  ret (map (fun p : (label * A) * bool =>
              (fst (fst p), if snd p then v else snd (fst p))) (combine s key)).

(** [s[mask] = other] with a Series [other]: the value of a selected row
    is the value [other] has at that row's label. *)
Definition setitem_mask_series {A : Type} (s : Series A) (mask : Series bool)
           (other : Series A) : py (Series A) :=
  key <- check_bool_indexer s mask ;;
  ret (map (fun p : (label * A) * bool =>
                     (fst (fst p),
                      if snd p then match loc other (fst (fst p)) with
                                    | Some v => v
                                    | None => snd (fst p)
                                    end
                      else snd (fst p)))
           (combine s key)).

(** A float cell; [None] is [NaN]. *)
Definition float : Type := option Q.

Definition fblend (alpha : Q) (a b : float) : float :=
  match a, b with
  | Some x, Some y => Some ((1 - alpha) * x + alpha * y)
  | _, _ => None
  end.

(** A DataFrame of grid cells: the discrete [state] column and the
    continuous columns by name.  Each column is kept with its labels; in
    a frame they all carry the frame's index. *)
Record DataFrame : Type := mkDataFrame {
  state : option (Series string);
  columns : list (string * Series float)
}.

Fixpoint column (cols : list (string * Series float)) (name : string)
  : option (Series float) :=
  match cols with
  | [] => None
  | (n, c) :: cols' => if String.eqb n name then Some c else column cols' name
  end.

(** [df[name] = s], replacing the column if present, appending it otherwise *)
Fixpoint set_column (cols : list (string * Series float)) (name : string)
         (s : Series float) : list (string * Series float) :=
  match cols with
  | [] => [(name, s)]
  | (n, c) :: cols' =>
      if String.eqb n name then (n, s) :: cols' else (n, c) :: set_column cols' name s
  end.

(** [df['state']] *)
Definition getitem_state (df : DataFrame) : py (Series string) :=
  match state df with
  | Some s => ret s
  | None => raise KeyError
  end.

End Pandas.
Import Pandas.

(** ** The snapshot resampler and the exporter's interpolation
       ([data_exporter.py]) *)

Module DataExporter.

(** The loop of [_find_snapshot_indices] (and of the bracket search of
    [FrameInterpolator._interpolate_fire_states]):
    [for i in range(len(ts) - 1): if ts[i] <= q <= ts[i+1]: ...]
    started at index [i]; the first hit wins. *)
Fixpoint first_bracket (q : Q) (ts : list Q) (i : Z) : option (Z * Z) :=
  match ts with
  | a :: ((b :: _) as tl) =>
      if Qle_bool a q && Qle_bool q b then Some (i, (i + 1)%Z)
      else first_bracket q tl (i + 1)%Z
  | _ => None
  end.

Definition _find_snapshot_indices (sim_time : Q) (sorted_times : list Q) : py (Z * Z) :=
  match first_bracket sim_time sorted_times 0 with
  | Some p => ret p
  | None =>
      (* If beyond range, use nearest *)
      t0 <- getitem sorted_times 0 ;;
      if Qlt_bool sim_time t0 then ret (0%Z, 0%Z)
      else ret ((len sorted_times - 1)%Z, (len sorted_times - 1)%Z)
  end.

(** [alpha = (sim_time - t1) / (t2 - t1) if t2 != t1 else 0], the
    expression both interpolators use. *)
Definition interpolation_factor (sim_time t1 t2 : Q) : Q :=
  if negb (Qeq_bool t2 t1) then (sim_time - t1) / (t2 - t1) else 0.

(** [_interpolate_states]: a changed cell switches to its state in
    [states2] once [alpha] exceeds the threshold [0.5]. *)
Definition _interpolate_states (states1 states2 : Series string) (alpha : Q)
  : py (Series string) :=
  let interpolated := states1 in
  changed_mask <- Pandas.ne states1 states2 ;;
  let transition_threshold := 1 # 2 in
  let selected := and_scalar changed_mask (Qlt_bool transition_threshold alpha) in
  moved <- getitem_mask states2 selected ;;
  setitem_mask_series interpolated selected moved.

(** [(1 - alpha) * snapshot1[col] + alpha * snapshot2[col]] stored back
    into the copy of [snapshot1]: row by row on identical labels; on
    different labels the sum is aligned by label and a row of [snapshot1]
    without a partner becomes [NaN]. *)
Definition blend_column (alpha : Q) (c1 c2 : Series float) : Series float :=
  if indexed_same c1 c2
  then map (fun p => (fst (fst p), fblend alpha (snd (fst p)) (snd (snd p)))) (combine c1 c2)
  else map (fun r => (fst r, fblend alpha (snd r)
                               (match loc c2 (fst r) with Some v => v | None => None end)))
           c1.

Definition continuous_cols : list string :=
  ["moisture"%string; "temperature"%string; "elevation"%string].

(** The dictionary [snapshots], keyed in the code by [str(t)]; the model
    keys it by the number [t]. *)
Fixpoint dict_get (snapshots : list (Q * DataFrame)) (t : Q) : py DataFrame :=
  match snapshots with
  | [] => raise KeyError
  | (k, df) :: rest => if Qeq_bool k t then ret df else dict_get rest t
  end.

(** One round of the loop over [continuous_cols]:
    [if col in snapshot1.columns and col in snapshot2.columns:
       interpolated[col] = (1 - alpha) * snapshot1[col] + alpha * snapshot2[col]] *)
Definition blend_step (snapshot1 snapshot2 : DataFrame) (alpha : Q)
           (interpolated : DataFrame) (col : string) : DataFrame :=
  match column (columns snapshot1) col, column (columns snapshot2) col with
  | Some c1, Some c2 =>
      mkDataFrame (state interpolated)
                  (set_column (columns interpolated) col (blend_column alpha c1 c2))
  | _, _ => interpolated
  end.

Definition _interpolate_snapshot (sim_time : Q) (sorted_times : list Q)
           (snapshots : list (Q * DataFrame)) (indices : Z * Z) : py DataFrame :=
  let '(idx1, idx2) := indices in
  (* If same index, no interpolation needed *)
  if (idx1 =? idx2)%Z then
    t <- getitem sorted_times idx1 ;;
    dict_get snapshots t
  else
    t1 <- getitem sorted_times idx1 ;;
    t2 <- getitem sorted_times idx2 ;;
    snapshot1 <- dict_get snapshots t1 ;;
    snapshot2 <- dict_get snapshots t2 ;;
    let alpha := interpolation_factor sim_time t1 t2 in
    let interpolated := snapshot1 in
    (* Interpolate continuous values *)
    let interpolated :=
      fold_left (blend_step snapshot1 snapshot2 alpha) continuous_cols interpolated in
    (* Handle discrete state transitions *)
    match state snapshot1 with
    | Some states1 =>
        states2 <- getitem_state snapshot2 ;;
        st <- _interpolate_states states1 states2 alpha ;;
        ret (mkDataFrame (Some st) (columns interpolated))
    | None => ret interpolated
    end.

(** [sorted(...)] on floats *)
Fixpoint insert_sorted (x : Q) (l : list Q) : list Q :=
  match l with
  | [] => [x]
  | y :: l' => if Qle_bool x y then x :: l else y :: insert_sorted x l'
  end.

Definition sorted (l : list Q) : list Q := fold_right insert_sorted [] l.

(** One entry of [metadata['frame_data']] together with the frame data
    written for it. *)
Record frame_info : Type := mkFrameInfo {
  frame_index : Z;
  video_time : Q;
  simulation_time : Q;
  data : DataFrame
}.

(** [export_for_video], without the files: the validation of the
    snapshot times and the frame loop. *)
Definition export_for_video (simulation_snapshots : list (Q * DataFrame))
           (target_duration : Q) (fps : Z) : py (list frame_info) :=
  let total_frames := int (target_duration * inject_Z fps) in
  let sorted_times := sorted (map fst simulation_snapshots) in
  if (len sorted_times <? 2)%Z then raise ValueError
  else
    t_last <- getitem sorted_times (-1) ;;
    t_first <- getitem sorted_times 0 ;;
    let sim_duration := t_last - t_first in
    time_scale <- truediv sim_duration target_duration ;;
    comprehension
      (fun frame_idx =>
         video_time <- truediv (inject_Z frame_idx) (inject_Z fps) ;;
         t0 <- getitem sorted_times 0 ;;
         let sim_time := t0 + video_time * time_scale in
         snapshot_idx <- _find_snapshot_indices sim_time sorted_times ;;
         frame_data <- _interpolate_snapshot sim_time sorted_times
                                             simulation_snapshots snapshot_idx ;;
         ret (mkFrameInfo frame_idx video_time sim_time frame_data))
      (range total_frames).



End DataExporter.
Import DataExporter.

(** ** The field interpolator ([interpolator.py]) *)

Module Interpolator.

(** The random numbers one call of [_interpolate_fire_states] consumes:
    [np.random.normal(0, 0.1, probability.shape)] at [row, column], and the
    two arrays [np.random.random(len(states_before))] by position. *)
Record draws : Type := mkDraws {
  normal : nat -> nat -> Q;
  uniform_tree : nat -> Q;
  uniform_burnt : nat -> Q
}.

(** [state_map.get(state, 0)] *)
Definition state_map (state : string) : Z :=
  if String.eqb state "Empty" then 0
  else if String.eqb state "Tree" then 1
  else if String.eqb state "Burning" then 2
  else if String.eqb state "Burnt" then 3
  else 0.

(** [_states_to_grid]: "Convert state series to 2D grid." *)
Definition _states_to_grid (states : Series string) (width height : Z)
  : py (list (list Z)) :=
  grid <- Np.zeros height width ;;
  for_each states
    (fun grid item =>
       let '(idx, st) := item in
       '(x, y) <- match idx with
                  | Tuple x y => ret (x, y)
                  | Int i =>
                      (* Assume sequential ordering *)
                      if (width =? 0)%Z then raise ZeroDivisionError
                      else ret ((i mod width)%Z, (i / width)%Z)
                  end ;;
       Np.setitem2 grid y x (state_map st))
    grid.

(** Map over a list with the position of each element. *)
Fixpoint imap_from {A B : Type} (n : nat) (f : nat -> A -> B) (l : list A) : list B :=
  match l with
  | [] => []
  | a :: l' => f n a :: imap_from (S n) f l'
  end.
Definition imap {A B : Type} (f : nat -> A -> B) (l : list A) : list B := imap_from 0 f l.

(** [np.random.random(n)] read off the draws *)
Definition random_array (u : nat -> Q) (n : nat) : list Q := map u (seq 0 n).

Section WithLibraries.

(** The row order pandas gives the outer join of two indexes. *)
Variable outer_join : list label -> list label -> list label.

(** [scipy.ndimage.gaussian_filter(input, sigma)] *)
Variable gaussian_filter : list (list Q) -> Q -> list (list Q).

(** [_create_fire_front_probability]: "Create probability map for fire
    front progression." *)
Definition _create_fire_front_probability (states_before states_after : Series string)
           (width height : Z) (alpha : Q) (rng : draws) : py (list Q) :=
  grid_before <- _states_to_grid states_before width height ;;
  grid_after <- _states_to_grid states_after width height ;;
  (* Find fire front (cells adjacent to burning cells) *)
  let burning_before :=
    map (map (fun c : Z => if (c =? 2)%Z then 1 else 0)) grid_before in
  (* Apply Gaussian filter to create smooth fire front *)
  let fire_influence := gaussian_filter burning_before (3 # 2) in
  (* Create probability based on distance from fire and alpha *)
  let probability := map (map (fun v => v * alpha * 2)) fire_influence in
  (* Add some noise for organic look *)
  let probability :=
    imap (fun r row => imap (fun c v => v + normal rng r c * alpha) row) probability in
  (* Clip to valid range *)
  let probability := map (map (fun v => Np.clip v 0 1)) probability in
  ret (Np.flatten probability).

(** The bracket search at the head of [_interpolate_fire_states]: the
    defaults [(0, len - 1)] stay when no interval contains the time. *)
Definition surrounding_indices (timestamps : list Q) (target_time : Q) : Z * Z :=
  match first_bracket target_time timestamps 0 with
  | Some p => p
  | None => (0%Z, (len timestamps - 1)%Z)
  end.

(** [_interpolate_fire_states]: "Interpolate discrete fire states with
    realistic transitions." *)
Definition _interpolate_fire_states (snapshots : list DataFrame) (timestamps : list Q)
           (target_time : Q) (width height : Z) (rng : draws) : py (Series string) :=
  let '(idx_before, idx_after) := surrounding_indices timestamps target_time in
  (* If same index, return that state *)
  if (idx_before =? idx_after)%Z then
    snapshot <- getitem snapshots idx_before ;;
    getitem_state snapshot
  else
    snapshot_before <- getitem snapshots idx_before ;;
    states_before <- getitem_state snapshot_before ;;
    snapshot_after <- getitem snapshots idx_after ;;
    states_after <- getitem_state snapshot_after ;;
    t1 <- getitem timestamps idx_before ;;
    t2 <- getitem timestamps idx_after ;;
    let alpha := interpolation_factor target_time t1 t2 in
    let result_states := states_before in
    (* Find cells that transition *)
    let tree_to_burning :=
      and_series outer_join (eq_scalar states_before "Tree")
                 (eq_scalar states_after "Burning") in
    let burning_to_burnt :=
      and_series outer_join (eq_scalar states_before "Burning")
                 (eq_scalar states_after "Burnt") in
    if Qlt_bool 0 alpha then
      (* Trees catching fire *)
      transition_prob <- _create_fire_front_probability states_before states_after
                                                        width height alpha rng ;;
      ignites <- Np.broadcast2 (fun p u => Qlt_bool u p) transition_prob
                               (random_array (uniform_tree rng) (length states_before)) ;;
      tree_mask <- and_array tree_to_burning ignites ;;
      result_states <- setitem_mask result_states tree_mask "Burning"%string ;;
      (* Burning to burnt transition *)
      let burnt_transition := alpha ^ 2 in
      let burns_out :=
        map (fun u => Qlt_bool u burnt_transition)
            (random_array (uniform_burnt rng) (length states_before)) in
      burnt_mask <- and_array burning_to_burnt burns_out ;;
      setitem_mask result_states burnt_mask "Burnt"%string
    else ret result_states.

End WithLibraries.

End Interpolator.

(** ** The camera path synthesizer ([camera_paths.py]) *)

Module CameraPaths.

(** The [smoothing] argument: ['linear'], ['quadratic'] or ['cubic']. *)
Inductive smoothing : Type := Linear | Quadratic | Cubic.

(** A keyframe dictionary [{'time', 'azimuth', 'elevation', 'distance'}]. *)
Record keyframe : Type := mkKeyframe {
  kp_time : Q;
  kp_azimuth : Q;
  kp_elevation : Q;
  kp_distance : Q
}.

(** A camera position dictionary
    [{'frame', 'time', 'azimuth', 'elevation', 'distance'}]. *)
Record camera_pos : Type := mkCameraPos {
  pos_frame : Z;
  pos_time : Q;
  pos_azimuth : Q;
  pos_elevation : Q;
  pos_distance : Q
}.

(** *** [scipy.interpolate.interp1d(x, y, kind='linear', fill_value='extrapolate')]

    The interpolant of kind ['linear']: the points are sorted by [x]
    (stable), a query is located with [searchsorted], the segment index
    is clipped to [1 .. len - 1], and the line through the two end points
    of that segment is evaluated, inside the range or outside it.  The
    model covers two or more points with distinct abscissae, which is
    what the keyframes of a path provide; it is not defined on fewer
    points, and raises there. *)

Fixpoint insert_point (p : Q * Q) (l : list (Q * Q)) : list (Q * Q) :=
  match l with
  | [] => [p]
  | q :: l' => if Qlt_bool (fst p) (fst q) then p :: l else q :: insert_point p l'
  end.

Definition sort_points (l : list (Q * Q)) : list (Q * Q) :=
  fold_left (fun acc p => insert_point p acc) l [].

Definition searchsorted (xs : list Q) (v : Q) : Z :=
  len (filter (fun x => Qlt_bool x v) xs).

Definition call_linear (pts : list (Q * Q)) (x_new : Q) : Q :=
  let xs := map fst pts in
  let ys := map snd pts in
  let i := Z.min (Z.max (searchsorted xs x_new) 1) (len xs - 1) in
  let lo := Z.to_nat (i - 1) in
  let hi := Z.to_nat i in
  let slope := (nth hi ys 0 - nth lo ys 0) / (nth hi xs 0 - nth lo xs 0) in
  slope * (x_new - nth lo xs 0) + nth lo ys 0.

Definition linear_interp1d (x y : list Q) : py (Q -> Q) :=
  if negb (Nat.eqb (length x) (length y)) || (len x <? 2)%Z then raise ValueError
  else ret (call_linear (sort_points (combine x y))).

Section WithSplines.

(** [interp1d] for the spline kinds: [spline_interp1d k x y] is
    [interp1d(x, y, kind=k, fill_value='extrapolate')] for
    [k] quadratic or cubic. *)
Variable spline_interp1d : smoothing -> list Q -> list Q -> py (Q -> Q).

Definition interp1d (x y : list Q) (kind : smoothing) : py (Q -> Q) :=
  match kind with
  | Linear => linear_interp1d x y
  | _ => spline_interp1d kind x y
  end.

(** [generate_camera_path]: "Generate smooth camera movements between
    keyframes." *)
Definition generate_camera_path (key_points : list keyframe) (duration : Q)
           (fps : Z) (kind : smoothing) : py (list camera_pos) :=
  let total_frames := int (duration * inject_Z fps) in
  (* Extract keyframe data *)
  let times := map kp_time key_points in
  let azimuths := map kp_azimuth key_points in
  let elevations := map kp_elevation key_points in
  let distances := map kp_distance key_points in
  (* Create interpolation functions *)
  azimuth_interp <- interp1d times azimuths kind ;;
  elevation_interp <- interp1d times elevations kind ;;
  distance_interp <- interp1d times distances kind ;;
  (* Generate camera positions for each frame *)
  comprehension
    (fun frame =>
       t <- truediv (inject_Z frame) (inject_Z fps) ;;
       ret (mkCameraPos frame t (azimuth_interp t) (elevation_interp t)
                        (distance_interp t)))
    (range total_frames).

(** *** The preset paths *)

(** [_generate_orbit_path]: "Generate circular orbit around the scene." *)
Definition _generate_orbit_path (duration : Q) (fps : Z) : py (list camera_pos) :=
  let key_points :=
    [mkKeyframe 0 (-45) 30 10;
     mkKeyframe (duration * (1 # 4)) 45 35 9;
     mkKeyframe (duration * (1 # 2)) 135 40 8;
     mkKeyframe (duration * (3 # 4)) 225 35 9;
     mkKeyframe duration 315 30 10] in
  generate_camera_path key_points duration fps Cubic.

(** [_generate_flyover_path]: "Generate flyover path from one corner to
    opposite." *)
Definition _generate_flyover_path (duration : Q) (fps : Z) : py (list camera_pos) :=
  let key_points :=
    [mkKeyframe 0 (-45) 60 15;
     mkKeyframe (duration * (3 # 10)) 0 80 12;
     mkKeyframe (duration * (7 # 10)) 90 70 10;
     mkKeyframe duration 135 45 12] in
  generate_camera_path key_points duration fps Cubic.

(** [_generate_fire_tracking_path]: "Generate path that follows fire
    progression." *)
Definition _generate_fire_tracking_path (duration : Q) (fps : Z) : py (list camera_pos) :=
  let key_points :=
    [mkKeyframe 0 (-30) 25 8;
     mkKeyframe (duration * (3 # 10)) 0 30 6;
     mkKeyframe (duration * (6 # 10)) 30 35 5;
     mkKeyframe duration 60 40 7] in
  generate_camera_path key_points duration fps Cubic.

(** [_generate_reveal_path]: "Generate dramatic reveal starting from
    close-up." *)
Definition _generate_reveal_path (duration : Q) (fps : Z) : py (list camera_pos) :=
  let key_points :=
    [mkKeyframe 0 0 10 3;
     mkKeyframe (duration * (2 # 10)) (-15) 20 5;
     mkKeyframe (duration * (1 # 2)) (-30) 35 8;
     mkKeyframe (duration * (8 # 10)) (-45) 45 10;
     mkKeyframe duration (-45) 50 12] in
  generate_camera_path key_points duration fps Quadratic.

(** [_generate_zoom_path]: "Generate zoom in/out path." *)
Definition _generate_zoom_path (duration : Q) (fps : Z) : py (list camera_pos) :=
  let key_points :=
    [mkKeyframe 0 (-45) 30 12;
     mkKeyframe (duration * (1 # 2)) (-45) 30 5;
     mkKeyframe duration (-45) 30 12] in
  generate_camera_path key_points duration fps Cubic.

(** [_generate_pan_path]: "Generate horizontal panning path." *)
Definition _generate_pan_path (duration : Q) (fps : Z) : py (list camera_pos) :=
  let key_points :=
    [mkKeyframe 0 (-90) 30 10;
     mkKeyframe (duration * (1 # 2)) 0 30 10;
     mkKeyframe duration 90 30 10] in
  generate_camera_path key_points duration fps Linear.

(** [self.paths]: the presets by name, in the order of the dictionary. *)
Definition paths : list (string * (Q -> Z -> py (list camera_pos))) :=
  [("orbit"%string, _generate_orbit_path);
   ("flyover"%string, _generate_flyover_path);
   ("fire_follow"%string, _generate_fire_tracking_path);
   ("dramatic_reveal"%string, _generate_reveal_path);
   ("zoom_in"%string, _generate_zoom_path);
   ("pan"%string, _generate_pan_path)].

(** [self.paths[path_name]], after the test [path_name in self.paths] *)
Fixpoint paths_get (d : list (string * (Q -> Z -> py (list camera_pos))))
         (path_name : string) : option (Q -> Z -> py (list camera_pos)) :=
  match d with
  | [] => None
  | (name, func) :: d' => if String.eqb name path_name then Some func else paths_get d' path_name
  end.

(** [get_cinematic_paths]: "Get predefined cinematic camera movements." *)
Definition get_cinematic_paths (duration : Q) (fps : Z)
  : py (list (string * list camera_pos)) :=
  comprehension (fun entry : string * (Q -> Z -> py (list camera_pos)) =>
                   path <- snd entry duration fps ;;
                   ret (fst entry, path))
                paths.

(** The copy of [pos] that [combine_paths] appends:
    [adjusted_pos['time'] += current_time;
     adjusted_pos['frame'] = int(adjusted_pos['time'] * fps)] *)
Definition adjusted_pos (current_time : Q) (fps : Z) (pos : camera_pos) : camera_pos :=
  let time := pos_time pos + current_time in
  mkCameraPos (int (time * inject_Z fps)) time
              (pos_azimuth pos) (pos_elevation pos) (pos_distance pos).

(** [combine_paths]: "Combine multiple camera paths sequentially."  The
    argument [paths] of the code is [segments] here, the dictionary
    [self.paths] being [paths]; the loop state is
    [(combined_path, current_time)]; [total_duration] is not used by the
    code. *)
Definition combine_paths (segments : list (string * Q)) (total_duration : Q) (fps : Z)
  : py (list camera_pos) :=
  final <- for_each segments
             (fun (st : list camera_pos * Q) (item : string * Q) =>
                let '(combined_path, current_time) := st in
                let '(path_name, path_duration) := item in
                match paths_get paths path_name with
                | Some func =>
                    (* Generate path segment *)
                    segment <- func path_duration fps ;;
                    (* Adjust timing and add to combined path *)
                    ret (combined_path ++ map (adjusted_pos current_time fps) segment,
                         current_time + path_duration)
                | None => ret (combined_path, current_time)
                end)
             ([], 0) ;;
  ret (fst final).

(** [enumerate(l)] *)
Definition enumerate {A : Type} (l : list A) : list (Z * A) :=
  combine (range (len l)) l.

(** [smooth_transition]: "Create smooth transition between two camera
    paths."  The poses of the result are those of
    [path1[:-1] + transition + path2[1:]] after the renumbering loop; that
    the loop writes into the dictionaries of [path1] and [path2]
    themselves is not modelled. *)
Definition smooth_transition (path1 path2 : list camera_pos) (transition_duration : Q)
           (fps : Z) : py (list camera_pos) :=
  let transition_frames := int (transition_duration * inject_Z fps) in
  (* Get end of path1 and start of path2 *)
  end_pos1 <- getitem path1 (-1) ;;
  start_pos2 <- getitem path2 0 ;;
  (* Create transition keyframes *)
  let transition_keys :=
    [mkKeyframe 0 (pos_azimuth end_pos1) (pos_elevation end_pos1) (pos_distance end_pos1);
     mkKeyframe transition_duration (pos_azimuth start_pos2) (pos_elevation start_pos2)
                (pos_distance start_pos2)] in
  (* Generate smooth transition *)
  transition <- generate_camera_path transition_keys transition_duration fps Cubic ;;
  (* Combine paths *)
  let combined := removelast path1 ++ transition ++ tl path2 in
  (* Recalculate frame numbers *)
  comprehension
    (fun entry : Z * camera_pos =>
       let '(i, pos) := entry in
       time <- truediv (inject_Z i) (inject_Z fps) ;;
       ret (mkCameraPos i time (pos_azimuth pos) (pos_elevation pos) (pos_distance pos)))
    (enumerate combined).

End WithSplines.

(** The examples below use linear smoothing only; there the spline
    parameter is not consulted. *)
Definition no_spline : smoothing -> list Q -> list Q -> py (Q -> Q) :=
  fun _ _ _ => raise ValueError.

End CameraPaths.

(** * Vocabulary of the statements *)

Unset Implicit Arguments.

Import Interpolator CameraPaths.

(** The state columns [states_before], [states_after] of the two
    snapshots [_interpolate_fire_states] selects for a target time. *)
Definition bracket_states (snapshots : list DataFrame) (timestamps : list Q)
           (target_time : Q) (states_before states_after : Series string) : Prop :=
  exists snapshot_before snapshot_after,
    getitem snapshots (fst (surrounding_indices timestamps target_time)) = ret snapshot_before /\
    state snapshot_before = Some states_before /\
    getitem snapshots (snd (surrounding_indices timestamps target_time)) = ret snapshot_after /\
    state snapshot_after = Some states_after.

(** What a returned state column looks like, row by row. *)
Definition transition_rows (sb sa r : Series string) : Prop :=
  labels r = labels sb /\
  forall l a, In (l, a) r ->
    In (l, a) sb \/
    (a = "Burning"%string /\ In (l, "Tree"%string) sb /\ In (l, "Burning"%string) sa) \/
    (a = "Burnt"%string /\ In (l, "Burning"%string) sb /\ In (l, "Burnt"%string) sa).

(** The mask [states1 != states2] of two identically-labelled columns. *)
Definition changed_rows (s1 s2 : Series string) : Series bool :=
  map (fun p : (label * string) * (label * string) =>
         (fst (fst p), negb (String.eqb (snd (fst p)) (snd (snd p)))))
      (combine s1 s2).

(** The dictionary the loop of [generate_camera_path] builds for a frame. *)
Definition pose_at (fps : Z) (az el di : Q -> Q) (frame : Z) : camera_pos :=
  let t := inject_Z frame / inject_Z fps in
  mkCameraPos frame t (az t) (el t) (di t).


(** The threshold a cell's uniform draw is compared with to decide
    Tree -> Burning: per grid cell [(row, column)],
    [clip(influence * alpha * 2 + noise * alpha, 0, 1)], where [influence]
    is the Gaussian blur ([sigma = 1.5]) of the indicator of the cells that
    burn in [grid]; listed row by row. *)
Definition ignition_thresholds (gaussian_filter : list (list Q) -> Q -> list (list Q))
           (grid : list (list Z)) (alpha : Q) (rng : draws) : list Q :=
  let influence :=
    gaussian_filter (map (map (fun c : Z => if (c =? 2)%Z then 1 else 0)) grid) (3 # 2) in
  Np.flatten
    (imap (fun r row =>
             imap (fun c v => Np.clip (v * alpha * 2 + normal rng r c * alpha) 0 1) row)
          influence).

(** The state of a cell after the stochastic step, from its states
    [before] and [after] and the outcome of its two comparisons. *)
Definition transition (before after : string) (ignites burns_out : bool) : string :=
  if String.eqb before "Tree" && String.eqb after "Burning"
  then (if ignites then "Burning"%string else before)
  else if String.eqb before "Burning" && String.eqb after "Burnt"
       then (if burns_out then "Burnt"%string else before)
       else before.

(** The grid cell [(x, y)] a label addresses in [_states_to_grid]. *)
Definition cell_of (width : Z) (l : label) : Z * Z :=
  match l with
  | Tuple x y => (x, y)
  | Int i => ((i mod width)%Z, (i / width)%Z)
  end.

Definition on_grid (width height : Z) (l : label) : Prop :=
  (0 <= fst (cell_of width l) < width /\ 0 <= snd (cell_of width l) < height)%Z.

(** A grid of [height] rows of [width] entries. *)
Definition has_shape {A : Type} (height width : nat) (grid : list (list A)) : Prop :=
  length grid = height /\ Forall (fun row => length row = width) grid.

(** Equality of two float cells, [NaN] matching [NaN] only. *)
Definition float_eq (a b : float) : Prop :=
  match a, b with
  | Some x, Some y => x == y
  | None, None => True
  | _, _ => False
  end.

(** Two columns with the same labels and equal numbers, row by row. *)
Definition same_column (c c' : Series float) : Prop :=
  Forall2 (fun r r' => fst r = fst r' /\ float_eq (snd r) (snd r')) c c'.

(** A column without [NaN]. *)
Definition finite_column (c : Series float) : Prop :=
  Forall (fun r => snd r <> None) c.

(** A numpy index [i] on an axis of size [n]: counted from the end when negative. *)
Definition wrap (n i : Z) : Z := if (i <? 0)%Z then (i + n)%Z else i.

(** The entry [grid[r, c]] ([d] outside the grid). *)
Definition cell {A : Type} (grid : list (list A)) (r c : nat) (d : A) : A :=
  nth c (nth r grid []) d.

(** The labels [_states_to_grid] can write to a [height] x [width] grid:
    numpy accepts each coordinate from [-size] to [size - 1]. *)
Definition addressable (width height : Z) (l : label) : Prop :=
  (- width <= fst (cell_of width l) < width /\
   - height <= snd (cell_of width l) < height)%Z.

(** The [(row, column)] such a label writes to. *)
Definition grid_position (width height : Z) (l : label) : nat * nat :=
  (Z.to_nat (wrap height (snd (cell_of width l))),
   Z.to_nat (wrap width (fst (cell_of width l)))).


(** ** Example data *)


(** Two keyframes whose distance falls from [10] to [1] within one second. *)
Definition approach_keys : list keyframe :=
  [mkKeyframe 0 0 30 10; mkKeyframe 1 0 30 1].

(** The two snapshots of the coverage rule, [{(0,0): Tree}] and
    [{(0,0): Tree, (1,1): Burning}]. *)
Definition lone_tree : DataFrame :=
  mkDataFrame (Some [(Tuple 0 0, "Tree"%string)]) [].

Definition tree_and_fire : DataFrame :=
  mkDataFrame (Some [(Tuple 0 0, "Tree"%string); (Tuple 1 1, "Burning"%string)]) [].

(** The single cell on fire. *)
Definition fire_out : DataFrame :=
  mkDataFrame (Some [(Tuple 0 0, "Burning"%string)]) [].

(** A two-cell row: the fire moves from the left cell to the right one. *)
Definition front_before_states : Series string :=
  [(Tuple 0 0, "Burning"%string); (Tuple 1 0, "Tree"%string)].

Definition front_after_states : Series string :=
  [(Tuple 0 0, "Burnt"%string); (Tuple 1 0, "Burning"%string)].

Definition front_before : DataFrame := mkDataFrame (Some front_before_states) [].

Definition front_after : DataFrame := mkDataFrame (Some front_after_states) [].

(** The same row with a third cell, a tree the fire does not reach. *)
Definition row_before_states : Series string :=
  [(Tuple 0 0, "Burning"%string); (Tuple 1 0, "Tree"%string); (Tuple 2 0, "Tree"%string)].

Definition row_after_states : Series string :=
  [(Tuple 0 0, "Burnt"%string); (Tuple 1 0, "Burning"%string); (Tuple 2 0, "Tree"%string)].

(** An outer join that keeps the left labels and appends the new right ones. *)
Definition append_join (a b : list label) : list label :=
  a ++ filter (fun l => negb (existsb (label_eqb l) a)) b.

(** A smoothing filter standing in for the Gaussian one in the examples:
    every cell receives the mean of the grid. *)
Definition mean_filter (grid : list (list Q)) (sigma : Q) : list (list Q) :=
  let cells := Np.flatten grid in
  let mean := fold_right Qplus 0 cells / inject_Z (len cells) in
  map (map (fun _ => Qred mean)) grid.

(** Draws: no noise, a uniform [3/8] for ignition and [1/8] for burning out. *)
Definition fixed_draws : draws :=
  mkDraws (fun _ _ => 0) (fun _ => 3 # 8) (fun _ => 1 # 8).

(** The two-cell row with a moisture column, to be interpolated, and a
    wind column, which is not among the continuous columns. *)
Definition moist_column : Series float :=
  [(Tuple 0 0, Some (4 # 10)); (Tuple 1 0, Some (6 # 10))].

Definition dry_column : Series float :=
  [(Tuple 0 0, Some (2 # 10)); (Tuple 1 0, Some (2 # 10))].

Definition calm_column : Series float :=
  [(Tuple 0 0, Some 1); (Tuple 1 0, Some 1)].

Definition windy_column : Series float :=
  [(Tuple 0 0, Some 5); (Tuple 1 0, Some 5)].

Definition front_before_fields : DataFrame :=
  mkDataFrame (Some front_before_states)
              [("moisture"%string, moist_column); ("wind"%string, calm_column)].

Definition front_after_fields : DataFrame :=
  mkDataFrame (Some front_after_states)
              [("moisture"%string, dry_column); ("wind"%string, windy_column)].

(** A snapshot without a state column. *)
Definition stateless : DataFrame :=
  mkDataFrame None [("moisture"%string, dry_column)].

(** A tree at the origin and a fire addressed from the far corner. *)
Definition corner_states : Series string :=
  [(Tuple 0 0, "Tree"%string); (Tuple (-1) (-1), "Burning"%string)].

(** * Properties *)

(** ** Comparisons and the bracket search *)

Section ResamplerFacts.

Lemma Qlt_bool_iff (a b : Q) : Qlt_bool a b = true <-> a < b.
Proof.
  unfold Qlt_bool. rewrite negb_true_iff. split; intro H.
  - apply Qnot_le_lt. intro Hle. apply Qle_bool_iff in Hle. congruence.
  - destruct (Qle_bool b a) eqn:E; [|reflexivity].
    apply Qle_bool_iff in E. lra.
Qed.

Lemma Qlt_bool_false_iff (a b : Q) : Qlt_bool a b = false <-> b <= a.
Proof.
  unfold Qlt_bool. rewrite negb_false_iff. apply Qle_bool_iff.
Qed.

Lemma Qle_bool_false_iff (a b : Q) : Qle_bool a b = false <-> b < a.
Proof.
  split; intro H.
  - apply Qnot_le_lt. intro Hle. apply Qle_bool_iff in Hle. congruence.
  - destruct (Qle_bool a b) eqn:E; [|reflexivity].
    apply Qle_bool_iff in E. lra.
Qed.

Lemma first_bracket_step (q a b : Q) (tl : list Q) (i : Z) :
  first_bracket q (a :: b :: tl) i =
    if Qle_bool a q && Qle_bool q b then Some (i, (i + 1)%Z)
    else first_bracket q (b :: tl) (i + 1)%Z.
Proof. reflexivity. Qed.

Lemma sorted_head_le_last (a : Q) (l : list Q) :
  StronglySorted Qle (a :: l) -> a <= last (a :: l) 0.
Proof.
  revert a. induction l as [|b l IH]; intros a Hs.
  - simpl. lra.
  - inversion Hs as [|? ? Hs' Hall]; subst.
    inversion Hall as [|? ? Hab _]; subst.
    specialize (IH b Hs').
    change (last (a :: b :: l) 0) with (last (b :: l) 0). lra.
Qed.

Lemma first_bracket_below (T : list Q) (i : Z) (q : Q) :
  StronglySorted Qle T -> q < hd 0 T -> first_bracket q T i = None.
Proof.
  revert i. induction T as [|a T IH]; intros i Hs Hq; [reflexivity|].
  destruct T as [|b T]; [reflexivity|].
  simpl in Hq. rewrite first_bracket_step.
  assert (Ha : Qle_bool a q = false) by (apply Qle_bool_false_iff; exact Hq).
  rewrite Ha. cbn [andb].
  inversion Hs as [|? ? Hs' Hall]; subst.
  inversion Hall as [|? ? Hab _]; subst.
  apply IH; [exact Hs'|]. simpl. lra.
Qed.

Lemma first_bracket_above (T : list Q) (i : Z) (q : Q) :
  StronglySorted Qle T -> last T 0 < q -> first_bracket q T i = None.
Proof.
  revert i. induction T as [|a T IH]; intros i Hs Hq; [reflexivity|].
  destruct T as [|b T]; [reflexivity|].
  rewrite first_bracket_step.
  inversion Hs as [|? ? Hs' Hall]; subst.
  change (last (a :: b :: T) 0) with (last (b :: T) 0) in Hq.
  pose proof (sorted_head_le_last _ _ Hs') as Hb.
  assert (Hqb : Qle_bool q b = false) by (apply Qle_bool_false_iff; lra).
  rewrite Hqb, andb_false_r.
  apply IH; assumption.
Qed.

Lemma first_bracket_shape (T : list Q) (i : Z) (q : Q) (a b : Z) :
  first_bracket q T i = Some (a, b) ->
  (b = a + 1 /\ i <= a < i + len T - 1)%Z.
Proof.
  revert i. induction T as [|x T IH]; intros i H; [discriminate|].
  destruct T as [|y T]; [discriminate|].
  rewrite first_bracket_step in H.
  destruct (Qle_bool x q && Qle_bool q y).
  - inversion H; subst. unfold len. cbn [length]. lia.
  - apply IH in H. unfold len in *. cbn [length] in *. lia.
Qed.

Lemma first_bracket_within (T : list Q) (i : Z) (q : Q) :
  StronglySorted Qle T -> (2 <= length T)%nat ->
  hd 0 T <= q -> q <= last T 0 ->
  exists a, first_bracket q T i = Some (a, (a + 1)%Z).
Proof.
  revert i. induction T as [|x T IH]; intros i Hs Hn Hlo Hhi; [simpl in Hn; lia|].
  destruct T as [|y T]; [simpl in Hn; lia|].
  rewrite first_bracket_step. simpl in Hlo.
  destruct (Qle_bool x q && Qle_bool q y) eqn:E; [eexists; reflexivity|].
  apply andb_false_iff in E. destruct E as [E|E].
  - apply Qle_bool_false_iff in E. lra.
  - apply Qle_bool_false_iff in E.
    inversion Hs as [|? ? Hs' Hall]; subst.
    change (last (x :: y :: T) 0) with (last (y :: T) 0) in Hhi.
    destruct T as [|z T].
    + simpl in Hhi. lra.
    + apply IH; [exact Hs'|simpl; lia|simpl; lra|exact Hhi].
Qed.

Lemma first_bracket_exact (T : list Q) (i : Z) (k : nat) (q tk : Q) :
  StronglySorted Qlt T -> (2 <= length T)%nat ->
  nth_error T k = Some tk -> q == tk ->
  first_bracket q T i =
    Some ((i + Z.max (Z.of_nat k - 1) 0)%Z, (i + Z.max (Z.of_nat k) 1)%Z).
Proof.
  revert i k. induction T as [|x T IH]; intros i k Hs Hn Hk Hq; [simpl in Hn; lia|].
  destruct T as [|y T]; [simpl in Hn; lia|].
  rewrite first_bracket_step.
  inversion Hs as [|? ? Hs' Hall]; subst.
  inversion Hall as [|? ? Hxy Hall']; subst.
  destruct k as [|[|k]].
  - assert (Hx : x = tk) by (simpl in Hk; congruence). subst tk.
    assert (E1 : Qle_bool x q = true) by (apply Qle_bool_iff; lra).
    assert (E2 : Qle_bool q y = true) by (apply Qle_bool_iff; lra).
    rewrite E1, E2. cbn [andb]. f_equal. f_equal; lia.
  - assert (Hx : y = tk) by (simpl in Hk; congruence). subst tk.
    assert (E1 : Qle_bool x q = true) by (apply Qle_bool_iff; lra).
    assert (E2 : Qle_bool q y = true) by (apply Qle_bool_iff; lra).
    rewrite E1, E2. cbn [andb]. f_equal. f_equal; lia.
  - change (nth_error (x :: y :: T) (S (S k))) with (nth_error (y :: T) (S k)) in Hk.
    assert (Hy : y < tk).
    { inversion Hs' as [|? ? _ Hall'']; subst.
      simpl in Hk. apply nth_error_In in Hk.
      rewrite Forall_forall in Hall''. apply Hall''. exact Hk. }
    assert (E2 : Qle_bool q y = false) by (apply Qle_bool_false_iff; lra).
    rewrite E2, andb_false_r.
    assert (Hlen : (2 <= length (y :: T))%nat).
    { assert (Hlt : (S k < length (y :: T))%nat)
        by (apply nth_error_Some; congruence).
      lia. }
    rewrite (IH (i + 1)%Z (S k) Hs' Hlen Hk Hq).
    f_equal. f_equal; lia.
Qed.

End ResamplerFacts.

(** ** The snapshot resampler *)

Section Resampler.

Lemma getitem_head (A : Type) (a : A) (l : list A) : getitem (a :: l) 0 = ret a.
Proof. reflexivity. Qed.

Lemma find_outside (T : list Q) (q t0 : Q) (l : list Q) :
  T = t0 :: l -> first_bracket q T 0 = None ->
  _find_snapshot_indices q T =
    if Qlt_bool q t0 then ret (0, 0)%Z else ret (len T - 1, len T - 1)%Z.
Proof.
  intros -> Hnone. unfold _find_snapshot_indices. rewrite Hnone, getitem_head.
  reflexivity.
Qed.

(** C2, as amended: for a sorted sequence of [N >= 1] timestamps the
    resampler returns [(0, 0)] for every query strictly before [T[0]]
    and [(N-1, N-1)] for every query strictly after [T[N-1]]; a query
    equal to [T[0]] or [T[N-1]] is clamped only when [N = 1], and for
    [N >= 2] every query inside the closed range gets a proper
    bracket [(i, i+1)]. *)
Theorem find_snapshot_indices_clamp (T : list Q) (q : Q) :
  StronglySorted Qle T -> (1 <= length T)%nat ->
  (q < hd 0 T -> _find_snapshot_indices q T = ret (0, 0)%Z) /\
  (last T 0 < q -> _find_snapshot_indices q T = ret (len T - 1, len T - 1)%Z) /\
  (length T = 1%nat -> _find_snapshot_indices q T = ret (0, 0)%Z) /\
  ((2 <= length T)%nat -> hd 0 T <= q -> q <= last T 0 ->
   exists i, (0 <= i < len T - 1)%Z /\ _find_snapshot_indices q T = ret (i, i + 1)%Z).
Proof.
  intros Hs Hn. destruct T as [|t0 l]; [simpl in Hn; lia|].
  repeat split.
  - intro Hq. rewrite (find_outside (t0 :: l) q t0 l eq_refl).
    + apply Qlt_bool_iff in Hq. simpl in Hq. rewrite Hq. reflexivity.
    + apply first_bracket_below; assumption.
  - intro Hq. rewrite (find_outside (t0 :: l) q t0 l eq_refl).
    + pose proof (sorted_head_le_last _ _ Hs) as Hle.
      assert (E : Qlt_bool q t0 = false) by (apply Qlt_bool_false_iff; lra).
      rewrite E. reflexivity.
    + apply first_bracket_above; assumption.
  - intro H1. destruct l; [|simpl in H1; lia].
    rewrite (find_outside [t0] q t0 [] eq_refl) by reflexivity.
    destruct (Qlt_bool q t0); reflexivity.
  - intros H2 Hlo Hhi.
    destruct (first_bracket_within _ 0 _ Hs H2 Hlo Hhi) as [a Ha].
    exists a. split.
    + apply first_bracket_shape in Ha. lia.
    + unfold _find_snapshot_indices. rewrite Ha. reflexivity.
Qed.

Lemma find_snapshot_indices_clamp_witness :
  StronglySorted Qle [0; 1; 2] /\ (1 <= length [0; 1; 2])%nat /\
  _find_snapshot_indices (-1) [0; 1; 2] = ret (0, 0)%Z /\
  _find_snapshot_indices 3 [0; 1; 2] = ret (2, 2)%Z.
Proof.
  assert (Hs : StronglySorted Qle [0; 1; 2]).
  { repeat constructor; unfold Qle; simpl; lia. }
  assert (Hn : (1 <= length [0; 1; 2])%nat) by (simpl; lia).
  destruct (find_snapshot_indices_clamp _ (-1) Hs Hn) as [Hlo _].
  destruct (find_snapshot_indices_clamp _ 3 Hs Hn) as [_ [Hhi _]].
  split; [exact Hs|]. split; [exact Hn|]. split.
  - apply Hlo. reflexivity.
  - apply Hhi. reflexivity.
Defined.

(** C2 as stated fails on the boundary: the query [q = T[0]] of the
    sorted sequence [[0, 1]] is bracketed as [(0, 1)], not clamped to
    [(0, 0)], and [q = T[1]] is bracketed as [(0, 1)], not [(1, 1)]. *)
Lemma find_snapshot_indices_boundary_counterexample :
  StronglySorted Qle [0; 1] /\ 0 <= hd 0 [0; 1] /\ last [0; 1] 0 <= 1 /\
  _find_snapshot_indices 0 [0; 1] <> ret (0, 0)%Z /\
  _find_snapshot_indices 1 [0; 1] <> ret (1, 1)%Z.
Proof.
  split; [|split; [|split; [|split]]].
  - repeat constructor; unfold Qle; simpl; lia.
  - simpl. lra.
  - simpl. lra.
  - vm_compute. discriminate.
  - vm_compute. discriminate.
Qed.

End Resampler.

(** ** Input validation *)

Section Validation.

Lemma insert_sorted_length (x : Q) (l : list Q) :
  length (insert_sorted x l) = S (length l).
Proof.
  induction l as [|y l IH]; [reflexivity|].
  cbn [insert_sorted]. destruct (Qle_bool x y); cbn [length]; [reflexivity|].
  rewrite IH. reflexivity.
Qed.

Lemma sorted_length (l : list Q) : length (sorted l) = length l.
Proof.
  induction l as [|x l IH]; [reflexivity|].
  unfold sorted in *. cbn [fold_right length]. rewrite insert_sorted_length, IH.
  reflexivity.
Qed.

(** C7, as amended: the resampler validates nothing about the order of
    the timestamps.  It fails (with [IndexError], from [sorted_times[0]])
    exactly on the empty sequence and returns a bracket for every
    non-empty one, increasing or not; [[5, 2, 8]] queried at [6] yields
    [(1, 2)], from [_find_snapshot_indices] and from the bracket search of
    the frame interpolator alike.  The only explicit check sits upstream in
    [export_for_video], which sorts the times itself and raises
    [ValueError] when it is given fewer than two snapshots. *)
Theorem resampler_validation (q : Q) :
  _find_snapshot_indices q [] = raise IndexError /\
  (forall (t : Q) (T : list Q), exists p, _find_snapshot_indices q (t :: T) = ret p) /\
  _find_snapshot_indices 6 [5; 2; 8] = ret (1, 2)%Z /\
  surrounding_indices [5; 2; 8] 6 = (1, 2)%Z /\
  (forall (snapshots : list (Q * DataFrame)) (target_duration : Q) (fps : Z),
      (length snapshots < 2)%nat ->
      export_for_video snapshots target_duration fps = raise ValueError).
Proof.
  split; [reflexivity|]. split; [|split; [reflexivity|split; [reflexivity|]]].
  - intros t T. unfold _find_snapshot_indices.
    destruct (first_bracket q (t :: T) 0) as [p|].
    + exists p. reflexivity.
    + rewrite getitem_head. unfold bind, ret.
      destruct (Qlt_bool q t); eexists; reflexivity.
  - intros snapshots d fps Hlen. unfold export_for_video.
    assert (E : (len (sorted (List.map fst snapshots)) <? 2)%Z = true).
    { apply Z.ltb_lt. unfold len. rewrite sorted_length, length_map. lia. }
    rewrite E. reflexivity.
Qed.

Lemma resampler_validation_witness :
  (length [(0%Q, mkDataFrame None [])] < 2)%nat /\
  export_for_video [(0%Q, mkDataFrame None [])] 15 60 = raise ValueError.
Proof.
  assert (H : (length [(0%Q, mkDataFrame None [])] < 2)%nat) by (simpl; lia).
  split; [exact H|].
  exact (proj2 (proj2 (proj2 (proj2 (resampler_validation 0)))) _ 15 60%Z H).
Defined.

(** C7 as stated fails: the out-of-order sequence [[5, 2, 8]] raises
    nothing, the resampler returns a bracket for it. *)
Lemma resampler_unsorted_counterexample :
  ~ StronglySorted Qlt [5; 2; 8] /\
  _find_snapshot_indices 6 [5; 2; 8] = ret (1, 2)%Z /\
  (forall e, _find_snapshot_indices 6 [5; 2; 8] <> raise e).
Proof.
  split; [|split].
  - intro H. inversion H as [|? ? _ Hall]; subst.
    inversion Hall as [|? ? H52 _]; subst.
    unfold Qlt in H52. simpl in H52. lia.
  - reflexivity.
  - intros e. vm_compute. discriminate.
Qed.

End Validation.

(** ** The blend factor *)

Section BlendFactor.

Lemma interpolation_factor_equal (q ti tj : Q) :
  ti == tj -> interpolation_factor q ti tj = 0.
Proof.
  intro H. unfold interpolation_factor.
  assert (E : Qeq_bool tj ti = true) by (apply Qeq_bool_iff; symmetry; exact H).
  rewrite E. reflexivity.
Qed.

Lemma interpolation_factor_distinct (q ti tj : Q) :
  ~ ti == tj -> interpolation_factor q ti tj = (q - ti) / (tj - ti).
Proof.
  intro H. unfold interpolation_factor.
  destruct (Qeq_bool tj ti) eqn:E; [|reflexivity].
  apply Qeq_bool_iff in E. exfalso. apply H. symmetry. exact E.
Qed.

Lemma quotient_in_unit (n d : Q) : 0 < d -> (0 <= n / d /\ n / d <= 1 <-> 0 <= n /\ n <= d).
Proof.
  intro Hd.
  assert (Hm : d * (n / d) == n) by (apply Qmult_div_r; lra).
  split; intros [H0 H1]; split.
  - revert Hm H0 H1. generalize (n / d). intros a Hm H0 H1. nra.
  - revert Hm H0 H1. generalize (n / d). intros a Hm H0 H1. nra.
  - apply Qle_shift_div_l; lra.
  - apply Qle_shift_div_r; lra.
Qed.

(** C4, as amended: for [t_i <= t_j] the blend factor is [0] when
    [t_i == t_j] (the division is not performed) and otherwise it is
    [(q - t_i) / (t_j - t_i)] as it stands, without clamping; it lies in
    [[0, 1]] exactly when [t_i <= q <= t_j]. *)
Theorem interpolation_factor_spec (q ti tj : Q) :
  ti <= tj ->
  (ti == tj -> interpolation_factor q ti tj == 0) /\
  (~ ti == tj -> interpolation_factor q ti tj == (q - ti) / (tj - ti)) /\
  (ti < tj ->
   (0 <= interpolation_factor q ti tj /\ interpolation_factor q ti tj <= 1
    <-> ti <= q /\ q <= tj)).
Proof.
  intro Hle. split; [|split].
  - intro H. rewrite (interpolation_factor_equal q _ _ H). reflexivity.
  - intro H. rewrite (interpolation_factor_distinct q _ _ H). reflexivity.
  - intro Hlt.
    assert (Hne : ~ ti == tj) by lra.
    rewrite (interpolation_factor_distinct q _ _ Hne).
    rewrite quotient_in_unit by lra. split; intros [? ?]; split; lra.
Qed.

Lemma interpolation_factor_spec_witness :
  0 <= 1 /\ interpolation_factor 2 0 1 == (2 - 0) / (1 - 0).
Proof.
  assert (H : 0 <= 1) by lra.
  split; [exact H|].
  apply (proj1 (proj2 (interpolation_factor_spec 2 0 1 H))).
  intro E. discriminate E.
Defined.

(** C4 as stated fails: on the bracket [t_i = 0 <= t_j = 1] the query
    [q = 2] gets the blend factor [2], not its clamp [1]. *)
Lemma interpolation_factor_unclamped_counterexample :
  0 <= 1 /\ ~ interpolation_factor 2 0 1 == Np.clip ((2 - 0) / (1 - 0)) 0 1.
Proof.
  split; [lra|]. intro E. vm_compute in E. discriminate E.
Qed.

End BlendFactor.

(** ** The camera path synthesizer *)

Section CameraPath.

Variable spline_interp1d : smoothing -> list Q -> list Q -> py (Q -> Q).

Lemma comprehension_total (A B : Type) (f : A -> py B) (g : A -> B) (l : list A) :
  (forall a, In a l -> f a = ret (g a)) -> comprehension f l = ret (map g l).
Proof.
  induction l as [|a l IH]; intro H; [reflexivity|].
  cbn [comprehension map]. rewrite (H a (or_introl eq_refl)).
  rewrite IH by (intros b Hb; apply H; right; exact Hb).
  reflexivity.
Qed.

Lemma range_length (n : Z) : length (range n) = Z.to_nat n.
Proof. unfold range. rewrite length_map, length_seq. reflexivity. Qed.

Lemma range_nth (n : Z) (f : nat) :
  (f < Z.to_nat n)%nat -> nth_error (range n) f = Some (Z.of_nat f).
Proof.
  intro H. unfold range. rewrite nth_error_map, nth_error_seq.
  destruct (Nat.ltb_spec f (Z.to_nat n)); [reflexivity|lia].
Qed.

(** [int] truncates towards zero and [Qfloor] rounds down; as a number
    of loop iterations they agree. *)
Lemma int_iterations (x : Q) : Z.to_nat (int x) = Z.to_nat (Qfloor x).
Proof.
  destruct x as [n d]. unfold int, Qfloor. cbn [Qnum Qden].
  destruct (Z.le_gt_cases 0 n) as [H|H].
  - rewrite Z.quot_div_nonneg by lia. reflexivity.
  - assert (H1 : (Z.quot n (Z.pos d) <= 0)%Z) by (apply Z.quot_le_upper_bound; lia).
    assert (H2 : (n / Z.pos d < 0)%Z) by (apply Z.div_lt_upper_bound; lia).
    lia.
Qed.

Lemma frames_need_fps (duration : Q) (fps : Z) :
  (0 < Z.to_nat (int (duration * inject_Z fps)))%nat ->
  Qeq_bool (inject_Z fps) 0 = false.
Proof.
  intro H. destruct (Qeq_bool (inject_Z fps) 0) eqn:E; [|reflexivity].
  apply Qeq_bool_iff in E. exfalso.
  assert (Hz : fps = 0%Z).
  { unfold Qeq in E. simpl in E. lia. }
  subst fps. unfold int in H. simpl in H.
  rewrite Z.mul_0_r in H. simpl in H. lia.
Qed.

Lemma generate_camera_path_poses (key_points : list keyframe) (duration : Q) (fps : Z)
      (kind : smoothing) (az el di : Q -> Q) :
  interp1d spline_interp1d (map kp_time key_points) (map kp_azimuth key_points) kind = ret az ->
  interp1d spline_interp1d (map kp_time key_points) (map kp_elevation key_points) kind = ret el ->
  interp1d spline_interp1d (map kp_time key_points) (map kp_distance key_points) kind = ret di ->
  generate_camera_path spline_interp1d key_points duration fps kind =
    ret (map (pose_at fps az el di) (range (int (duration * inject_Z fps)))).
Proof.
  intros Haz Hel Hdi. unfold generate_camera_path.
  rewrite Haz, Hel, Hdi. cbn [bind ret].
  apply comprehension_total. intros frame Hin.
  assert (Hpos : (0 < Z.to_nat (int (duration * inject_Z fps)))%nat).
  { rewrite <- range_length. destruct (range (int (duration * inject_Z fps)));
      [destruct Hin|simpl; lia]. }
  unfold truediv. rewrite (frames_need_fps _ _ Hpos). reflexivity.
Qed.

Lemma linear_interp1d_total (key_points : list keyframe) (channel : keyframe -> Q) :
  (2 <= length key_points)%nat ->
  interp1d spline_interp1d (map kp_time key_points) (map channel key_points) Linear
  = ret (call_linear (sort_points (combine (map kp_time key_points)
                                           (map channel key_points)))).
Proof.
  intro Hn. cbn [interp1d]. unfold linear_interp1d.
  rewrite !length_map, Nat.eqb_refl. cbn [negb orb].
  assert (E : (len (map kp_time key_points) <? 2)%Z = false).
  { apply Z.ltb_ge. unfold len. rewrite length_map. lia. }
  rewrite E. reflexivity.
Qed.



(** C8, as amended: the returned poses are not validated or clamped;
    each pose carries, for every channel, the value its interpolant
    takes at the pose's time, so its distance is positive exactly when
    the (possibly extrapolated) distance interpolant is positive there. *)
Theorem camera_pose_channels_unclamped (key_points : list keyframe) (duration : Q)
        (fps : Z) (kind : smoothing) (az el di : Q -> Q) (path : list camera_pos) :
  interp1d spline_interp1d (map kp_time key_points) (map kp_azimuth key_points) kind = ret az ->
  interp1d spline_interp1d (map kp_time key_points) (map kp_elevation key_points) kind = ret el ->
  interp1d spline_interp1d (map kp_time key_points) (map kp_distance key_points) kind = ret di ->
  generate_camera_path spline_interp1d key_points duration fps kind = ret path ->
  Forall (fun pose => pos_azimuth pose = az (pos_time pose) /\
                      pos_elevation pose = el (pos_time pose) /\
                      pos_distance pose = di (pos_time pose) /\
                      (0 < pos_distance pose <-> 0 < di (pos_time pose))) path.
Proof.
  intros Haz Hel Hdi Hpath.
  rewrite (generate_camera_path_poses _ _ _ _ _ _ _ Haz Hel Hdi) in Hpath.
  injection Hpath as <-. apply Forall_forall. intros pose Hin.
  apply in_map_iff in Hin. destruct Hin as [frame [<- _]].
  unfold pose_at. cbn. repeat split; intro H; exact H.
Qed.

End CameraPath.


Lemma camera_pose_channels_unclamped_witness :
  exists path,
    generate_camera_path no_spline approach_keys 3 1 Linear = ret path /\
    Forall (fun pose => 0 < pos_distance pose <->
                        0 < call_linear [(0, 10); (1, 1)] (pos_time pose)) path.
Proof.
  eexists. split; [reflexivity|].
  eapply Forall_impl;
    [|exact (camera_pose_channels_unclamped no_spline approach_keys 3 1 Linear
               _ _ _ _ eq_refl eq_refl eq_refl eq_refl)].
  intros pose [_ [_ [_ H]]]. exact H.
Defined.

(** C8 as stated fails: with linear smoothing the two keyframes above,
    queried for three seconds at one frame per second, give the pose of
    frame [2] the extrapolated distance [-8]. *)
Lemma camera_distance_counterexample :
  exists path pose,
    generate_camera_path no_spline approach_keys 3 1 Linear = ret path /\
    nth_error path 2 = Some pose /\
    pos_distance pose == -8 /\
    ~ 0 < pos_distance pose.
Proof.
  eexists. eexists. split; [reflexivity|]. split; [reflexivity|].
  split; [reflexivity|]. intro H. vm_compute in H. discriminate H.
Qed.

(** ** Inversion of monadic steps *)

Lemma bind_ret_inv (A B : Type) (c : py A) (k : A -> py B) (b : B) :
  bind c k = ret b -> exists a, c = ret a /\ k a = ret b.
Proof.
  destruct c as [e|a]; cbn [bind]; intro H; [discriminate|].
  exists a. split; [reflexivity|exact H].
Qed.

(** Inversion of one [x <- c ;; k] step that returned. *)
Ltac bind_inv H x Hx :=
  apply bind_ret_inv in H; destruct H as [x [Hx H]].

Ltac bind_skip H x :=
  apply bind_ret_inv in H; destruct H as [x [_ H]].

(** ** Series operations *)

Section SeriesFacts.

Lemma label_eqb_eq (a b : label) : label_eqb a b = true <-> a = b.
Proof.
  destruct a as [x y|i], b as [x' y'|i']; cbn [label_eqb];
    rewrite ?andb_true_iff, ?Z.eqb_eq; split; intro H;
    try discriminate; try (destruct H; subst; reflexivity);
    try (inversion H; subst; auto); subst; reflexivity.
Qed.

Lemma label_eqb_refl (a : label) : label_eqb a a = true.
Proof. apply label_eqb_eq. reflexivity. Qed.

Lemma index_equals_eq (a b : list label) : index_equals a b = true <-> a = b.
Proof.
  revert b. induction a as [|x a IH]; intros [|y b]; cbn [index_equals];
    try (split; [discriminate|discriminate]); [split; reflexivity|].
  rewrite andb_true_iff, label_eqb_eq, IH. split.
  - intros [-> ->]. reflexivity.
  - intro H. inversion H. auto.
Qed.

Lemma indexed_same_labels (A B : Type) (a : Series A) (b : Series B) :
  indexed_same a b = true <-> labels a = labels b.
Proof. apply index_equals_eq. Qed.

Lemma loc_In (A : Type) (s : Series A) (l : label) (a : A) :
  loc s l = Some a -> In (l, a) s.
Proof.
  induction s as [|[l' a'] s IH]; cbn [loc]; [discriminate|].
  destruct (label_eqb l' l) eqn:E.
  - intro H. inversion H; subst. apply label_eqb_eq in E. subst. left. reflexivity.
  - intro H. right. apply IH. exact H.
Qed.

Lemma In_loc_unique (A : Type) (s : Series A) (l : label) (a : A) :
  NoDup (labels s) -> In (l, a) s -> loc s l = Some a.
Proof.
  induction s as [|[l' a'] s IH]; intros Hnd Hin; [destruct Hin|].
  cbn [labels map fst] in Hnd. inversion Hnd as [|? ? Hnot Hnd']; subst.
  cbn [loc]. destruct Hin as [Heq|Hin].
  - inversion Heq; subst. rewrite label_eqb_refl. reflexivity.
  - destruct (label_eqb l' l) eqn:E.
    + apply label_eqb_eq in E. subst. exfalso. apply Hnot.
      change (In (fst (l, a)) (map fst s)). apply in_map. exact Hin.
    + apply IH; assumption.
Qed.

Lemma unique_value (A : Type) (s : Series A) (l : label) (a b : A) :
  NoDup (labels s) -> In (l, a) s -> In (l, b) s -> a = b.
Proof.
  intros Hnd Ha Hb.
  pose proof (In_loc_unique _ s l a Hnd Ha) as H1.
  pose proof (In_loc_unique _ s l b Hnd Hb) as H2.
  congruence.
Qed.

Lemma eq_scalar_In (s : Series string) (v : string) (l : label) :
  In (l, true) (eq_scalar s v) -> In (l, v) s.
Proof.
  unfold eq_scalar. intro H. apply in_map_iff in H.
  destruct H as [[l' a] [Heq Hin]]. cbn [fst snd] in Heq.
  inversion Heq as [[Hl Ha]]. subst l'. apply String.eqb_eq in Ha. subst a. exact Hin.
Qed.

Lemma eq_scalar_labels (s : Series string) (v : string) :
  labels (eq_scalar s v) = labels s.
Proof.
  unfold eq_scalar, labels. rewrite map_map. reflexivity.
Qed.

(** Rows of two identically-labelled Series at the same position carry
    the same label. *)
Lemma combine_same_labels (A B : Type) (a : Series A) (b : Series B)
      (la lb : label) (x : A) (y : B) :
  labels a = labels b -> In ((la, x), (lb, y)) (combine a b) -> la = lb.
Proof.
  revert b. induction a as [|[l1 x1] a IH]; intros [|[l2 y1] b] Hl Hin;
    cbn [combine] in Hin; try (destruct Hin; fail).
  destruct Hin as [Hin|Hin].
  - inversion Hin; subst. inversion Hl. reflexivity.
  - inversion Hl. eapply IH; eassumption.
Qed.

Lemma and_series_In (join : list label -> list label -> list label)
      (a b : Series bool) (l : label) :
  In (l, true) (and_series join a b) -> In (l, true) a /\ In (l, true) b.
Proof.
  unfold and_series. destruct (indexed_same a b) eqn:E; intro H.
  - apply indexed_same_labels in E.
    apply in_map_iff in H. destruct H as [[[la x] [lb y]] [Heq Hin]].
    cbn [fst snd] in Heq. inversion Heq as [[Hl Hxy]]. subst la.
    apply andb_true_iff in Hxy. destruct Hxy; subst.
    pose proof (combine_same_labels _ _ a b l lb true true E Hin). subst lb.
    split; [eapply in_combine_l|eapply in_combine_r]; exact Hin.
  - apply in_map_iff in H. destruct H as [l' [Heq _]].
    inversion Heq as [[Hl Hv]]. subst l'.
    destruct (loc a l) as [x|] eqn:Ea; [|discriminate].
    destruct (loc b l) as [y|] eqn:Eb; [|discriminate].
    apply andb_true_iff in Hv. destruct Hv; subst.
    split; apply loc_In; assumption.
Qed.

Lemma comprehension_length (A B : Type) (f : A -> py B) (l : list A) (r : list B) :
  comprehension f l = ret r -> length r = length l.
Proof.
  revert r. induction l as [|a l IH]; intros r H.
  - inversion H. reflexivity.
  - cbn [comprehension] in H.
    bind_skip H b.
    bind_inv H bs Hbs.
    inversion H; subst. cbn [length]. f_equal. apply IH. exact Hbs.
Qed.

Lemma comprehension_nth (A B : Type) (f : A -> py B) (l : list A) (r : list B)
      (p : nat) (a : A) (b : B) :
  comprehension f l = ret r -> nth_error l p = Some a -> nth_error r p = Some b ->
  f a = ret b.
Proof.
  revert r p. induction l as [|a0 l IH]; intros r p H Ha Hb.
  - destruct p; discriminate.
  - cbn [comprehension] in H.
    bind_inv H b0 Hb0.
    bind_inv H bs Hbs.
    inversion H; subst. destruct p as [|p].
    + cbn in Ha, Hb. inversion Ha; inversion Hb; subst. exact Hb0.
    + cbn in Ha, Hb. eapply IH; eassumption.
Qed.

Lemma check_bool_indexer_length (A : Type) (target : Series A) (key : Series bool)
      (k : list bool) :
  check_bool_indexer target key = ret k -> length k = length target.
Proof.
  unfold check_bool_indexer. destruct (indexed_same target key) eqn:E; intro H.
  - inversion H; subst. apply indexed_same_labels in E.
    unfold values. rewrite length_map.
    rewrite <- (length_map fst key). fold (labels key). rewrite <- E.
    unfold labels. rewrite length_map. reflexivity.
  - apply comprehension_length in H. rewrite H. unfold labels.
    rewrite length_map. reflexivity.
Qed.

Lemma nth_error_labels (A : Type) (s : Series A) (p : nat) (l : label) (a : A) :
  nth_error s p = Some (l, a) -> nth_error (labels s) p = Some l.
Proof.
  intro H. unfold labels. rewrite nth_error_map, H. reflexivity.
Qed.

Lemma check_bool_indexer_true (A : Type) (target : Series A) (key : Series bool)
      (k : list bool) (p : nat) (l : label) (a : A) :
  check_bool_indexer target key = ret k ->
  nth_error target p = Some (l, a) -> nth_error k p = Some true ->
  In (l, true) key.
Proof.
  unfold check_bool_indexer. destruct (indexed_same target key) eqn:E; intros H Ht Hk.
  - inversion H; subst. apply indexed_same_labels in E.
    unfold values in Hk. rewrite nth_error_map in Hk.
    destruct (nth_error key p) as [[l' b]|] eqn:Ek; [|discriminate].
    cbn in Hk. inversion Hk; subst.
    apply nth_error_labels in Ht. apply nth_error_labels in Ek as Ek'.
    rewrite E in Ht. rewrite Ht in Ek'. inversion Ek'; subst.
    eapply nth_error_In. exact Ek.
  - apply nth_error_labels in Ht.
    pose proof (comprehension_nth _ _ _ _ _ p l true H Ht Hk) as Hf.
    cbv beta in Hf.
    destruct (loc key l) as [b|] eqn:El; [|discriminate Hf].
    inversion Hf; subst. apply loc_In. exact El.
Qed.

End SeriesFacts.

Section MaskFacts.

Lemma combine_nth_error (A B : Type) (a : list A) (b : list B) (p : nat) (x : A) (y : B) :
  nth_error (combine a b) p = Some (x, y) <->
  nth_error a p = Some x /\ nth_error b p = Some y.
Proof.
  revert b p. induction a as [|a0 a IH]; intros [|b0 b] [|p]; cbn;
    try (split; [discriminate|intros [? ?]; discriminate]).
  - split; [intro H; inversion H; auto|intros [H1 H2]; inversion H1; inversion H2; auto].
  - apply IH.
Qed.

Lemma In_combine_nth (A B : Type) (a : list A) (b : list B) (x : A) (y : B) :
  In (x, y) (combine a b) ->
  exists p, nth_error a p = Some x /\ nth_error b p = Some y.
Proof.
  intro H. apply In_nth_error in H. destruct H as [p Hp].
  exists p. apply combine_nth_error. exact Hp.
Qed.

Lemma map_fst_combine (A B : Type) (a : list A) (b : list B) :
  length b = length a -> map fst (combine a b) = a.
Proof.
  revert b. induction a as [|x a IH]; intros [|y b] H; cbn in *;
    try reflexivity; try discriminate.
  f_equal. apply IH. lia.
Qed.

Lemma setitem_mask_labels (A : Type) (s : Series A) (mask : Series bool) (v : A)
      (r : Series A) :
  setitem_mask s mask v = ret r -> labels r = labels s.
Proof.
  unfold setitem_mask. intro H. bind_inv H key Hkey. inversion H; subst.
  apply check_bool_indexer_length in Hkey.
  unfold labels. rewrite map_map. cbn [fst].
  rewrite <- (map_map fst fst), map_fst_combine by exact Hkey. reflexivity.
Qed.

Lemma setitem_mask_rows (A : Type) (s : Series A) (mask : Series bool) (v : A)
      (r : Series A) (l : label) (a : A) :
  setitem_mask s mask v = ret r -> In (l, a) r ->
  In (l, a) s \/ (a = v /\ In (l, true) mask).
Proof.
  unfold setitem_mask. intros H Hin. bind_inv H key Hkey. inversion H; subst.
  apply in_map_iff in Hin. destruct Hin as [[[l0 a0] b] [Heq Hin]].
  cbn [fst snd] in Heq. inversion Heq; subst. destruct b.
  - right. split; [reflexivity|].
    apply In_combine_nth in Hin. destruct Hin as [p [Hs Hk]].
    eapply check_bool_indexer_true; eassumption.
  - left. eapply in_combine_l. exact Hin.
Qed.

Lemma broadcast2_and_true (a b vs : list bool) (p : nat) :
  Np.broadcast2 andb a b = ret vs -> length vs = length a ->
  nth_error vs p = Some true -> nth_error a p = Some true.
Proof.
  unfold Np.broadcast2. destruct (Nat.eqb (length a) (length b)) eqn:E; intros H Hl Hp.
  - inversion H; subst. rewrite nth_error_map in Hp.
    destruct (nth_error (combine a b) p) as [[x y]|] eqn:Ec; [|discriminate].
    cbn in Hp. inversion Hp as [Hxy]. apply andb_true_iff in Hxy. destruct Hxy; subst.
    apply combine_nth_error in Ec. tauto.
  - apply Nat.eqb_neq in E.
    assert (Hright : forall y, vs = map (fun x => x && y) a -> nth_error a p = Some true).
    { intros y ->. rewrite nth_error_map in Hp.
      destruct (nth_error a p) as [x|]; [|discriminate].
      cbn in Hp. inversion Hp as [Hxy]. apply andb_true_iff in Hxy.
      destruct Hxy; subst. reflexivity. }
    destruct a as [|x [|x' a]]; destruct b as [|y [|y' b]];
      try discriminate H; try (exfalso; apply E; reflexivity);
      try (apply (Hright y); inversion H; reflexivity);
      inversion H; subst; cbn in Hl; try rewrite length_map in Hl; cbn in Hl;
      try discriminate Hl.
Qed.

Lemma and_array_In (mask : Series bool) (arr : list bool) (m : Series bool) (l : label) :
  and_array mask arr = ret m -> In (l, true) m -> In (l, true) mask.
Proof.
  unfold and_array. intros H Hin. bind_inv H vs Hvs.
  destruct (Nat.eqb (length vs) (length mask)) eqn:E; [|discriminate].
  apply Nat.eqb_eq in E. inversion H; subst.
  apply In_combine_nth in Hin. destruct Hin as [p [Hl Hv]].
  assert (Hlen : length vs = length (values mask))
    by (unfold values; rewrite length_map; exact E).
  pose proof (broadcast2_and_true _ _ _ p Hvs Hlen Hv) as Ht.
  unfold labels in Hl. unfold values in Ht. rewrite nth_error_map in Hl, Ht.
  destruct (nth_error mask p) as [[l' b]|] eqn:Em; [|discriminate].
  cbn in Hl, Ht. inversion Hl; inversion Ht; subst.
  eapply nth_error_In. exact Em.
Qed.

End MaskFacts.

(** ** The discrete state transition *)

Section FireStates.

Variable outer_join : list label -> list label -> list label.
Variable gaussian_filter : list (list Q) -> Q -> list (list Q).

Lemma getitem_state_inv (df : DataFrame) (s : Series string) :
  getitem_state df = ret s -> state df = Some s.
Proof.
  unfold getitem_state. destruct (state df); intro H; inversion H; reflexivity.
Qed.

Lemma bracket_states_unique (snapshots : list DataFrame) (T : list Q) (q : Q)
      (sb sa sb' sa' : Series string) :
  bracket_states snapshots T q sb sa -> bracket_states snapshots T q sb' sa' ->
  sb = sb' /\ sa = sa'.
Proof.
  intros [b [a [Hb [Hsb [Ha Hsa]]]]] [b' [a' [Hb' [Hsb' [Ha' Hsa']]]]].
  rewrite Hb in Hb'. rewrite Ha in Ha'. inversion Hb'; inversion Ha'; subst.
  rewrite Hsb in Hsb'. rewrite Hsa in Hsa'. inversion Hsb'; inversion Hsa'; auto.
Qed.

Lemma interpolate_fire_states_inv (snapshots : list DataFrame) (T : list Q) (q : Q)
      (w h : Z) (rng : draws) (r : Series string) :
  _interpolate_fire_states outer_join gaussian_filter snapshots T q w h rng = ret r ->
  exists sb sa, bracket_states snapshots T q sb sa /\ transition_rows sb sa r.
Proof.
  unfold _interpolate_fire_states, bracket_states.
  destruct (surrounding_indices T q) as [i j]. cbn [fst snd].
  destruct (i =? j)%Z eqn:Eij; intro H.
  - apply Z.eqb_eq in Eij. subst j.
    bind_inv H df Hdf.
    apply getitem_state_inv in H.
    exists r, r. split; [exists df, df; auto|].
    split; [reflexivity|]. intros l a Hin. left. exact Hin.
  - bind_inv H dfb Hdfb.
    bind_inv H sb Hsb.
    bind_inv H dfa Hdfa.
    bind_inv H sa Hsa.
    bind_inv H t1 Ht1.
    bind_inv H t2 Ht2.
    apply getitem_state_inv in Hsb. apply getitem_state_inv in Hsa.
    exists sb, sa. split; [exists dfb, dfa; auto|].
    destruct (Qlt_bool 0 (interpolation_factor q t1 t2)).
    + bind_skip H prob.
      bind_skip H ignites.
      bind_inv H tree_mask Htm.
      bind_inv H r1 Hr1.
      bind_inv H burnt_mask Hbm.
      split.
      * rewrite (setitem_mask_labels _ _ _ _ _ H).
        apply (setitem_mask_labels _ _ _ _ _ Hr1).
      * intros l a Hin.
        destruct (setitem_mask_rows _ _ _ _ _ _ _ H Hin) as [Hin1|[Ha Hm]].
        -- destruct (setitem_mask_rows _ _ _ _ _ _ _ Hr1 Hin1) as [Hin0|[Ha Hm]].
           ++ left. exact Hin0.
           ++ right. left. split; [exact Ha|].
              apply (and_array_In _ _ _ _ Htm) in Hm.
              apply and_series_In in Hm. destruct Hm as [Hb Ha'].
              split; apply eq_scalar_In; assumption.
        -- right. right. split; [exact Ha|].
           apply (and_array_In _ _ _ _ Hbm) in Hm.
           apply and_series_In in Hm. destruct Hm as [Hb Ha'].
           split; apply eq_scalar_In; assumption.
    + inversion H; subst. split; [reflexivity|].
      intros l a Hin. left. exact Hin.
Qed.

End FireStates.

(** ** The exporter's state interpolation *)

Section ExporterStates.

Lemma ne_inv (a b : Series string) (m : Series bool) :
  Pandas.ne a b = ret m -> labels a = labels b /\ labels m = labels a.
Proof.
  unfold Pandas.ne. destruct (indexed_same a b) eqn:E; [|discriminate].
  intro H. inversion H; subst. apply indexed_same_labels in E.
  split; [exact E|]. unfold labels. rewrite map_map. cbn [fst].
  rewrite <- (map_map fst fst). apply f_equal. apply map_fst_combine.
  rewrite <- (length_map fst b), <- (length_map fst a).
  fold (labels a) (labels b). rewrite E. reflexivity.
Qed.

Lemma ne_mismatch (a b : Series string) :
  labels a <> labels b -> Pandas.ne a b = raise ValueError.
Proof.
  intro H. unfold Pandas.ne. destruct (indexed_same a b) eqn:E; [|reflexivity].
  apply indexed_same_labels in E. contradiction.
Qed.

Lemma and_scalar_labels (m : Series bool) (flag : bool) :
  labels (and_scalar m flag) = labels m.
Proof. unfold and_scalar, labels. rewrite map_map. reflexivity. Qed.

Lemma check_bool_indexer_same (A : Type) (target : Series A) (key : Series bool) :
  labels target = labels key -> check_bool_indexer target key = ret (values key).
Proof.
  intro H. unfold check_bool_indexer.
  apply indexed_same_labels in H. rewrite H. reflexivity.
Qed.

Lemma getitem_mask_rows (A : Type) (s : Series A) (mask : Series bool) (r : Series A)
      (l : label) (a : A) :
  getitem_mask s mask = ret r -> In (l, a) r -> In (l, a) s.
Proof.
  unfold getitem_mask. intros H Hin. bind_skip H key. inversion H; subst.
  apply in_map_iff in Hin. destruct Hin as [[row b] [Heq Hin]].
  cbn [fst] in Heq. subst row. apply filter_In in Hin. destruct Hin as [Hin _].
  eapply in_combine_l. exact Hin.
Qed.

Lemma setitem_mask_series_labels (A : Type) (s : Series A) (mask : Series bool)
      (other r : Series A) :
  setitem_mask_series s mask other = ret r -> labels r = labels s.
Proof.
  unfold setitem_mask_series. intro H. bind_inv H key Hkey. inversion H; subst.
  apply check_bool_indexer_length in Hkey.
  unfold labels. rewrite map_map. cbn [fst].
  rewrite <- (map_map fst fst), map_fst_combine by exact Hkey. reflexivity.
Qed.

Lemma setitem_mask_series_rows (A : Type) (s : Series A) (mask : Series bool)
      (other r : Series A) (l : label) (a : A) :
  setitem_mask_series s mask other = ret r -> In (l, a) r ->
  In (l, a) s \/ In (l, a) other.
Proof.
  unfold setitem_mask_series. intros H Hin. bind_skip H key. inversion H; subst.
  apply in_map_iff in Hin. destruct Hin as [[[l0 a0] b] [Heq Hin]].
  cbn [fst snd] in Heq. apply in_combine_l in Hin.
  destruct b; [|inversion Heq; subst; left; exact Hin].
  destruct (loc other l0) as [v|] eqn:El; inversion Heq; subst.
  - right. apply loc_In. exact El.
  - left. exact Hin.
Qed.

Lemma interpolate_states_inv (s1 s2 : Series string) (alpha : Q) (r : Series string) :
  _interpolate_states s1 s2 alpha = ret r ->
  labels s1 = labels s2 /\ labels r = labels s1 /\
  forall l a, In (l, a) r -> In (l, a) s1 \/ In (l, a) s2.
Proof.
  unfold _interpolate_states. intro H.
  bind_inv H changed Hne.
  bind_inv H moved Hmoved.
  apply ne_inv in Hne. destruct Hne as [Hl _].
  split; [exact Hl|]. split; [eapply setitem_mask_series_labels; exact H|].
  intros l a Hin.
  destruct (setitem_mask_series_rows _ _ _ _ _ _ _ H Hin) as [H1|H2]; [left; exact H1|].
  right. eapply getitem_mask_rows; eassumption.
Qed.

Lemma interpolate_states_mismatch (s1 s2 : Series string) (alpha : Q) :
  labels s1 <> labels s2 -> _interpolate_states s1 s2 alpha = raise ValueError.
Proof.
  intro H. unfold _interpolate_states. rewrite (ne_mismatch _ _ H). reflexivity.
Qed.

(** Row by row: what [setitem_mask_series] leaves when the selected rows
    of [s1] take their value from [other]. *)
Lemma select_rows (s1 s2 : Series string) (key : list bool) (other : Series string) :
  labels s1 = labels s2 -> length key = length s1 ->
  NoDup (labels other) ->
  (forall l a, In ((l, a), true) (combine s2 key) -> In (l, a) other) ->
  (forall r1 r2, In ((r1, r2), false) (combine (combine s1 s2) key) -> r1 = r2) ->
  map (fun p : (label * string) * bool =>
         (fst (fst p),
          if snd p then match loc other (fst (fst p)) with
                        | Some v => v
                        | None => snd (fst p)
                        end
          else snd (fst p)))
      (combine s1 key) = s2.
Proof.
  intros Hl Hk Hnd. revert s2 key Hl Hk.
  induction s1 as [|[l1 a1] s1 IH]; intros [|[l2 a2] s2] [|b key] Hl Hk Hsel Hkeep;
    try discriminate; [reflexivity|].
  cbn [labels map fst] in Hl. inversion Hl as [[Hl1 Hl2]]. subst l2.
  cbn [combine map fst snd]. f_equal.
  - destruct b.
    + rewrite (In_loc_unique _ other l1 a2 Hnd); [reflexivity|].
      apply Hsel. left. reflexivity.
    + apply (Hkeep (l1, a1) (l1, a2)). left. reflexivity.
  - apply IH.
    + exact Hl2.
    + cbn in Hk. lia.
    + intros l a Hin. apply Hsel. right. exact Hin.
    + intros r1 r2 Hin. apply Hkeep. right. exact Hin.
Qed.

Lemma NoDup_map_filter (A B : Type) (f : A -> B) (P : A -> bool) (l : list A) :
  NoDup (map f l) -> NoDup (map f (filter P l)).
Proof.
  induction l as [|x l IH]; cbn; intro H; [constructor|].
  inversion H as [|? ? Hnot Hnd]; subst.
  destruct (P x); cbn; [constructor|]; auto.
  intro Hin. apply Hnot. apply in_map_iff in Hin.
  destruct Hin as [y [Hy Hin]]. apply filter_In in Hin.
  apply in_map_iff. exists y. tauto.
Qed.

Lemma ne_rows (s1 s2 : Series string) (flag : bool) (r1 r2 : label * string) :
  labels s1 = labels s2 ->
  In ((r1, r2), false)
     (combine (combine s1 s2)
              (map (fun p : (label * string) * (label * string) =>
                      negb (String.eqb (snd (fst p)) (snd (snd p))) && flag)
                   (combine s1 s2))) ->
  flag = true -> r1 = r2.
Proof.
  intros Hl Hin ->. apply In_combine_nth in Hin. destruct Hin as [p [Hp Hb]].
  rewrite nth_error_map, Hp in Hb. cbn in Hb. inversion Hb as [Hv].
  rewrite andb_true_r in Hv. apply negb_false_iff, String.eqb_eq in Hv.
  apply nth_error_In in Hp. destruct r1 as [l1 a1], r2 as [l2 a2]. cbn in Hv. subst a2.
  rewrite (combine_same_labels _ _ s1 s2 l1 l2 a1 a1 Hl Hp). reflexivity.
Qed.

End ExporterStates.

Section ExporterThreshold.

Lemma ne_same (s1 s2 : Series string) :
  labels s1 = labels s2 -> Pandas.ne s1 s2 = ret (changed_rows s1 s2).
Proof.
  intro H. unfold Pandas.ne. apply indexed_same_labels in H. rewrite H. reflexivity.
Qed.

Lemma same_labels_length (A B : Type) (a : Series A) (b : Series B) :
  labels a = labels b -> length a = length b.
Proof.
  intro H. rewrite <- (length_map fst a), <- (length_map fst b).
  fold (labels a) (labels b). rewrite H. reflexivity.
Qed.

Lemma changed_rows_labels (s1 s2 : Series string) :
  labels s1 = labels s2 -> labels (changed_rows s1 s2) = labels s1.
Proof.
  intro H. unfold changed_rows, labels. rewrite map_map. cbn [fst].
  rewrite <- (map_map fst fst). apply f_equal. apply map_fst_combine.
  symmetry. apply same_labels_length. exact H.
Qed.

Lemma selected_values (s1 s2 : Series string) (flag : bool) :
  values (and_scalar (changed_rows s1 s2) flag) =
  map (fun p : (label * string) * (label * string) =>
         negb (String.eqb (snd (fst p)) (snd (snd p))) && flag)
      (combine s1 s2).
Proof.
  unfold values, and_scalar, changed_rows. rewrite !map_map. reflexivity.
Qed.

Lemma interpolate_states_unfold (s1 s2 : Series string) (alpha : Q) :
  labels s1 = labels s2 ->
  let key := values (and_scalar (changed_rows s1 s2) (Qlt_bool (1 # 2) alpha)) in
  let moved := map fst (filter (fun p : (label * string) * bool => snd p)
                               (combine s2 key)) in
  _interpolate_states s1 s2 alpha =
    ret (map (fun p : (label * string) * bool =>
                (fst (fst p),
                 if snd p then match loc moved (fst (fst p)) with
                               | Some v => v
                               | None => snd (fst p)
                               end
                 else snd (fst p)))
             (combine s1 key)).
Proof.
  intros Hl key moved. unfold _interpolate_states.
  rewrite (ne_same _ _ Hl). cbn [bind ret].
  assert (Hsel : labels (and_scalar (changed_rows s1 s2) (Qlt_bool (1 # 2) alpha))
                 = labels s1).
  { rewrite and_scalar_labels. apply changed_rows_labels. exact Hl. }
  unfold getitem_mask.
  rewrite (check_bool_indexer_same _ s2) by (rewrite Hsel; symmetry; exact Hl).
  cbn [bind ret]. unfold setitem_mask_series.
  rewrite (check_bool_indexer_same _ s1) by (symmetry; exact Hsel).
  reflexivity.
Qed.

Lemma key_length (s1 s2 : Series string) (flag : bool) :
  labels s1 = labels s2 ->
  length (values (and_scalar (changed_rows s1 s2) flag)) = length s1.
Proof.
  intro Hl. rewrite selected_values, length_map, length_combine.
  rewrite <- (same_labels_length _ _ s1 s2 Hl). apply Nat.min_id.
Qed.

Lemma keep_rows (s other : Series string) (key : list bool) :
  (forall b, In b key -> b = false) -> length key = length s ->
  map (fun p : (label * string) * bool =>
         (fst (fst p),
          if snd p then match loc other (fst (fst p)) with
                        | Some v => v
                        | None => snd (fst p)
                        end
          else snd (fst p)))
      (combine s key) = s.
Proof.
  revert key. induction s as [|[l a] s IH]; intros [|b key] Hall Hlen;
    try discriminate; [reflexivity|].
  cbn [combine map fst snd].
  rewrite (Hall b (or_introl eq_refl)). f_equal.
  apply IH; [intros b' Hb'; apply Hall; right; exact Hb'|cbn in Hlen; lia].
Qed.

(** At or below the threshold nothing moves. *)
Lemma interpolate_states_low (s1 s2 : Series string) (alpha : Q) :
  labels s1 = labels s2 -> alpha <= 1 # 2 ->
  _interpolate_states s1 s2 alpha = ret s1.
Proof.
  intros Hl Ha. rewrite (interpolate_states_unfold _ _ _ Hl). cbv zeta.
  apply f_equal.
  assert (E : Qlt_bool (1 # 2) alpha = false) by (apply Qlt_bool_false_iff; exact Ha).
  rewrite E.
  apply keep_rows.
  - intros b Hb. rewrite selected_values in Hb. apply in_map_iff in Hb.
    destruct Hb as [p [Hp _]]. rewrite andb_false_r in Hp. congruence.
  - apply key_length. exact Hl.
Qed.

(** Above the threshold every changed cell has moved. *)
Lemma interpolate_states_high (s1 s2 : Series string) (alpha : Q) :
  labels s1 = labels s2 -> NoDup (labels s2) -> 1 # 2 < alpha ->
  _interpolate_states s1 s2 alpha = ret s2.
Proof.
  intros Hl Hnd Ha. rewrite (interpolate_states_unfold _ _ _ Hl). cbv zeta.
  apply f_equal.
  assert (E : Qlt_bool (1 # 2) alpha = true) by (apply Qlt_bool_iff; exact Ha).
  rewrite E.
  assert (Hk2 : length (values (and_scalar (changed_rows s1 s2) true)) = length s2).
  { rewrite key_length by exact Hl. apply same_labels_length. exact Hl. }
  apply select_rows.
  - exact Hl.
  - apply key_length. exact Hl.
  - unfold labels. rewrite map_map.
    apply (NoDup_map_filter _ _ (fun p : (label * string) * bool => fst (fst p))).
    rewrite <- (map_map fst fst), map_fst_combine by exact Hk2. exact Hnd.
  - intros l a Hin. apply in_map_iff. exists ((l, a), true). split; [reflexivity|].
    apply filter_In. split; [exact Hin|reflexivity].
  - intros r1 r2 Hin. rewrite selected_values in Hin.
    apply (ne_rows s1 s2 true r1 r2 Hl Hin eq_refl).
Qed.

End ExporterThreshold.

(** ** Continuous columns *)

Section ContinuousColumns.

Lemma column_set_column_same (cols : list (string * Series float)) (n : string)
      (s : Series float) :
  column (set_column cols n s) n = Some s.
Proof.
  induction cols as [|[m c] cols IH]; cbn [set_column column].
  - rewrite String.eqb_refl. reflexivity.
  - destruct (String.eqb m n) eqn:E; cbn [column]; rewrite E; [reflexivity|exact IH].
Qed.

Lemma column_set_column_other (cols : list (string * Series float)) (n n' : string)
      (s : Series float) :
  n <> n' -> column (set_column cols n s) n' = column cols n'.
Proof.
  intro Hne. induction cols as [|[m c] cols IH]; cbn [set_column column].
  - destruct (String.eqb n n') eqn:E; [apply String.eqb_eq in E; contradiction|reflexivity].
  - destruct (String.eqb m n) eqn:E; cbn [column].
    + apply String.eqb_eq in E. subst m.
      destruct (String.eqb n n') eqn:E'; [apply String.eqb_eq in E'; contradiction|].
      reflexivity.
    + destruct (String.eqb m n'); [reflexivity|exact IH].
Qed.

Lemma fold_blend_other (s1 s2 : DataFrame) (alpha : Q) (names : list string)
      (df : DataFrame) (col : string) :
  ~ In col names ->
  column (columns (fold_left (blend_step s1 s2 alpha) names df)) col
  = column (columns df) col.
Proof.
  revert df. induction names as [|n names IH]; intros df Hnot; [reflexivity|].
  cbn [fold_left]. rewrite IH by (intro H; apply Hnot; right; exact H).
  unfold blend_step.
  destruct (column (columns s1) n), (column (columns s2) n); try reflexivity.
  cbn [columns]. apply column_set_column_other.
  intro E. apply Hnot. left. exact E.
Qed.

Lemma fold_blend_column (s1 s2 : DataFrame) (alpha : Q) (names : list string)
      (df : DataFrame) (col : string) (c1 c2 : Series float) :
  NoDup names -> In col names ->
  column (columns s1) col = Some c1 -> column (columns s2) col = Some c2 ->
  column (columns (fold_left (blend_step s1 s2 alpha) names df)) col
  = Some (blend_column alpha c1 c2).
Proof.
  revert df. induction names as [|n names IH]; intros df Hnd Hin H1 H2; [destruct Hin|].
  inversion Hnd as [|? ? Hnot Hnd']; subst. cbn [fold_left].
  destruct Hin as [->|Hin].
  - rewrite fold_blend_other by exact Hnot.
    unfold blend_step. rewrite H1, H2. cbn [columns]. apply column_set_column_same.
  - apply IH; assumption.
Qed.

Lemma continuous_cols_NoDup : NoDup continuous_cols.
Proof.
  unfold continuous_cols. repeat constructor; cbn; intuition discriminate.
Qed.

Lemma blend_rows (alpha : Q) (c1 c2 : Series float) (pick_second : bool) :
  labels c1 = labels c2 -> finite_column c1 -> finite_column c2 ->
  alpha == (if pick_second then 1 else 0) ->
  same_column (blend_column alpha c1 c2) (if pick_second then c2 else c1).
Proof.
  intros Hl H1 H2 Ha. unfold blend_column.
  apply indexed_same_labels in Hl as E. rewrite E. clear E.
  revert c2 Hl H2. induction c1 as [|[l1 v1] c1 IH]; intros [|[l2 v2] c2] Hl H2;
    try discriminate.
  - destruct pick_second; constructor.
  - cbn [labels map fst] in Hl. inversion Hl as [[Hl1 Hl2]]. subst l2.
    inversion H1 as [|? ? Hv1 H1']; subst. inversion H2 as [|? ? Hv2 H2']; subst.
    cbn [snd] in Hv1, Hv2.
    destruct v1 as [x|]; [|contradiction]. destruct v2 as [y|]; [|contradiction].
    specialize (IH H1' c2 Hl2 H2').
    cbn [combine map fst snd fblend].
    destruct pick_second; constructor; try exact IH; cbn [fst snd float_eq];
      (split; [reflexivity|rewrite Ha; ring]).
Qed.

End ContinuousColumns.

(** ** Queries at an exact timestamp *)

Section ExactTimestamp.

Lemma getitem_nat (A : Type) (l : list A) (n : nat) (a : A) :
  getitem l (Z.of_nat n) = ret a <-> nth_error l n = Some a.
Proof.
  unfold getitem.
  assert (E : (Z.of_nat n <? 0)%Z = false) by (apply Z.ltb_ge; lia).
  rewrite E, E, Nat2Z.id.
  destruct (nth_error l n); split; intro H; inversion H; reflexivity.
Qed.

Lemma strictly_increasing_nth (T : list Q) (a b : nat) (x y : Q) :
  StronglySorted Qlt T -> (a < b)%nat ->
  nth_error T a = Some x -> nth_error T b = Some y -> x < y.
Proof.
  intro Hs. revert a b. induction Hs as [|t T Hs IH Hall]; intros a b Hab Ha Hb.
  - destruct a; discriminate.
  - destruct b as [|b]; [lia|]. cbn in Hb. destruct a as [|a].
    + cbn in Ha. inversion Ha; subst.
      rewrite Forall_forall in Hall. apply Hall. eapply nth_error_In. exact Hb.
    + cbn in Ha. apply (IH a b); [lia|assumption|assumption].
Qed.

Lemma exact_bracket_times (T : list Q) (k : nat) (q tk ti tj : Q) :
  StronglySorted Qlt T -> nth_error T k = Some tk -> q == tk ->
  getitem T (Z.max (Z.of_nat k - 1) 0) = ret ti ->
  getitem T (Z.max (Z.of_nat k) 1) = ret tj ->
  ti < tj /\ (if Nat.eqb k 0 then q == ti else q == tj).
Proof.
  intros Hs Hk Hq Hi Hj. destruct k as [|k].
  - replace (Z.max (Z.of_nat 0 - 1) 0) with (Z.of_nat 0) in Hi by lia.
    replace (Z.max (Z.of_nat 0) 1) with (Z.of_nat 1) in Hj by lia.
    apply getitem_nat in Hi. apply getitem_nat in Hj.
    rewrite Hk in Hi. inversion Hi; subst ti. cbn [Nat.eqb].
    split; [|exact Hq].
    apply (strictly_increasing_nth T 0 1 tk tj Hs); [lia|assumption|assumption].
  - replace (Z.max (Z.of_nat (S k) - 1) 0) with (Z.of_nat k) in Hi by lia.
    replace (Z.max (Z.of_nat (S k)) 1) with (Z.of_nat (S k)) in Hj by lia.
    apply getitem_nat in Hi. apply getitem_nat in Hj.
    rewrite Hk in Hj. inversion Hj; subst tj. cbn [Nat.eqb].
    split; [|exact Hq].
    apply (strictly_increasing_nth T k (S k) ti tk Hs); [lia|assumption|assumption].
Qed.

Lemma exact_factor (k : nat) (q ti tj : Q) :
  ti < tj -> (if Nat.eqb k 0 then q == ti else q == tj) ->
  interpolation_factor q ti tj == (if Nat.eqb k 0 then 0 else 1).
Proof.
  intros Hlt Hq. assert (Hne : ~ ti == tj) by lra.
  rewrite (interpolation_factor_distinct q _ _ Hne).
  destruct (Nat.eqb k 0).
  - rewrite Hq. field. lra.
  - rewrite Hq. field. lra.
Qed.

Lemma fire_states_nonpositive (outer_join : list label -> list label -> list label)
      (gaussian_filter : list (list Q) -> Q -> list (list Q))
      (snapshots : list DataFrame) (T : list Q) (q : Q) (width height : Z) (rng : draws)
      (states_i states_j : Series string) (t1 t2 : Q) :
  bracket_states snapshots T q states_i states_j ->
  fst (surrounding_indices T q) <> snd (surrounding_indices T q) ->
  getitem T (fst (surrounding_indices T q)) = ret t1 ->
  getitem T (snd (surrounding_indices T q)) = ret t2 ->
  interpolation_factor q t1 t2 <= 0 ->
  _interpolate_fire_states outer_join gaussian_filter snapshots T q width height rng
  = ret states_i.
Proof.
  intros [dfb [dfa [Hb [Hsb [Ha Hsa]]]]] Hij Ht1 Ht2 Hal.
  unfold _interpolate_fire_states.
  destruct (surrounding_indices T q) as [i j]. cbn [fst snd] in *.
  apply Z.eqb_neq in Hij. rewrite Hij, Hb. cbn [bind ret].
  unfold getitem_state. rewrite Hsb, Ha. cbn [bind ret].
  rewrite Hsa, Ht1. cbn [bind ret]. rewrite Ht2. cbn [bind ret].
  apply Qlt_bool_false_iff in Hal. rewrite Hal. reflexivity.
Qed.

(** C1, as amended: for a strictly increasing sequence of [N >= 2]
    timestamps and a query equal to [T[k]] the resampler returns the
    bracket [(0, 1)] when [k = 0] and [(k-1, k)] otherwise, never
    [(k, k)]; the blend factor is then exactly [0], respectively [1],
    and the exporter's interpolation, which draws no random numbers,
    returns a frame whose state column is that of [S_k] and whose
    continuous columns (those present in both snapshots, without [NaN])
    hold the numbers of [S_k].  More generally, at a blend factor of [0]
    both interpolators return the states of [S_i] unchanged, whatever the
    draws, and at a blend factor of [1] the exporter returns the states
    of [S_j]. *)
Theorem exact_timestamp_query (T : list Q) (k : nat) (q tk : Q) :
  StronglySorted Qlt T -> (2 <= length T)%nat ->
  nth_error T k = Some tk -> q == tk ->
  let i := Z.max (Z.of_nat k - 1) 0 in
  let j := Z.max (Z.of_nat k) 1 in
  _find_snapshot_indices q T = ret (i, j) /\ i <> j /\
  (forall ti tj, getitem T i = ret ti -> getitem T j = ret tj ->
     interpolation_factor q ti tj == (if Nat.eqb k 0 then 0 else 1)) /\
  (forall snapshots ti tj snapshot_i snapshot_j states_i states_j,
      getitem T i = ret ti -> getitem T j = ret tj ->
      dict_get snapshots ti = ret snapshot_i -> dict_get snapshots tj = ret snapshot_j ->
      state snapshot_i = Some states_i -> state snapshot_j = Some states_j ->
      labels states_i = labels states_j -> NoDup (labels states_j) ->
      exists frame,
        _interpolate_snapshot q T snapshots (i, j) = ret frame /\
        state frame = Some (if Nat.eqb k 0 then states_i else states_j) /\
        forall col c_i c_j,
          In col continuous_cols ->
          column (columns snapshot_i) col = Some c_i ->
          column (columns snapshot_j) col = Some c_j ->
          labels c_i = labels c_j -> finite_column c_i -> finite_column c_j ->
          exists c, column (columns frame) col = Some c /\
                    same_column c (if Nat.eqb k 0 then c_i else c_j)) /\
  (k = 0%nat ->
   forall outer_join gaussian_filter snapshots width height rng states_0 states_1,
     bracket_states snapshots T q states_0 states_1 ->
     _interpolate_fire_states outer_join gaussian_filter snapshots T q width height rng
     = ret states_0) /\
  (forall states_i states_j alpha,
      labels states_i = labels states_j -> NoDup (labels states_j) ->
      (alpha == 0 -> _interpolate_states states_i states_j alpha = ret states_i) /\
      (alpha == 1 -> _interpolate_states states_i states_j alpha = ret states_j)) /\
  (forall outer_join gaussian_filter snapshots T' q' width height rng
          states_i states_j t1 t2,
      bracket_states snapshots T' q' states_i states_j ->
      fst (surrounding_indices T' q') <> snd (surrounding_indices T' q') ->
      getitem T' (fst (surrounding_indices T' q')) = ret t1 ->
      getitem T' (snd (surrounding_indices T' q')) = ret t2 ->
      interpolation_factor q' t1 t2 == 0 ->
      _interpolate_fire_states outer_join gaussian_filter snapshots T' q' width height rng
      = ret states_i).
Proof.
  intros Hs Hn Hk Hq i j.
  assert (Hfb : first_bracket q T 0 = Some (i, j)).
  { rewrite (first_bracket_exact T 0 k q tk Hs Hn Hk Hq). reflexivity. }
  assert (Hij : i <> j) by (subst i j; lia).
  split; [unfold _find_snapshot_indices; rewrite Hfb; reflexivity|].
  split; [exact Hij|]. split; [|split; [|split; [|split]]].
  - intros ti tj Hi Hj.
    destruct (exact_bracket_times T k q tk ti tj Hs Hk Hq Hi Hj) as [Hlt Hex].
    apply exact_factor; assumption.
  - intros snapshots ti tj dfi dfj si sj Hi Hj Hdi Hdj Hsi Hsj Hl Hnd.
    destruct (exact_bracket_times T k q tk ti tj Hs Hk Hq Hi Hj) as [Hlt Hex].
    pose proof (exact_factor k q ti tj Hlt Hex) as Hal.
    unfold _interpolate_snapshot.
    apply Z.eqb_neq in Hij. rewrite Hij, Hi, Hj. cbn [bind ret].
    rewrite Hdi, Hdj. cbn [bind ret]. rewrite Hsi.
    unfold getitem_state. rewrite Hsj. cbn [bind ret].
    assert (Hcols : forall (pick : bool) col c_i c_j,
               interpolation_factor q ti tj == (if pick then 1 else 0) ->
               In col continuous_cols ->
               column (columns dfi) col = Some c_i -> column (columns dfj) col = Some c_j ->
               labels c_i = labels c_j -> finite_column c_i -> finite_column c_j ->
               exists c,
                 column (columns (fold_left (blend_step dfi dfj (interpolation_factor q ti tj))
                                            continuous_cols dfi)) col = Some c /\
                 same_column c (if pick then c_j else c_i)).
    { intros pick col c_i c_j Hpick Hin Hci Hcj Hlc Hfi Hfj.
      exists (blend_column (interpolation_factor q ti tj) c_i c_j). split.
      - apply fold_blend_column; [exact continuous_cols_NoDup|assumption..].
      - apply blend_rows; assumption. }
    destruct (Nat.eqb k 0).
    + rewrite interpolate_states_low by (try exact Hl; lra).
      cbn [bind ret]. eexists. split; [reflexivity|]. split; [reflexivity|].
      cbn [columns]. intros col c_i c_j. apply (Hcols false). exact Hal.
    + rewrite interpolate_states_high by (try exact Hl; try exact Hnd; lra).
      cbn [bind ret]. eexists. split; [reflexivity|]. split; [reflexivity|].
      cbn [columns]. intros col c_i c_j. apply (Hcols true). exact Hal.
  - intros Hk0 join gf snapshots w h rng s0 s1 Hbr. subst k.
    assert (Hsi : surrounding_indices T q = (i, j))
      by (unfold surrounding_indices; rewrite Hfb; reflexivity).
    destruct (getitem T i) as [e|ti] eqn:Hi.
    { exfalso. subst i. change (Z.max (Z.of_nat 0 - 1) 0) with (Z.of_nat 0) in Hi.
      destruct T; [simpl in Hn; lia|discriminate Hi]. }
    destruct (getitem T j) as [e|tj] eqn:Hj.
    { exfalso. subst j. change (Z.max (Z.of_nat 0) 1) with (Z.of_nat 1) in Hj.
      destruct T as [|? [|? ?]]; [simpl in Hn; lia|simpl in Hn; lia|discriminate Hj]. }
    destruct (exact_bracket_times T 0 q tk ti tj Hs Hk Hq Hi Hj) as [Hlt Hex].
    pose proof (exact_factor 0 q ti tj Hlt Hex) as Hal. cbn [Nat.eqb] in Hal.
    apply (fire_states_nonpositive join gf snapshots T q w h rng s0 s1 ti tj Hbr);
      rewrite ?Hsi; cbn [fst snd]; try assumption. lra.
  - intros s1 s2 alpha Hl Hnd. split; intro Hal.
    + apply interpolate_states_low; [exact Hl|lra].
    + apply interpolate_states_high; [exact Hl|exact Hnd|lra].
  - intros join gf snapshots T' q' w h rng sb sa t1 t2 Hbr Hne Ht1 Ht2 Hal.
    apply (fire_states_nonpositive join gf snapshots T' q' w h rng sb sa t1 t2);
      try assumption. lra.
Qed.

End ExactTimestamp.

Section ExactTimestampExamples.

Lemma exact_timestamp_query_witness :
  StronglySorted Qlt [0; 1; 2] /\ (2 <= length [0; 1; 2])%nat /\
  nth_error [0; 1; 2] 1 = Some 1 /\ 1 == 1 /\
  _find_snapshot_indices 1 [0; 1; 2] = ret (0, 1)%Z.
Proof.
  assert (Hs : StronglySorted Qlt [0; 1; 2]).
  { repeat constructor; unfold Qlt; simpl; lia. }
  assert (Hn : (2 <= length [0; 1; 2])%nat) by (simpl; lia).
  assert (Hq : 1 == 1) by reflexivity.
  split; [exact Hs|]. split; [exact Hn|]. split; [reflexivity|]. split; [exact Hq|].
  exact (proj1 (exact_timestamp_query [0; 1; 2] 1 1 1 Hs Hn eq_refl Hq)).
Defined.

(** C1 as stated fails.  The query [q = T[1]] of the increasing sequence
    [[0, 1]] is bracketed as [(0, 1)], not [(1, 1)]; and with the blend
    factor [1] the frame interpolator still runs its stochastic step: for
    a tree cell that burns in [S_1], any smoothing filter that maps the
    empty fire map to itself and the draws [fixed_draws] leave the cell
    a tree, so the frame differs from [S_1]. *)
Lemma exact_timestamp_counterexample :
  StronglySorted Qlt [0; 1] /\ nth_error [0; 1] 1 = Some 1 /\
  _find_snapshot_indices 1 [0; 1] = ret (0, 1)%Z /\
  _find_snapshot_indices 1 [0; 1] <> ret (1, 1)%Z /\
  interpolation_factor 1 0 1 == 1 /\
  (forall outer_join gaussian_filter,
      gaussian_filter [[0]] (3 # 2) = [[0]] ->
      _interpolate_fire_states outer_join gaussian_filter [lone_tree; fire_out]
                               [0; 1] 1 1 1 fixed_draws
      = ret [(Tuple 0 0, "Tree"%string)]) /\
  state fire_out <> Some [(Tuple 0 0, "Tree"%string)].
Proof.
  split; [repeat constructor; unfold Qlt; simpl; lia|].
  split; [reflexivity|]. split; [reflexivity|].
  split; [vm_compute; discriminate|]. split; [reflexivity|].
  split; [|cbn; discriminate].
  intros join gf Hgf.
  vm_compute. rewrite Hgf. reflexivity.
Qed.

End ExactTimestampExamples.

(** ** Invariants of the interpolated states *)

Section StateInvariants.

Lemma In_labels (A : Type) (s : Series A) (l : label) :
  In l (labels s) <-> exists a, In (l, a) s.
Proof.
  unfold labels. rewrite in_map_iff. split.
  - intros [[l' a] [Hl Hin]]. cbn in Hl. subst. exists a. exact Hin.
  - intros [a Hin]. exists (l, a). split; [reflexivity|exact Hin].
Qed.

(** C10: whatever the blend factor and the draws, every row of a state
    column returned by the field interpolator carries the state its
    cell has in [S_i] or the state it has in [S_j]; this holds for the
    stochastic transition of the frame interpolator and for the
    threshold transition of the exporter. *)
Theorem interpolated_state_from_bracket :
  (forall outer_join gaussian_filter snapshots T q width height rng r states_i states_j,
      _interpolate_fire_states outer_join gaussian_filter snapshots T q width height rng
      = ret r ->
      bracket_states snapshots T q states_i states_j ->
      forall l a, In (l, a) r -> In (l, a) states_i \/ In (l, a) states_j) /\
  (forall states_i states_j alpha r,
      _interpolate_states states_i states_j alpha = ret r ->
      forall l a, In (l, a) r -> In (l, a) states_i \/ In (l, a) states_j).
Proof.
  split.
  - intros join gf snapshots T q w h rng r sb sa Hr Hbr l a Hin.
    destruct (interpolate_fire_states_inv join gf _ _ _ _ _ _ _ Hr)
      as [sb' [sa' [Hbr' [_ Hrows]]]].
    destruct (bracket_states_unique _ _ _ _ _ _ _ Hbr Hbr') as [-> ->].
    destruct (Hrows l a Hin) as [H|[[-> [_ H]]|[-> [_ H]]]]; auto.
  - intros s1 s2 alpha r Hr l a Hin.
    destruct (interpolate_states_inv _ _ _ _ Hr) as [_ [_ Hrows]]. auto.
Qed.

(** C9: a cell whose state is the same in [S_i] and [S_j] has exactly
    that state in the returned column, for every blend factor and all
    draws (cell coordinates being unique within a snapshot). *)
Theorem unchanged_cells_keep_state :
  (forall outer_join gaussian_filter snapshots T q width height rng r states_i states_j l v,
      _interpolate_fire_states outer_join gaussian_filter snapshots T q width height rng
      = ret r ->
      bracket_states snapshots T q states_i states_j ->
      NoDup (labels states_i) -> NoDup (labels states_j) ->
      In (l, v) states_i -> In (l, v) states_j ->
      In (l, v) r /\ forall a, In (l, a) r -> a = v) /\
  (forall states_i states_j alpha r l v,
      _interpolate_states states_i states_j alpha = ret r ->
      NoDup (labels states_i) -> NoDup (labels states_j) ->
      In (l, v) states_i -> In (l, v) states_j ->
      In (l, v) r /\ forall a, In (l, a) r -> a = v).
Proof.
  split.
  - intros join gf snapshots T q w h rng r sb sa l v Hr Hbr Hni Hnj Hi Hj.
    destruct (interpolate_fire_states_inv join gf _ _ _ _ _ _ _ Hr)
      as [sb' [sa' [Hbr' [Hlab Hrows]]]].
    destruct (bracket_states_unique _ _ _ _ _ _ _ Hbr Hbr') as [-> ->].
    assert (Hall : forall a, In (l, a) r -> a = v).
    { intros a Hin. destruct (Hrows l a Hin) as [H|[[-> [Hb Ha]]|[-> [Hb Ha]]]].
      - apply (unique_value _ sb' l a v Hni H Hi).
      - pose proof (unique_value _ sb' l _ _ Hni Hb Hi).
        pose proof (unique_value _ sa' l _ _ Hnj Ha Hj). congruence.
      - pose proof (unique_value _ sb' l _ _ Hni Hb Hi).
        pose proof (unique_value _ sa' l _ _ Hnj Ha Hj). congruence. }
    split; [|exact Hall].
    assert (Hl : In l (labels r)).
    { rewrite Hlab. apply In_labels. exists v. exact Hi. }
    apply In_labels in Hl. destruct Hl as [a Ha].
    rewrite <- (Hall a Ha). exact Ha.
  - intros s1 s2 alpha r l v Hr Hni Hnj Hi Hj.
    destruct (interpolate_states_inv _ _ _ _ Hr) as [_ [Hlab Hrows]].
    assert (Hall : forall a, In (l, a) r -> a = v).
    { intros a Hin. destruct (Hrows l a Hin) as [H|H].
      - apply (unique_value _ s1 l a v Hni H Hi).
      - apply (unique_value _ s2 l a v Hnj H Hj). }
    split; [|exact Hall].
    assert (Hl : In l (labels r)).
    { rewrite Hlab. apply In_labels. exists v. exact Hi. }
    apply In_labels in Hl. destruct Hl as [a Ha].
    rewrite <- (Hall a Ha). exact Ha.
Qed.

End StateInvariants.

Section StateInvariantExamples.

Lemma front_bracket :
  bracket_states [front_before; front_after] [0; 1] (1 # 2) front_before_states front_after_states.
Proof.
  exists front_before, front_after. repeat split.
Qed.

Lemma interpolated_state_from_bracket_witness :
  _interpolate_fire_states append_join mean_filter [front_before; front_after]
                           [0; 1] (1 # 2) 2 1 fixed_draws
  = ret [(Tuple 0 0, "Burnt"%string); (Tuple 1 0, "Burning"%string)] /\
  forall l a, In (l, a) [(Tuple 0 0, "Burnt"%string); (Tuple 1 0, "Burning"%string)] ->
              In (l, a) front_before_states \/ In (l, a) front_after_states.
Proof.
  split; [reflexivity|].
  exact (proj1 interpolated_state_from_bracket append_join mean_filter
               [front_before; front_after] [0; 1] (1 # 2) 2%Z 1%Z fixed_draws
               _ front_before_states front_after_states eq_refl front_bracket).
Defined.

End StateInvariantExamples.

Section UnchangedExamples.

Lemma unchanged_cells_keep_state_witness :
  NoDup (labels row_before_states) /\ NoDup (labels row_after_states) /\
  In (Tuple 2 0, "Tree"%string) row_before_states /\ In (Tuple 2 0, "Tree"%string) row_after_states /\
  exists r,
    _interpolate_fire_states append_join mean_filter
                             [mkDataFrame (Some row_before_states) []; mkDataFrame (Some row_after_states) []]
                             [0; 1] (1 # 2) 3 1 fixed_draws = ret r /\
    In (Tuple 2 0, "Tree"%string) r.
Proof.
  assert (Hb : NoDup (labels row_before_states)).
  { repeat constructor; cbn; intuition discriminate. }
  assert (Ha : NoDup (labels row_after_states)).
  { repeat constructor; cbn; intuition discriminate. }
  assert (Hib : In (Tuple 2 0, "Tree"%string) row_before_states) by (cbn; auto).
  assert (Hia : In (Tuple 2 0, "Tree"%string) row_after_states) by (cbn; auto).
  split; [exact Hb|]. split; [exact Ha|]. split; [exact Hib|]. split; [exact Hia|].
  eexists. split; [reflexivity|].
  refine (proj1 (proj1 unchanged_cells_keep_state append_join mean_filter
                  [mkDataFrame (Some row_before_states) []; mkDataFrame (Some row_after_states) []]
                  [0; 1] (1 # 2) 3%Z 1%Z fixed_draws _ row_before_states row_after_states
                  (Tuple 2 0) "Tree"%string eq_refl _ Hb Ha Hib Hia)).
  exists (mkDataFrame (Some row_before_states) []), (mkDataFrame (Some row_after_states) []).
  repeat split.
Defined.

End UnchangedExamples.

(** ** Cells present in only one bracket snapshot *)

Section Coverage.

Lemma interpolate_states_total (s1 s2 : Series string) (alpha : Q) :
  labels s1 = labels s2 ->
  exists r, _interpolate_states s1 s2 alpha = ret r /\ labels r = labels s1.
Proof.
  intro Hl. rewrite (interpolate_states_unfold _ _ _ Hl). cbv zeta.
  eexists. split; [reflexivity|].
  unfold labels. rewrite map_map. cbn [fst].
  rewrite <- (map_map fst fst), map_fst_combine; [reflexivity|].
  apply key_length. exact Hl.
Qed.

Lemma interpolate_snapshot_cells (q : Q) (T : list Q) (snapshots : list (Q * DataFrame))
      (i j : Z) (t1 t2 : Q) (snapshot_i snapshot_j frame : DataFrame)
      (states_i states_j : Series string) :
  i <> j ->
  getitem T i = ret t1 -> getitem T j = ret t2 ->
  dict_get snapshots t1 = ret snapshot_i -> dict_get snapshots t2 = ret snapshot_j ->
  state snapshot_i = Some states_i -> state snapshot_j = Some states_j ->
  _interpolate_snapshot q T snapshots (i, j) = ret frame ->
  labels states_i = labels states_j /\
  exists states, state frame = Some states /\ labels states = labels states_i.
Proof.
  intros Hij Hi Hj Hdi Hdj Hsi Hsj Hf. unfold _interpolate_snapshot in Hf.
  apply Z.eqb_neq in Hij. rewrite Hij, Hi, Hj in Hf. cbn [bind ret] in Hf.
  rewrite Hdi, Hdj in Hf. cbn [bind ret] in Hf. rewrite Hsi in Hf.
  unfold getitem_state in Hf. rewrite Hsj in Hf. cbn [bind ret] in Hf.
  bind_inv Hf st Hst.
  inversion Hf; subst frame. cbn [state].
  destruct (interpolate_states_inv _ _ _ _ Hst) as [Hl [Hlr _]].
  split; [exact Hl|]. exists st. split; [reflexivity|exact Hlr].
Qed.

Lemma unit_interval_bracket (q : Q) :
  0 < q -> q <= 1 ->
  surrounding_indices [0; 1] q = (0, 1)%Z /\
  Qlt_bool 0 (interpolation_factor q 0 1) = true.
Proof.
  intros H0 H1. split.
  - unfold surrounding_indices. cbn [first_bracket].
    assert (E0 : Qle_bool 0 q = true) by (apply Qle_bool_iff; lra).
    assert (E1 : Qle_bool q 1 = true) by (apply Qle_bool_iff; lra).
    rewrite E0, E1. reflexivity.
  - apply Qlt_bool_iff.
    assert (Hne : ~ 0 == 1) by lra.
    rewrite (interpolation_factor_distinct q _ _ Hne).
    apply Qlt_shift_div_l; lra.
Qed.

(** C5, as amended: a cell present in only one bracket snapshot is not
    dropped.  Whenever the frame interpolator returns a state column, it
    carries exactly the cells of [S_i]: a cell found only in [S_j] is
    absent and a cell found only in [S_i] is kept.  The exporter's state
    interpolation succeeds exactly when the two snapshots carry the same
    cell labels and raises [ValueError] otherwise, so a frame returned by
    [_interpolate_snapshot] for two distinct snapshots has the cells of
    both.  With [S_i = {(0,0): Tree}] and
    [S_j = {(0,0): Tree, (1,1): Burning}] on the 1 x 1 grid of [S_i], the
    frame interpolator returns [{(0,0): Tree}] at blend factor [0] and
    raises [IndexError] at every blend factor in [(0, 1]]. *)
Theorem coverage_follows_first_snapshot :
  (forall outer_join gaussian_filter snapshots T q width height rng r states_i states_j,
      _interpolate_fire_states outer_join gaussian_filter snapshots T q width height rng
      = ret r ->
      bracket_states snapshots T q states_i states_j ->
      labels r = labels states_i) /\
  (forall states_i states_j alpha,
      labels states_i <> labels states_j ->
      _interpolate_states states_i states_j alpha = raise ValueError) /\
  (forall states_i states_j alpha,
      labels states_i = labels states_j ->
      exists r, _interpolate_states states_i states_j alpha = ret r /\
                labels r = labels states_i) /\
  (forall q T snapshots i j t1 t2 snapshot_i snapshot_j frame states_i states_j,
      i <> j ->
      getitem T i = ret t1 -> getitem T j = ret t2 ->
      dict_get snapshots t1 = ret snapshot_i -> dict_get snapshots t2 = ret snapshot_j ->
      state snapshot_i = Some states_i -> state snapshot_j = Some states_j ->
      _interpolate_snapshot q T snapshots (i, j) = ret frame ->
      labels states_i = labels states_j /\
      exists states, state frame = Some states /\ labels states = labels states_i) /\
  (forall outer_join gaussian_filter rng,
      _interpolate_fire_states outer_join gaussian_filter [lone_tree; tree_and_fire]
                               [0; 1] 0 1 1 rng
      = ret [(Tuple 0 0, "Tree"%string)]) /\
  (forall outer_join gaussian_filter rng q,
      0 < q -> q <= 1 ->
      _interpolate_fire_states outer_join gaussian_filter [lone_tree; tree_and_fire]
                               [0; 1] q 1 1 rng
      = raise IndexError).
Proof.
  split; [|split; [|split; [|split; [|split]]]].
  - intros join gf snapshots T q w h rng r sb sa Hr Hbr.
    destruct (interpolate_fire_states_inv join gf _ _ _ _ _ _ _ Hr)
      as [sb' [sa' [Hbr' [Hlab _]]]].
    destruct (bracket_states_unique _ _ _ _ _ _ _ Hbr Hbr') as [-> ->].
    exact Hlab.
  - intros s1 s2 alpha. apply interpolate_states_mismatch.
  - intros s1 s2 alpha. apply interpolate_states_total.
  - intros q T snapshots i j t1 t2 si sj frame sti stj.
    apply interpolate_snapshot_cells.
  - intros join gf rng. reflexivity.
  - intros join gf rng q H0 H1.
    destruct (unit_interval_bracket q H0 H1) as [Hidx Hal].
    unfold _interpolate_fire_states. rewrite Hidx. cbn [Z.eqb].
    change (getitem [lone_tree; tree_and_fire] 0) with (ret lone_tree).
    change (getitem [lone_tree; tree_and_fire] 1) with (ret tree_and_fire).
    change (getitem [0; 1] 0%Z) with (ret 0).
    change (getitem [0; 1] 1%Z) with (ret 1).
    cbn [bind ret]. unfold getitem_state, lone_tree, tree_and_fire. cbn [state bind ret].
    rewrite Hal. reflexivity.
Qed.

Lemma coverage_follows_first_snapshot_witness :
  0 < 1 # 2 /\ 1 # 2 <= 1 /\
  _interpolate_fire_states append_join mean_filter [lone_tree; tree_and_fire]
                           [0; 1] (1 # 2) 1 1 fixed_draws = raise IndexError.
Proof.
  assert (H0 : 0 < 1 # 2) by reflexivity.
  assert (H1 : 1 # 2 <= 1) by (unfold Qle; simpl; lia).
  split; [exact H0|]. split; [exact H1|].
  exact (proj2 (proj2 (proj2 (proj2 (proj2 coverage_follows_first_snapshot))))
               append_join mean_filter fixed_draws (1 # 2) H0 H1).
Defined.

(** C5 as stated fails.  On the specification's own pair of snapshots
    the interpolation fails for a blend factor of one half, whatever
    the smoothing filter and the draws; and with the two snapshots
    exchanged (on their 2 x 2 grid) the frame at blend factor [0] still
    holds the cell [(1,1)], which the other snapshot does not have. *)
Lemma coverage_counterexample :
  (forall outer_join gaussian_filter rng,
      _interpolate_fire_states outer_join gaussian_filter [lone_tree; tree_and_fire]
                               [0; 1] (1 # 2) 1 1 rng = raise IndexError) /\
  (forall outer_join gaussian_filter rng,
      exists frame,
        _interpolate_fire_states outer_join gaussian_filter [tree_and_fire; lone_tree]
                                 [0; 1] 0 2 2 rng = ret frame /\
        In (Tuple 1 1) (labels frame) /\
        state lone_tree = Some [(Tuple 0 0, "Tree"%string)]).
Proof.
  split.
  - intros join gf rng. reflexivity.
  - intros join gf rng. eexists. split; [reflexivity|].
    split; [cbn; auto|reflexivity].
Qed.

End Coverage.

(** ** Transition probabilities *)

Section Thresholds.

Variable outer_join : list label -> list label -> list label.
Variable gaussian_filter : list (list Q) -> Q -> list (list Q).

Lemma map_imap_from (A B C : Type) (f : B -> C) (g : nat -> A -> B) (n : nat) (l : list A) :
  map f (imap_from n g l) = imap_from n (fun i a => f (g i a)) l.
Proof.
  revert n. induction l as [|a l IH]; intro n; cbn; [reflexivity|].
  rewrite IH. reflexivity.
Qed.

Lemma imap_from_map (A B C : Type) (f : A -> B) (g : nat -> B -> C) (n : nat) (l : list A) :
  imap_from n g (map f l) = imap_from n (fun i a => g i (f a)) l.
Proof.
  revert n. induction l as [|a l IH]; intro n; cbn; [reflexivity|].
  rewrite IH. reflexivity.
Qed.

Lemma imap_from_ext (A B : Type) (f g : nat -> A -> B) (n : nat) (l : list A) :
  (forall i a, f i a = g i a) -> imap_from n f l = imap_from n g l.
Proof.
  intro H. revert n. induction l as [|a l IH]; intro n; cbn; [reflexivity|].
  rewrite H, IH. reflexivity.
Qed.

Lemma create_fire_front_probability_inv (sb sa : Series string) (w h : Z) (alpha : Q)
      (rng : draws) (prob : list Q) :
  _create_fire_front_probability gaussian_filter sb sa w h alpha rng = ret prob ->
  exists grid_before,
    _states_to_grid sb w h = ret grid_before /\
    prob = ignition_thresholds gaussian_filter grid_before alpha rng.
Proof.
  unfold _create_fire_front_probability. intro H.
  bind_inv H gb Hgb.
  bind_skip H ga.
  exists gb. split; [exact Hgb|]. inversion H. unfold ignition_thresholds, imap.
  f_equal. rewrite map_imap_from, imap_from_map. apply imap_from_ext.
  intros i row. rewrite map_imap_from, imap_from_map. reflexivity.
Qed.

Lemma random_array_nth (u : nat -> Q) (n p : nat) :
  (p < n)%nat -> nth_error (random_array u n) p = Some (u p).
Proof.
  intro H. unfold random_array. rewrite nth_error_map, nth_error_seq.
  destruct (Nat.ltb_spec p n); [reflexivity|lia].
Qed.

Lemma random_array_length (u : nat -> Q) (n : nat) : length (random_array u n) = n.
Proof. unfold random_array. rewrite length_map, length_seq. reflexivity. Qed.

Lemma broadcast2_same (A B C : Type) (f : A -> B -> C) (a : list A) (b : list B) :
  length a = length b ->
  Np.broadcast2 f a b = ret (map (fun p => f (fst p) (snd p)) (combine a b)).
Proof.
  intro H. unfold Np.broadcast2. apply Nat.eqb_eq in H. rewrite H. reflexivity.
Qed.

Lemma and_series_same (a b : Series bool) :
  labels a = labels b ->
  and_series outer_join a b =
    map (fun p : (label * bool) * (label * bool) =>
           (fst (fst p), snd (fst p) && snd (snd p))) (combine a b).
Proof.
  intro H. unfold and_series. apply indexed_same_labels in H. rewrite H. reflexivity.
Qed.

Lemma transition_mask_nth (sb sa : Series string) (x y : string) (p : nat)
      (l : label) (s s' : string) :
  labels sb = labels sa ->
  nth_error sb p = Some (l, s) -> nth_error sa p = Some (l, s') ->
  let mask := and_series outer_join (eq_scalar sb x) (eq_scalar sa y) in
  labels mask = labels sb /\
  nth_error mask p = Some (l, String.eqb s x && String.eqb s' y).
Proof.
  intros Hl Hb Ha mask. subst mask.
  rewrite and_series_same by (rewrite !eq_scalar_labels; exact Hl). split.
  - unfold labels. rewrite map_map. cbn [fst].
    rewrite <- (map_map fst fst), map_fst_combine.
    + apply eq_scalar_labels.
    + apply same_labels_length. rewrite !eq_scalar_labels. symmetry. exact Hl.
  - rewrite nth_error_map.
    assert (Hc : nth_error (combine (eq_scalar sb x) (eq_scalar sa y)) p
                 = Some ((l, String.eqb s x), (l, String.eqb s' y))).
    { apply combine_nth_error. unfold eq_scalar. rewrite !nth_error_map, Hb, Ha.
      split; reflexivity. }
    rewrite Hc. reflexivity.
Qed.

Lemma and_array_nth (mask : Series bool) (arr : list bool) (m : Series bool)
      (p : nat) (l : label) (b c : bool) :
  and_array mask arr = ret m -> length arr = length mask ->
  nth_error mask p = Some (l, b) -> nth_error arr p = Some c ->
  labels m = labels mask /\ nth_error m p = Some (l, b && c).
Proof.
  unfold and_array. intros H Hlen Hm Ha.
  rewrite broadcast2_same in H by (unfold values; rewrite length_map; auto).
  cbn [bind ret] in H.
  assert (Hl : length (map (fun p : bool * bool => fst p && snd p)
                           (combine (values mask) arr)) = length mask).
  { rewrite length_map, length_combine. unfold values. rewrite length_map. lia. }
  apply Nat.eqb_eq in Hl as Hl'. rewrite Hl' in H. inversion H; subst. split.
  - unfold labels at 1. rewrite map_fst_combine; [reflexivity|].
    rewrite Hl. unfold labels. rewrite length_map. reflexivity.
  - apply combine_nth_error. split.
    + unfold labels. rewrite nth_error_map, Hm. reflexivity.
    + rewrite nth_error_map.
      assert (Hc : nth_error (combine (values mask) arr) p = Some (b, c)).
      { apply combine_nth_error. unfold values. rewrite nth_error_map, Hm. auto. }
      rewrite Hc. reflexivity.
Qed.

Lemma setitem_mask_nth (s : Series string) (mask : Series bool) (v : string)
      (r : Series string) (p : nat) (l : label) (a : string) (b : bool) :
  setitem_mask s mask v = ret r -> labels s = labels mask ->
  nth_error s p = Some (l, a) -> nth_error mask p = Some (l, b) ->
  nth_error r p = Some (l, if b then v else a).
Proof.
  unfold setitem_mask. intros H Hl Hs Hm.
  rewrite (check_bool_indexer_same _ s mask Hl) in H. cbn [bind ret] in H.
  inversion H; subst. rewrite nth_error_map.
  assert (Hc : nth_error (combine s (values mask)) p = Some ((l, a), b)).
  { apply combine_nth_error. unfold values. rewrite nth_error_map, Hm. auto. }
  rewrite Hc. reflexivity.
Qed.

End Thresholds.

Section TransitionProbabilities.

Variable outer_join : list label -> list label -> list label.
Variable gaussian_filter : list (list Q) -> Q -> list (list Q).

Lemma transition_cases (s s' : string) (ignites burns_out : bool) :
  (if String.eqb s "Burning" && String.eqb s' "Burnt" && burns_out
   then "Burnt"%string
   else if String.eqb s "Tree" && String.eqb s' "Burning" && ignites
        then "Burning"%string else s)
  = transition s s' ignites burns_out.
Proof.
  unfold transition.
  destruct (String.eqb s "Tree") eqn:Etree.
  - apply String.eqb_eq in Etree. subst s. cbn [String.eqb Ascii.eqb Bool.eqb andb].
    destruct (String.eqb s' "Burning"), ignites; reflexivity.
  - cbn [andb]. destruct (String.eqb s "Burning" && String.eqb s' "Burnt"), burns_out;
      reflexivity.
Qed.

(** Row by row, when the stochastic step has returned. *)
Lemma transition_thresholds_rows (snapshots : list DataFrame) (T : list Q) (q : Q)
        (width height : Z) (rng : draws) (r states_i states_j : Series string)
        (t1 t2 : Q) :
  _interpolate_fire_states outer_join gaussian_filter snapshots T q width height rng
  = ret r ->
  bracket_states snapshots T q states_i states_j ->
  fst (surrounding_indices T q) <> snd (surrounding_indices T q) ->
  getitem T (fst (surrounding_indices T q)) = ret t1 ->
  getitem T (snd (surrounding_indices T q)) = ret t2 ->
  0 < interpolation_factor q t1 t2 ->
  labels states_i = labels states_j ->
  exists grid_before,
    _states_to_grid states_i width height = ret grid_before /\
    let alpha := interpolation_factor q t1 t2 in
    let threshold := ignition_thresholds gaussian_filter grid_before alpha rng in
    (length threshold = length states_i ->
     forall p l s s',
       nth_error states_i p = Some (l, s) -> nth_error states_j p = Some (l, s') ->
       exists P,
         nth_error threshold p = Some P /\
         nth_error r p =
           Some (l, transition s s' (Qlt_bool (uniform_tree rng p) P)
                               (Qlt_bool (uniform_burnt rng p) (alpha ^ 2)))).
Proof.
  intros Hr [dfb [dfa [Hb [Hsb [Ha Hsa]]]]] Hij Ht1 Ht2 Hal Hl.
  unfold _interpolate_fire_states in Hr.
  destruct (surrounding_indices T q) as [i j]. cbn [fst snd] in *.
  apply Z.eqb_neq in Hij. rewrite Hij, Hb in Hr. cbn [bind ret] in Hr.
  unfold getitem_state in Hr. rewrite Hsb, Ha in Hr. cbn [bind ret] in Hr.
  rewrite Hsa, Ht1 in Hr. cbn [bind ret] in Hr. rewrite Ht2 in Hr. cbn [bind ret] in Hr.
  apply Qlt_bool_iff in Hal. rewrite Hal in Hr.
  bind_inv Hr prob Hprob.
  bind_inv Hr ignites Hign.
  bind_inv Hr tree_mask Htm.
  bind_inv Hr r1 Hr1.
  bind_inv Hr burnt_mask Hbm.
  apply create_fire_front_probability_inv in Hprob.
  destruct Hprob as [grid_before [Hgrid ->]].
  exists grid_before. split; [exact Hgrid|].
  cbv zeta.
  set (alpha := interpolation_factor q t1 t2) in *.
  set (threshold := ignition_thresholds gaussian_filter grid_before alpha rng) in *.
  intros Hlen p l s s' Hp Hp'.
  assert (Hlt : (p < length states_i)%nat) by (apply nth_error_Some; congruence).
  destruct (nth_error threshold p) as [P|] eqn:HP;
    [|apply nth_error_None in HP; lia].
  exists P. split; [reflexivity|].
  (* the ignition comparisons *)
  rewrite broadcast2_same in Hign by (rewrite random_array_length; exact Hlen).
  inversion Hign as [Hign']. clear Hign.
  assert (Hi : nth_error ignites p = Some (Qlt_bool (uniform_tree rng p) P)).
  { rewrite <- Hign', nth_error_map.
    assert (Hc : nth_error (combine threshold
                                    (random_array (uniform_tree rng) (length states_i))) p
                 = Some (P, uniform_tree rng p)).
    { apply combine_nth_error. split; [exact HP|apply random_array_nth; exact Hlt]. }
    rewrite Hc. reflexivity. }
  assert (Hilen : length ignites = length states_i).
  { rewrite <- Hign', length_map, length_combine, random_array_length. lia. }
  (* the two masks *)
  destruct (transition_mask_nth outer_join states_i states_j "Tree" "Burning"
                                p l s s' Hl Hp Hp') as [Hl1 Hm1].
  destruct (transition_mask_nth outer_join states_i states_j "Burning" "Burnt"
                                p l s s' Hl Hp Hp') as [Hl2 Hm2].
  cbv zeta in Hl1, Hm1, Hl2, Hm2.
  assert (Hlen1 : length ignites
                  = length (and_series outer_join (eq_scalar states_i "Tree")
                                       (eq_scalar states_j "Burning"))).
  { rewrite Hilen. symmetry. apply same_labels_length. exact Hl1. }
  destruct (and_array_nth _ _ _ p l _ _ Htm Hlen1 Hm1 Hi) as [Hlt1 Hn1].
  assert (Hb2 : nth_error (map (fun u => Qlt_bool u (alpha ^ 2))
                               (random_array (uniform_burnt rng) (length states_i))) p
                = Some (Qlt_bool (uniform_burnt rng p) (alpha ^ 2))).
  { rewrite nth_error_map, random_array_nth by exact Hlt. reflexivity. }
  assert (Hlen2 : length (map (fun u => Qlt_bool u (alpha ^ 2))
                              (random_array (uniform_burnt rng) (length states_i)))
                  = length (and_series outer_join (eq_scalar states_i "Burning")
                                       (eq_scalar states_j "Burnt"))).
  { rewrite length_map, random_array_length. symmetry.
    apply same_labels_length. exact Hl2. }
  destruct (and_array_nth _ _ _ p l _ _ Hbm Hlen2 Hm2 Hb2) as [Hlt2 Hn2].
  (* the two assignments *)
  assert (Hr1p := setitem_mask_nth _ _ _ _ p l s _ Hr1
                                   (eq_trans (eq_sym Hl1) (eq_sym Hlt1)) Hp Hn1).
  assert (Hlr1 : labels r1 = labels states_i) by (eapply setitem_mask_labels; exact Hr1).
  assert (Hrp := setitem_mask_nth _ _ _ _ p l _ _ Hr
                                  (eq_trans Hlr1 (eq_trans (eq_sym Hl2) (eq_sym Hlt2)))
                                  Hr1p Hn2).
  rewrite Hrp. f_equal. f_equal. apply transition_cases.
Qed.

End TransitionProbabilities.

(** ** The stochastic step returns *)

Section GridFacts.

Lemma update_length (A : Type) (l : list A) (n : nat) (f : A -> A) :
  length (Np.update l n f) = length l.
Proof.
  revert n. induction l as [|a l IH]; intros [|n]; cbn; auto.
Qed.

Lemma update_shape (A : Type) (h w : nat) (grid : list (list A)) (r c : nat) (v : A) :
  has_shape h w grid ->
  has_shape h w (Np.update grid r (fun row => Np.update row c (fun _ => v))).
Proof.
  intros [Hlen Hrows]. split; [rewrite update_length; exact Hlen|].
  clear Hlen. revert r. induction Hrows as [|row grid Hrow Hrows IH]; intros [|r]; cbn.
  - constructor.
  - constructor.
  - constructor; [rewrite update_length; exact Hrow|exact Hrows].
  - constructor; [exact Hrow|apply IH].
Qed.

Lemma axis_index_inside (n : nat) (i : Z) :
  (0 <= i < Z.of_nat n)%Z -> Np.axis_index n i = ret (Z.to_nat i).
Proof.
  intro H. unfold Np.axis_index.
  assert (E1 : (i <? 0)%Z = false) by (apply Z.ltb_ge; lia).
  assert (E2 : (Z.of_nat n <=? i)%Z = false) by (apply Z.leb_gt; lia).
  rewrite E1, E1, E2. reflexivity.
Qed.

Lemma has_shape_nth (A : Type) (h w : nat) (grid : list (list A)) (r : nat) :
  has_shape h w grid -> (r < h)%nat -> length (nth r grid []) = w.
Proof.
  intros [Hlen Hrows] Hr. rewrite Forall_forall in Hrows. apply Hrows.
  apply nth_In. lia.
Qed.

Lemma setitem2_inside (A : Type) (h w : nat) (grid : list (list A)) (y x : Z) (v : A) :
  has_shape h w grid -> (0 <= y < Z.of_nat h)%Z -> (0 <= x < Z.of_nat w)%Z ->
  exists grid', Np.setitem2 grid y x v = ret grid' /\ has_shape h w grid'.
Proof.
  intros Hs Hy Hx. unfold Np.setitem2.
  rewrite axis_index_inside by (rewrite (proj1 Hs); exact Hy). cbn [bind ret].
  rewrite (has_shape_nth _ h w grid _ Hs) by lia.
  rewrite axis_index_inside by exact Hx. cbn [bind ret].
  eexists. split; [reflexivity|]. apply update_shape. exact Hs.
Qed.

Lemma zeros_shape (height width : Z) :
  (0 <= height)%Z -> (0 <= width)%Z ->
  exists grid, Np.zeros height width = ret grid /\
               has_shape (Z.to_nat height) (Z.to_nat width) grid.
Proof.
  intros Hh Hw. unfold Np.zeros.
  assert (E1 : (height <? 0)%Z = false) by (apply Z.ltb_ge; lia).
  assert (E2 : (width <? 0)%Z = false) by (apply Z.ltb_ge; lia).
  rewrite E1, E2. cbn [orb]. eexists. split; [reflexivity|]. split.
  - apply repeat_length.
  - apply Forall_forall. intros row Hin. apply repeat_spec in Hin. subst row.
    apply repeat_length.
Qed.

Lemma states_to_grid_total (states : Series string) (width height : Z) :
  (0 <= height)%Z -> (0 <= width)%Z ->
  Forall (on_grid width height) (labels states) ->
  exists grid, _states_to_grid states width height = ret grid /\
               has_shape (Z.to_nat height) (Z.to_nat width) grid.
Proof.
  intros Hh Hw Hall. unfold _states_to_grid.
  destruct (zeros_shape height width Hh Hw) as [g0 [Hz Hs0]].
  rewrite Hz. cbn [bind ret]. clear Hz. revert g0 Hs0.
  induction states as [|[l st] states IH]; intros g Hs.
  - exists g. split; [reflexivity|exact Hs].
  - cbn [labels map fst] in Hall. inversion Hall as [|? ? Hl Hall']; subst.
    cbn [for_each].
    assert (Hcell : (match l with
                     | Tuple x y => ret (x, y)
                     | Int i => if (width =? 0)%Z then raise ZeroDivisionError
                                else ret ((i mod width)%Z, (i / width)%Z)
                     end) = ret (cell_of width l)).
    { destruct l as [x y|i]; [reflexivity|].
      destruct Hl as [Hx _]. cbn [cell_of fst] in Hx.
      assert (E : (width =? 0)%Z = false) by (apply Z.eqb_neq; lia).
      rewrite E. reflexivity. }
    rewrite Hcell. cbn [bind ret]. destruct Hl as [Hx Hy].
    destruct (cell_of width l) as [x y]. cbn [fst snd] in Hx, Hy.
    destruct (setitem2_inside _ _ _ g y x (state_map st) Hs) as [g' [Hg' Hs']];
      [lia|lia|].
    rewrite Hg'. cbn [bind ret]. apply IH; assumption.
Qed.

Lemma imap_from_length (A B : Type) (f : nat -> A -> B) (n : nat) (l : list A) :
  length (imap_from n f l) = length l.
Proof.
  revert n. induction l as [|a l IH]; intro n; cbn; [reflexivity|].
  rewrite IH. reflexivity.
Qed.

Lemma imap_rows_lengths (A B : Type) (f : nat -> nat -> A -> B) (n : nat)
      (grid : list (list A)) :
  map (@length B) (imap_from n (fun r row => imap (f r) row) grid)
  = map (@length A) grid.
Proof.
  revert n. induction grid as [|row grid IH]; intro n; cbn; [reflexivity|].
  unfold imap at 1. rewrite imap_from_length, IH. reflexivity.
Qed.

Lemma imap_grid_lengths (A B : Type) (f : nat -> nat -> A -> B) (grid : list (list A)) :
  map (@length B) (imap (fun r row => imap (f r) row) grid) = map (@length A) grid.
Proof. exact (imap_rows_lengths A B f 0 grid). Qed.

Lemma shape_cells (A : Type) (h w : nat) (grid : list (list A)) :
  has_shape h w grid -> list_sum (map (@length A) grid) = (h * w)%nat.
Proof.
  intros [Hlen Hrows]. subst h.
  induction Hrows as [|row grid Hrow Hrows IH]; [reflexivity|].
  change (list_sum (map (@length A) (row :: grid)))
    with (length row + list_sum (map (@length A) grid))%nat.
  rewrite IH, Hrow. reflexivity.
Qed.

End GridFacts.

Section StochasticStepReturns.

Variable outer_join : list label -> list label -> list label.
Variable gaussian_filter : list (list Q) -> Q -> list (list Q).

(** [gaussian_filter] returns an array of the shape of its input. *)
Hypothesis gaussian_filter_shape :
  forall grid sigma, map (@length Q) (gaussian_filter grid sigma) = map (@length Q) grid.

Lemma thresholds_length (h w : nat) (grid : list (list Z)) (alpha : Q) (rng : draws) :
  has_shape h w grid ->
  length (ignition_thresholds gaussian_filter grid alpha rng) = (h * w)%nat.
Proof.
  intro Hs. unfold ignition_thresholds, Np.flatten.
  rewrite length_concat, imap_grid_lengths, gaussian_filter_shape.
  rewrite <- (shape_cells _ h w grid Hs). f_equal.
  rewrite map_map. apply map_ext. intro row. apply length_map.
Qed.

Lemma create_fire_front_probability_total (sb sa : Series string) (w h : Z) (alpha : Q)
      (rng : draws) :
  (0 <= h)%Z -> (0 <= w)%Z ->
  Forall (on_grid w h) (labels sb) -> labels sb = labels sa ->
  exists grid_before,
    _states_to_grid sb w h = ret grid_before /\
    has_shape (Z.to_nat h) (Z.to_nat w) grid_before /\
    _create_fire_front_probability gaussian_filter sb sa w h alpha rng
    = ret (ignition_thresholds gaussian_filter grid_before alpha rng).
Proof.
  intros Hh Hw Hall Hl.
  destruct (states_to_grid_total sb w h Hh Hw Hall) as [gb [Hgb Hsb]].
  rewrite Hl in Hall.
  destruct (states_to_grid_total sa w h Hh Hw Hall) as [ga [Hga _]].
  exists gb. split; [exact Hgb|]. split; [exact Hsb|].
  destruct (_create_fire_front_probability gaussian_filter sb sa w h alpha rng)
    as [e|prob] eqn:E.
  - exfalso. unfold _create_fire_front_probability in E.
    rewrite Hgb, Hga in E. discriminate E.
  - apply create_fire_front_probability_inv in E.
    destruct E as [gb' [Hgb' ->]]. rewrite Hgb in Hgb'. inversion Hgb'. reflexivity.
Qed.

Lemma transition_mask_labels (sb sa : Series string) (x y : string) :
  labels sb = labels sa ->
  labels (and_series outer_join (eq_scalar sb x) (eq_scalar sa y)) = labels sb.
Proof.
  intro Hl.
  rewrite and_series_same by (rewrite !eq_scalar_labels; exact Hl).
  unfold labels. rewrite map_map. cbn [fst].
  rewrite <- (map_map fst fst), map_fst_combine.
  - apply eq_scalar_labels.
  - apply same_labels_length. rewrite !eq_scalar_labels. symmetry. exact Hl.
Qed.

Lemma and_array_total (mask : Series bool) (arr : list bool) :
  length arr = length mask ->
  exists m, and_array mask arr = ret m /\ labels m = labels mask.
Proof.
  intro Hlen. unfold and_array.
  rewrite broadcast2_same by (unfold values; rewrite length_map; auto).
  cbn [bind ret].
  assert (Hl : length (map (fun p : bool * bool => fst p && snd p)
                           (combine (values mask) arr)) = length mask).
  { rewrite length_map, length_combine. unfold values. rewrite length_map. lia. }
  apply Nat.eqb_eq in Hl as Hl'. rewrite Hl'.
  eexists. split; [reflexivity|].
  unfold labels at 1. rewrite map_fst_combine; [reflexivity|].
  rewrite Hl. unfold labels. rewrite length_map. reflexivity.
Qed.

Lemma setitem_mask_total (A : Type) (s : Series A) (mask : Series bool) (v : A) :
  labels s = labels mask ->
  exists r, setitem_mask s mask v = ret r /\ labels r = labels s.
Proof.
  intro Hl. unfold setitem_mask.
  rewrite (check_bool_indexer_same _ s mask Hl). cbn [bind ret].
  eexists. split; [reflexivity|].
  unfold labels. rewrite map_map. cbn [fst].
  rewrite <- (map_map fst fst), map_fst_combine; [reflexivity|].
  unfold values. rewrite length_map. symmetry.
  apply same_labels_length. exact Hl.
Qed.

Lemma interpolate_fire_states_total (snapshots : list DataFrame) (T : list Q) (q : Q)
      (width height : Z) (rng : draws) (states_i states_j : Series string) (t1 t2 : Q) :
  bracket_states snapshots T q states_i states_j ->
  fst (surrounding_indices T q) <> snd (surrounding_indices T q) ->
  getitem T (fst (surrounding_indices T q)) = ret t1 ->
  getitem T (snd (surrounding_indices T q)) = ret t2 ->
  0 < interpolation_factor q t1 t2 ->
  labels states_i = labels states_j ->
  (0 <= height)%Z -> (0 <= width)%Z ->
  Forall (on_grid width height) (labels states_i) ->
  length states_i = (Z.to_nat height * Z.to_nat width)%nat ->
  exists r grid_before,
    _interpolate_fire_states outer_join gaussian_filter snapshots T q width height rng
    = ret r /\
    _states_to_grid states_i width height = ret grid_before /\
    length (ignition_thresholds gaussian_filter grid_before
                                (interpolation_factor q t1 t2) rng)
    = length states_i.
Proof.
  intros [dfb [dfa [Hb [Hsb [Ha Hsa]]]]] Hij Ht1 Ht2 Hal Hl Hh Hw Hall Hlen.
  destruct (create_fire_front_probability_total states_i states_j width height
              (interpolation_factor q t1 t2) rng Hh Hw Hall Hl)
    as [gb [Hgb [Hshape Hprob]]].
  pose proof (thresholds_length _ _ gb (interpolation_factor q t1 t2) rng Hshape) as Hth.
  rewrite <- Hlen in Hth.
  unfold _interpolate_fire_states.
  destruct (surrounding_indices T q) as [i j]. cbn [fst snd] in *.
  apply Z.eqb_neq in Hij. rewrite Hij, Hb. cbn [bind ret].
  unfold getitem_state. rewrite Hsb, Ha. cbn [bind ret].
  rewrite Hsa, Ht1. cbn [bind ret]. rewrite Ht2. cbn [bind ret].
  apply Qlt_bool_iff in Hal. rewrite Hal, Hprob. cbn [bind ret].
  rewrite broadcast2_same by (rewrite random_array_length; exact Hth).
  cbn [bind ret].
  set (ignites := map _ (combine _ (random_array (uniform_tree rng) _))).
  assert (Hil : length ignites = length states_i).
  { subst ignites. rewrite length_map, length_combine, random_array_length. lia. }
  pose proof (transition_mask_labels states_i states_j "Tree" "Burning" Hl) as Hl1.
  pose proof (transition_mask_labels states_i states_j "Burning" "Burnt" Hl) as Hl2.
  destruct (and_array_total
              (and_series outer_join (eq_scalar states_i "Tree")
                          (eq_scalar states_j "Burning")) ignites)
    as [tree_mask [Htm Hltm]].
  { rewrite Hil. symmetry. apply same_labels_length. exact Hl1. }
  rewrite Htm. cbn [bind ret].
  destruct (setitem_mask_total _ states_i tree_mask "Burning"%string) as [r1 [Hr1 Hlr1]].
  { rewrite Hltm, Hl1. reflexivity. }
  rewrite Hr1. cbn [bind ret].
  set (burns_out := map _ (random_array (uniform_burnt rng) _)).
  destruct (and_array_total
              (and_series outer_join (eq_scalar states_i "Burning")
                          (eq_scalar states_j "Burnt")) burns_out)
    as [burnt_mask [Hbm Hlbm]].
  { subst burns_out. rewrite length_map, random_array_length. symmetry.
    apply same_labels_length. exact Hl2. }
  rewrite Hbm. cbn [bind ret].
  destruct (setitem_mask_total _ r1 burnt_mask "Burnt"%string) as [r [Hr _]].
  { rewrite Hlr1, Hlbm, Hl2. reflexivity. }
  exists r, gb. split; [exact Hr|]. split; [exact Hgb|exact Hth].
Qed.

End StochasticStepReturns.

(** ** Transition probabilities of the stochastic step *)

Section TransitionTheorem.

Variable outer_join : list label -> list label -> list label.
Variable gaussian_filter : list (list Q) -> Q -> list (list Q).

(** C3, as amended: in the stochastic step (blend factor [alpha > 0]) on
    two identically labelled snapshots [S_i], [S_j] whose cells fill the
    [width x height] grid, the state interpolation returns, and row by
    row: a cell going Tree -> Burning ignites exactly when its uniform
    draw is below [clip(influence * alpha * 2 + noise * alpha, 0, 1)],
    with [influence] the Gaussian blur ([sigma = 1.5]) of the indicator of
    the cells burning in [S_i] and [noise] a normal draw of the call; a
    cell going Burning -> Burnt burns out exactly when its uniform draw is
    below [alpha ^ 2]; every other cell keeps its state of [S_i].  The
    row at position [p] uses the [p]-th threshold of the blurred grid read
    row by row, and the [p]-th draw of each uniform array. *)
Theorem transition_thresholds (snapshots : list DataFrame) (T : list Q) (q : Q)
        (width height : Z) (rng : draws) (states_i states_j : Series string)
        (t1 t2 : Q) :
  (forall grid sigma,
      map (@length Q) (gaussian_filter grid sigma) = map (@length Q) grid) ->
  bracket_states snapshots T q states_i states_j ->
  fst (surrounding_indices T q) <> snd (surrounding_indices T q) ->
  getitem T (fst (surrounding_indices T q)) = ret t1 ->
  getitem T (snd (surrounding_indices T q)) = ret t2 ->
  0 < interpolation_factor q t1 t2 ->
  labels states_i = labels states_j ->
  (0 <= height)%Z -> (0 <= width)%Z ->
  Forall (on_grid width height) (labels states_i) ->
  length states_i = (Z.to_nat height * Z.to_nat width)%nat ->
  exists r grid_before,
    _interpolate_fire_states outer_join gaussian_filter snapshots T q width height rng
    = ret r /\
    _states_to_grid states_i width height = ret grid_before /\
    let alpha := interpolation_factor q t1 t2 in
    let threshold := ignition_thresholds gaussian_filter grid_before alpha rng in
    forall p l s s',
      nth_error states_i p = Some (l, s) -> nth_error states_j p = Some (l, s') ->
      exists P,
        nth_error threshold p = Some P /\
        nth_error r p =
          Some (l, transition s s' (Qlt_bool (uniform_tree rng p) P)
                              (Qlt_bool (uniform_burnt rng p) (alpha ^ 2))).
Proof.
  intros Hgf Hbr Hij Ht1 Ht2 Hal Hl Hh Hw Hall Hlen.
  destruct (interpolate_fire_states_total outer_join gaussian_filter Hgf
              snapshots T q width height rng states_i states_j t1 t2
              Hbr Hij Ht1 Ht2 Hal Hl Hh Hw Hall Hlen)
    as [r [gb [Hr [Hgb Hth]]]].
  exists r, gb. split; [exact Hr|]. split; [exact Hgb|].
  destruct (transition_thresholds_rows outer_join gaussian_filter
              snapshots T q width height rng r states_i states_j t1 t2
              Hr Hbr Hij Ht1 Ht2 Hal Hl)
    as [gb' [Hgb' Hrows]].
  rewrite Hgb in Hgb'. inversion Hgb'; subst gb'.
  cbv zeta in *. exact (Hrows Hth).
Qed.

End TransitionTheorem.

Section TransitionExamples.

Lemma mean_filter_shape (grid : list (list Q)) (sigma : Q) :
  map (@length Q) (mean_filter grid sigma) = map (@length Q) grid.
Proof.
  unfold mean_filter. rewrite map_map. apply map_ext. intro row. apply length_map.
Qed.

Lemma transition_thresholds_witness :
  bracket_states [front_before; front_after] [0; 1] (1 # 2)
                 front_before_states front_after_states /\
  0 < interpolation_factor (1 # 2) 0 1 /\
  labels front_before_states = labels front_after_states /\
  Forall (on_grid 2 1) (labels front_before_states) /\
  exists P,
    nth_error (ignition_thresholds mean_filter [[2; 1]%Z]
                                   (interpolation_factor (1 # 2) 0 1) fixed_draws) 1
    = Some P /\
    nth_error [(Tuple 0 0, "Burnt"%string); (Tuple 1 0, "Burning"%string)] 1
    = Some (Tuple 1 0,
            transition "Tree" "Burning"
                       (Qlt_bool (uniform_tree fixed_draws 1) P)
                       (Qlt_bool (uniform_burnt fixed_draws 1)
                                 (interpolation_factor (1 # 2) 0 1 ^ 2))).
Proof.
  assert (Hal : 0 < interpolation_factor (1 # 2) 0 1) by reflexivity.
  assert (Hidx : fst (surrounding_indices [0; 1] (1 # 2))
                 <> snd (surrounding_indices [0; 1] (1 # 2))) by (cbn; discriminate).
  assert (Hgrid : Forall (on_grid 2 1) (labels front_before_states)).
  { repeat constructor; cbn; lia. }
  split; [exact front_bracket|]. split; [exact Hal|]. split; [reflexivity|].
  split; [exact Hgrid|].
  destruct (transition_thresholds append_join mean_filter
              [front_before; front_after] [0; 1] (1 # 2) 2 1 fixed_draws
              front_before_states front_after_states 0 1
              mean_filter_shape front_bracket Hidx eq_refl eq_refl Hal eq_refl
              ltac:(lia) ltac:(lia) Hgrid eq_refl)
    as [r [grid_before [Hr [Hg Hrows]]]].
  cbv zeta in Hrows.
  assert (Er : r = [(Tuple 0 0, "Burnt"%string); (Tuple 1 0, "Burning"%string)]).
  { assert (E : ret r = ret [(Tuple 0 0, "Burnt"%string); (Tuple 1 0, "Burning"%string)])
      by (rewrite <- Hr; reflexivity).
    inversion E. reflexivity. }
  assert (Eg : grid_before = [[2; 1]%Z]).
  { assert (E : ret grid_before = ret [[2; 1]%Z]) by (rewrite <- Hg; reflexivity).
    inversion E. reflexivity. }
  subst r grid_before.
  exact (Hrows 1%nat (Tuple 1 0) "Tree"%string "Burning"%string eq_refl eq_refl).
Defined.

(** C3 as stated fails.  In the two-cell row above the tree cell has
    influence [1/2]; at blend factor [1/2] the claimed ignition
    probability is [influence * alpha = 1/4], and the uniform draw [3/8]
    is not below it.  The code compares the draw with
    [influence * alpha * 2 = 1/2] (no noise in these draws) and the cell
    ignites. *)
Lemma ignition_probability_counterexample :
  let alpha := interpolation_factor (1 # 2) 0 1 in
  let influence := nth 1 (nth 0 (mean_filter [[1; 0]] (3 # 2)) []) 0 in
  alpha == 1 # 2 /\ influence == 1 # 2 /\
  normal fixed_draws 0 1 == 0 /\
  ~ uniform_tree fixed_draws 1 < influence * alpha /\
  _interpolate_fire_states append_join mean_filter [front_before; front_after]
                           [0; 1] (1 # 2) 2 1 fixed_draws
  = ret [(Tuple 0 0, "Burnt"%string); (Tuple 1 0, "Burning"%string)].
Proof.
  cbv zeta. split; [reflexivity|]. split; [reflexivity|]. split; [reflexivity|].
  split; [|reflexivity].
  intro H. vm_compute in H. discriminate H.
Qed.

End TransitionExamples.

(** * Further properties of the code *)

(** ** The resampler's indices *)

Section ResamplerIndices.

Lemma getitem_inside (A : Type) (l : list A) (i : Z) :
  (0 <= i < len l)%Z -> exists a, getitem l i = ret a.
Proof.
  intros [H0 H1]. unfold len in H1.
  destruct (nth_error l (Z.to_nat i)) as [a|] eqn:Hn.
  - exists a. rewrite <- (Z2Nat.id i H0). apply getitem_nat. exact Hn.
  - apply nth_error_None in Hn. lia.
Qed.

Lemma first_bracket_sound (T : list Q) (i : Z) (q : Q) (a b : Z) :
  first_bracket q T i = Some (a, b) ->
  exists ta tb,
    nth_error T (Z.to_nat (a - i)) = Some ta /\
    nth_error T (S (Z.to_nat (a - i))) = Some tb /\
    ta <= q /\ q <= tb /\
    forall k tk tk', (k < Z.to_nat (a - i))%nat ->
      nth_error T k = Some tk -> nth_error T (S k) = Some tk' ->
      ~ (tk <= q /\ q <= tk').
Proof.
  revert i. induction T as [|x T IH]; intros i H; [discriminate H|].
  destruct T as [|y T]; [discriminate H|].
  rewrite first_bracket_step in H.
  destruct (Qle_bool x q && Qle_bool q y) eqn:Hc.
  - inversion H; subst a b. replace (i - i)%Z with 0%Z by lia.
    apply andb_true_iff in Hc. destruct Hc as [H1 H2].
    apply Qle_bool_iff in H1. apply Qle_bool_iff in H2.
    exists x, y. split; [reflexivity|]. split; [reflexivity|].
    split; [exact H1|]. split; [exact H2|].
    intros k tk tk' Hk. simpl in Hk. lia.
  - pose proof (first_bracket_shape _ _ _ _ _ H) as [_ Hr].
    destruct (IH _ H) as [ta [tb [Ha [Hb [Hq1 [Hq2 Hfirst]]]]]].
    replace (Z.to_nat (a - i)) with (S (Z.to_nat (a - (i + 1)))) by lia.
    exists ta, tb. split; [exact Ha|]. split; [exact Hb|].
    split; [exact Hq1|]. split; [exact Hq2|].
    intros k tk tk' Hk Hn Hn'. destruct k as [|k].
    + simpl in Hn, Hn'. inversion Hn; inversion Hn'; subst tk tk'.
      intros [H1 H2]. apply Qle_bool_iff in H1. apply Qle_bool_iff in H2.
      rewrite H1, H2 in Hc. discriminate Hc.
    + apply (Hfirst k tk tk'); [lia|exact Hn|exact Hn'].
Qed.

(** X1: for every non-empty list of timestamps, sorted or not, and every
    query time, [_find_snapshot_indices] returns a pair [(i, j)] of valid
    indices of the list, with [j = i] or [j = i + 1]: both lookups
    [sorted_times[i]] and [sorted_times[j]] succeed. *)
Theorem find_snapshot_indices_in_range (T : list Q) (q : Q) :
  T <> [] ->
  exists i j ti tj,
    _find_snapshot_indices q T = ret (i, j) /\
    (0 <= i)%Z /\ (j < len T)%Z /\ (j = i \/ j = i + 1)%Z /\
    getitem T i = ret ti /\ getitem T j = ret tj.
Proof.
  intro HT. destruct T as [|t0 l]; [contradiction|].
  assert (Hlen : (1 <= len (t0 :: l))%Z) by (unfold len; simpl; lia).
  unfold _find_snapshot_indices.
  destruct (first_bracket q (t0 :: l) 0) as [[a b]|] eqn:Hfb.
  - destruct (first_bracket_shape _ _ _ _ _ Hfb) as [Hb Hr].
    destruct (getitem_inside _ (t0 :: l) a) as [ti Hi]; [lia|].
    destruct (getitem_inside _ (t0 :: l) b) as [tj Hj]; [lia|].
    exists a, b, ti, tj. repeat split; try assumption; lia.
  - rewrite getitem_head. cbn [bind ret].
    destruct (Qlt_bool q t0).
    + exists 0%Z, 0%Z, t0, t0. repeat split; try apply getitem_head; lia.
    + destruct (getitem_inside _ (t0 :: l) (len (t0 :: l) - 1)) as [t Ht]; [lia|].
      exists (len (t0 :: l) - 1)%Z, (len (t0 :: l) - 1)%Z, t, t.
      repeat split; try assumption; lia.
Qed.

Lemma find_snapshot_indices_in_range_witness :
  [5; 2; 8] <> [] /\
  exists i j ti tj,
    _find_snapshot_indices 9 [5; 2; 8] = ret (i, j) /\
    (0 <= i)%Z /\ (j < len [5; 2; 8])%Z /\ (j = i \/ j = i + 1)%Z /\
    getitem [5; 2; 8] i = ret ti /\ getitem [5; 2; 8] j = ret tj.
Proof.
  split; [discriminate|].
  apply (find_snapshot_indices_in_range [5; 2; 8] 9). discriminate.
Defined.

Lemma find_bracket_sound (T : list Q) (q : Q) (i j : Z) (ti tj : Q) :
  _find_snapshot_indices q T = ret (i, j) -> i <> j ->
  getitem T i = ret ti -> getitem T j = ret tj ->
  (0 <= i)%Z /\ j = (i + 1)%Z /\ ti <= q /\ q <= tj /\
  forall k tk tk', (k < Z.to_nat i)%nat ->
    nth_error T k = Some tk -> nth_error T (S k) = Some tk' ->
    ~ (tk <= q /\ q <= tk').
Proof.
  intros Hf Hij Hi Hj. unfold _find_snapshot_indices in Hf.
  destruct (first_bracket q T 0) as [[a b]|] eqn:Hfb.
  - inversion Hf; subst a b.
    destruct (first_bracket_shape _ _ _ _ _ Hfb) as [Hb Hr]. subst j.
    destruct (first_bracket_sound _ _ _ _ _ Hfb) as [ta [tb [Ha [Hb [Hq1 [Hq2 Hfirst]]]]]].
    replace (i - 0)%Z with i in * by lia.
    rewrite <- (Z2Nat.id i) in Hi by lia. apply getitem_nat in Hi.
    replace (i + 1)%Z with (Z.of_nat (S (Z.to_nat i))) in Hj by lia.
    apply getitem_nat in Hj.
    assert (ta = ti) by congruence. assert (tb = tj) by congruence. subst ta tb.
    split; [lia|]. split; [reflexivity|]. split; [exact Hq1|]. split; [exact Hq2|].
    exact Hfirst.
  - exfalso. destruct (getitem T 0) as [e|t0]; [discriminate Hf|].
    cbn [bind ret] in Hf. destruct (Qlt_bool q t0); inversion Hf; subst; apply Hij; reflexivity.
Qed.

Lemma bracket_factor_in_unit (q ti tj : Q) :
  ti <= q -> q <= tj ->
  0 <= interpolation_factor q ti tj /\ interpolation_factor q ti tj <= 1.
Proof.
  intros H1 H2. destruct (Qeq_dec ti tj) as [He|Hne].
  - rewrite (interpolation_factor_equal q ti tj He). split; lra.
  - rewrite (interpolation_factor_distinct q ti tj Hne).
    apply quotient_in_unit; [|split; lra].
    destruct (Qlt_le_dec ti tj) as [?|?]; [lra|].
    exfalso. apply Hne. lra.
Qed.

(** X2: whenever [_find_snapshot_indices] returns two different indices
    [(i, j)], the query lies between the two timestamps,
    [T[i] <= q <= T[j]], the blend factor computed from them lies in
    [[0, 1]], and no earlier pair of neighbours [T[k], T[k+1]], [k < i],
    contains the query: the first bracket in list order wins.  No order on
    the list is assumed. *)
Theorem bracket_contains_query (T : list Q) (q : Q) (i j : Z) (ti tj : Q) :
  _find_snapshot_indices q T = ret (i, j) -> i <> j ->
  getitem T i = ret ti -> getitem T j = ret tj ->
  ti <= q /\ q <= tj /\
  0 <= interpolation_factor q ti tj /\ interpolation_factor q ti tj <= 1 /\
  forall k tk tk', (0 <= k < i)%Z ->
    getitem T k = ret tk -> getitem T (k + 1) = ret tk' ->
    ~ (tk <= q /\ q <= tk').
Proof.
  intros Hf Hij Hi Hj.
  destruct (find_bracket_sound T q i j ti tj Hf Hij Hi Hj)
    as [Hi0 [_ [Hq1 [Hq2 Hfirst]]]].
  destruct (bracket_factor_in_unit q ti tj Hq1 Hq2) as [Ha0 Ha1].
  split; [exact Hq1|]. split; [exact Hq2|]. split; [exact Ha0|]. split; [exact Ha1|].
  intros k tk tk' Hk Hgk Hgk'.
  rewrite <- (Z2Nat.id k) in Hgk by lia. apply getitem_nat in Hgk.
  replace (k + 1)%Z with (Z.of_nat (S (Z.to_nat k))) in Hgk' by lia.
  apply getitem_nat in Hgk'.
  apply (Hfirst (Z.to_nat k) tk tk'); [lia|exact Hgk|exact Hgk'].
Qed.

Lemma bracket_contains_query_witness :
  _find_snapshot_indices 6 [5; 2; 8] = ret (1, 2)%Z /\ 1%Z <> 2%Z /\
  2 <= 6 /\ 6 <= 8 /\ interpolation_factor 6 2 8 <= 1.
Proof.
  assert (Hf : _find_snapshot_indices 6 [5; 2; 8] = ret (1, 2)%Z) by reflexivity.
  assert (Hne : 1%Z <> 2%Z) by lia.
  assert (Hi : getitem [5; 2; 8] 1 = ret 2) by reflexivity.
  assert (Hj : getitem [5; 2; 8] 2 = ret 8) by reflexivity.
  destruct (bracket_contains_query [5; 2; 8] 6 1 2 2 8 Hf Hne Hi Hj)
    as [H1 [H2 [_ [H3 _]]]].
  split; [exact Hf|]. split; [exact Hne|]. split; [exact H1|]. split; [exact H2|exact H3].
Defined.

End ResamplerIndices.

(** ** Sorting, indexing and the export loop *)

Section ExportTimeline.

Lemma insert_sorted_Forall (P : Q -> Prop) (x : Q) (l : list Q) :
  P x -> Forall P l -> Forall P (insert_sorted x l).
Proof.
  intros Hx Hl. induction Hl as [|y l Hy Hl IH]; simpl.
  - constructor; [exact Hx|constructor].
  - destruct (Qle_bool x y); constructor; try assumption. constructor; assumption.
Qed.

Lemma insert_sorted_sorted (x : Q) (l : list Q) :
  StronglySorted Qle l -> StronglySorted Qle (insert_sorted x l).
Proof.
  intro Hs. induction Hs as [|y l Hs IH Hy]; simpl.
  - constructor; constructor.
  - destruct (Qle_bool x y) eqn:E.
    + apply Qle_bool_iff in E. constructor; [constructor; assumption|].
      constructor; [exact E|].
      eapply Forall_impl; [|exact Hy]. intros z Hz. cbv beta in Hz. lra.
    + apply Qle_bool_false_iff in E. constructor; [exact IH|].
      apply insert_sorted_Forall; [lra|exact Hy].
Qed.

Lemma sorted_sorted (l : list Q) : StronglySorted Qle (sorted l).
Proof.
  induction l as [|x l IH]; [constructor|].
  unfold sorted. cbn [fold_right]. apply insert_sorted_sorted. exact IH.
Qed.

Lemma nth_error_last (A : Type) (l : list A) (d : A) :
  l <> [] -> nth_error l (length l - 1) = Some (last l d).
Proof.
  intro Hne. induction l as [|a l IH]; [contradiction|].
  destruct l as [|b l]; [reflexivity|].
  replace (length (a :: b :: l) - 1)%nat with (S (length (b :: l) - 1))
    by (simpl; lia).
  cbn [nth_error]. rewrite IH by discriminate. reflexivity.
Qed.

Lemma getitem_last_index (A : Type) (l : list A) (d : A) :
  l <> [] -> getitem l (len l - 1) = ret (last l d).
Proof.
  intro Hne.
  assert (Hl : (1 <= length l)%nat) by (destruct l; [contradiction|simpl; lia]).
  unfold len. replace (Z.of_nat (length l) - 1)%Z with (Z.of_nat (length l - 1)) by lia.
  apply getitem_nat. apply nth_error_last. exact Hne.
Qed.

Lemma getitem_last (A : Type) (l : list A) (d : A) :
  l <> [] -> getitem l (-1) = ret (last l d).
Proof.
  intro Hne. rewrite <- (getitem_last_index A l d Hne).
  assert (Hl : (1 <= length l)%nat) by (destruct l; [contradiction|simpl; lia]).
  unfold getitem, len. change (-1 <? 0)%Z with true. cbv iota.
  assert (E : (Z.of_nat (length l) - 1 <? 0)%Z = false) by (apply Z.ltb_ge; lia).
  rewrite E. replace (-1 + Z.of_nat (length l))%Z with (Z.of_nat (length l) - 1)%Z by lia.
  reflexivity.
Qed.

Lemma getitem_hd (A : Type) (l : list A) (d : A) :
  l <> [] -> getitem l 0 = ret (hd d l).
Proof. intro Hne. destruct l; [contradiction|reflexivity]. Qed.

Lemma truediv_inv (a b c : Q) :
  truediv a b = ret c -> Qeq_bool b 0 = false /\ c = a / b.
Proof.
  unfold truediv. destruct (Qeq_bool b 0); intro H; [discriminate H|].
  inversion H. split; reflexivity.
Qed.


Lemma export_for_video_frame (simulation_snapshots : list (Q * DataFrame))
      (target_duration : Q) (fps : Z) (frames : list frame_info) (k : nat)
      (info : frame_info) :
  export_for_video simulation_snapshots target_duration fps = ret frames ->
  nth_error frames k = Some info ->
  let sorted_times := sorted (map fst simulation_snapshots) in
  (2 <= length sorted_times)%nat /\
  Qeq_bool target_duration 0 = false /\ Qeq_bool (inject_Z fps) 0 = false /\
  (k < Z.to_nat (int (target_duration * inject_Z fps)))%nat /\
  frame_index info = Z.of_nat k /\
  video_time info = inject_Z (Z.of_nat k) / inject_Z fps /\
  simulation_time info =
    hd 0 sorted_times
    + video_time info * ((last sorted_times 0 - hd 0 sorted_times) / target_duration) /\
  exists snapshot_idx,
    _find_snapshot_indices (simulation_time info) sorted_times = ret snapshot_idx /\
    _interpolate_snapshot (simulation_time info) sorted_times simulation_snapshots
                          snapshot_idx = ret (data info).
Proof.
  intros He Hk S. unfold export_for_video in He. fold S in He.
  destruct (len S <? 2)%Z eqn:Hlen; [discriminate He|].
  apply Z.ltb_ge in Hlen. unfold len in Hlen.
  assert (Hne : S <> []) by (intro E; rewrite E in Hlen; simpl in Hlen; lia).
  rewrite (getitem_last _ S 0 Hne), (getitem_hd _ S 0 Hne) in He. cbn [bind ret] in He.
  bind_inv He time_scale Hts. apply truediv_inv in Hts. destruct Hts as [HD Hts].
  pose proof (comprehension_length _ _ _ _ _ He) as Hlf. rewrite range_length in Hlf.
  assert (Hkn : (k < Z.to_nat (int (target_duration * inject_Z fps)))%nat).
  { rewrite <- Hlf. apply nth_error_Some. rewrite Hk. discriminate. }
  pose proof (range_nth _ _ Hkn) as Hr.
  pose proof (comprehension_nth _ _ _ _ _ _ _ _ He Hr Hk) as Hbody. cbv beta in Hbody.
  bind_inv Hbody vt Hvt. apply truediv_inv in Hvt. destruct Hvt as [Hfps Hvt].
  cbn [bind ret] in Hbody.
  bind_inv Hbody idx Hidx. bind_inv Hbody frame_data Hfd.
  inversion Hbody; subst info. cbn [frame_index video_time simulation_time data].
  subst vt time_scale.
  split; [lia|]. split; [exact HD|]. split; [exact Hfps|]. split; [exact Hkn|].
  split; [reflexivity|]. split; [reflexivity|].
  split; [reflexivity|]. exists idx. split; assumption.
Qed.

End ExportTimeline.

(** ** The exporter's frame *)

Section ExporterFrame.

(** X3: [_interpolate_states] is a step function of the blend factor: on
    two identically and uniquely labelled state columns it returns
    [states1] unchanged for every [alpha <= 0.5] and [states2] for every
    [alpha > 0.5]. *)
Theorem interpolate_states_threshold (states1 states2 : Series string) (alpha : Q) :
  labels states1 = labels states2 -> NoDup (labels states2) ->
  (alpha <= 1 # 2 -> _interpolate_states states1 states2 alpha = ret states1) /\
  (1 # 2 < alpha -> _interpolate_states states1 states2 alpha = ret states2).
Proof.
  intros Hl Hnd. split; intro Ha.
  - apply interpolate_states_low; assumption.
  - apply interpolate_states_high; assumption.
Qed.

Lemma interpolate_states_threshold_witness :
  labels front_before_states = labels front_after_states /\
  NoDup (labels front_after_states) /\
  _interpolate_states front_before_states front_after_states (1 # 2)
  = ret front_before_states /\
  _interpolate_states front_before_states front_after_states (51 # 100)
  = ret front_after_states.
Proof.
  assert (Hl : labels front_before_states = labels front_after_states) by reflexivity.
  assert (Hnd : NoDup (labels front_after_states)).
  { repeat constructor; simpl; intuition discriminate. }
  split; [exact Hl|]. split; [exact Hnd|]. split.
  - apply (interpolate_states_threshold _ _ (1 # 2) Hl Hnd). lra.
  - apply (interpolate_states_threshold _ _ (51 # 100) Hl Hnd). lra.
Defined.

Lemma blend_column_same (alpha : Q) (c1 c2 : Series float) :
  labels c1 = labels c2 ->
  blend_column alpha c1 c2 =
    map (fun p : (label * float) * (label * float) =>
           (fst (fst p), fblend alpha (snd (fst p)) (snd (snd p)))) (combine c1 c2).
Proof.
  intro Hl. unfold blend_column.
  apply indexed_same_labels in Hl. rewrite Hl. reflexivity.
Qed.

(** X4: for a blend factor in [[0, 1]] the blend
    [(1 - alpha) * snapshot1[col] + alpha * snapshot2[col]] of two
    identically labelled columns keeps the labels, and at a row where both
    cells hold numbers the blended number lies between the two (in exact
    arithmetic). *)
Theorem blend_column_between (alpha : Q) (c1 c2 : Series float) (p : nat)
        (l : label) (x y : Q) :
  labels c1 = labels c2 -> 0 <= alpha -> alpha <= 1 ->
  nth_error c1 p = Some (l, Some x) -> nth_error c2 p = Some (l, Some y) ->
  labels (blend_column alpha c1 c2) = labels c1 /\
  exists v, nth_error (blend_column alpha c1 c2) p = Some (l, Some v) /\
            (x <= y -> x <= v /\ v <= y) /\ (y <= x -> y <= v /\ v <= x).
Proof.
  intros Hl H0 H1 Hx Hy. rewrite (blend_column_same alpha c1 c2 Hl). split.
  - unfold labels. rewrite map_map. cbn [fst].
    rewrite <- (map_map fst fst). rewrite map_fst_combine; [reflexivity|].
    symmetry. apply same_labels_length. exact Hl.
  - exists ((1 - alpha) * x + alpha * y). split.
    + rewrite nth_error_map.
      assert (Hc : nth_error (combine c1 c2) p = Some ((l, Some x), (l, Some y)))
        by (apply combine_nth_error; split; assumption).
      rewrite Hc. reflexivity.
    + split; intro Hxy; split; nra.
Qed.

End ExporterFrame.

Lemma blend_column_between_witness :
  labels moist_column = labels dry_column /\ 0 <= 1 # 4 /\ 1 # 4 <= 1 /\
  exists v, nth_error (blend_column (1 # 4) moist_column dry_column) 1
            = Some (Tuple 1 0, Some v) /\
            2 # 10 <= v /\ v <= 6 # 10.
Proof.
  assert (Hl : labels moist_column = labels dry_column) by reflexivity.
  assert (H0 : 0 <= 1 # 4) by (unfold Qle; simpl; lia).
  assert (H1 : 1 # 4 <= 1) by (unfold Qle; simpl; lia).
  assert (Hx : nth_error moist_column 1 = Some (Tuple 1 0, Some (6 # 10))) by reflexivity.
  assert (Hy : nth_error dry_column 1 = Some (Tuple 1 0, Some (2 # 10))) by reflexivity.
  destruct (blend_column_between (1 # 4) moist_column dry_column 1 (Tuple 1 0)
                                 (6 # 10) (2 # 10) Hl H0 H1 Hx Hy)
    as [_ [v [Hv [_ Hdown]]]].
  split; [exact Hl|]. split; [exact H0|]. split; [exact H1|].
  exists v. split; [exact Hv|]. apply Hdown. unfold Qle; simpl; lia.
Defined.

Section ExporterColumns.

Lemma fold_blend_state (s1 s2 : DataFrame) (alpha : Q) (names : list string)
      (df : DataFrame) :
  state (fold_left (blend_step s1 s2 alpha) names df) = state df.
Proof.
  revert df. induction names as [|n names IH]; intro df; [reflexivity|].
  cbn [fold_left]. rewrite IH. unfold blend_step.
  destruct (column (columns s1) n), (column (columns s2) n); reflexivity.
Qed.


Lemma interpolate_snapshot_columns (q : Q) (T : list Q) (snapshots : list (Q * DataFrame))
      (i j : Z) (t1 t2 : Q) (snapshot_i snapshot_j frame : DataFrame) :
  i <> j ->
  getitem T i = ret t1 -> getitem T j = ret t2 ->
  dict_get snapshots t1 = ret snapshot_i -> dict_get snapshots t2 = ret snapshot_j ->
  _interpolate_snapshot q T snapshots (i, j) = ret frame ->
  columns frame =
    columns (fold_left (blend_step snapshot_i snapshot_j (interpolation_factor q t1 t2))
                       continuous_cols snapshot_i).
Proof.
  intros Hij Hi Hj Hdi Hdj Hf. unfold _interpolate_snapshot in Hf.
  apply Z.eqb_neq in Hij. rewrite Hij, Hi, Hj in Hf. cbn [bind ret] in Hf.
  rewrite Hdi, Hdj in Hf. cbn [bind ret] in Hf.
  destruct (state snapshot_i) as [s1|].
  - bind_skip Hf s2. bind_skip Hf st. inversion Hf; subst frame. reflexivity.
  - inversion Hf; subst frame. reflexivity.
Qed.

(** X5: in [_interpolate_snapshot] on two different indices the state
    column is looked for in the first snapshot only: when the first
    snapshot has one and the second has none, [snapshot2['state']] raises
    [KeyError]; when the first snapshot has none, the call returns a frame
    without a state column, whatever the second snapshot holds. *)
Theorem interpolate_snapshot_state_column (q : Q) (T : list Q)
        (snapshots : list (Q * DataFrame)) (i j : Z) (t1 t2 : Q)
        (snapshot_i snapshot_j : DataFrame) :
  i <> j ->
  getitem T i = ret t1 -> getitem T j = ret t2 ->
  dict_get snapshots t1 = ret snapshot_i -> dict_get snapshots t2 = ret snapshot_j ->
  (state snapshot_i <> None -> state snapshot_j = None ->
   _interpolate_snapshot q T snapshots (i, j) = raise KeyError) /\
  (state snapshot_i = None ->
   exists frame, _interpolate_snapshot q T snapshots (i, j) = ret frame /\
                 state frame = None).
Proof.
  intros Hij Hi Hj Hdi Hdj. unfold _interpolate_snapshot.
  apply Z.eqb_neq in Hij. rewrite Hij, Hi, Hj. cbn [bind ret].
  rewrite Hdi, Hdj. cbn [bind ret]. split.
  - intros Hsi Hsj. destruct (state snapshot_i) as [s1|]; [|contradiction].
    unfold getitem_state. rewrite Hsj. reflexivity.
  - intro Hsi. rewrite Hsi. eexists. split; [reflexivity|].
    rewrite fold_blend_state. exact Hsi.
Qed.


End ExporterColumns.

Lemma interpolate_snapshot_state_column_witness :
  0%Z <> 1%Z /\
  _interpolate_snapshot (1 # 2) [0; 1] [(0, front_before_fields); (1, stateless)] (0, 1)%Z
  = raise KeyError /\
  exists frame,
    _interpolate_snapshot (1 # 2) [0; 1] [(0, stateless); (1, front_after_fields)] (0, 1)%Z
    = ret frame /\ state frame = None.
Proof.
  assert (Hne : 0%Z <> 1%Z) by discriminate.
  split; [exact Hne|]. split.
  - apply (interpolate_snapshot_state_column (1 # 2) [0; 1]
             [(0, front_before_fields); (1, stateless)] 0 1 0 1
             front_before_fields stateless Hne); try reflexivity.
    discriminate.
  - apply (interpolate_snapshot_state_column (1 # 2) [0; 1]
             [(0, stateless); (1, front_after_fields)] 0 1 0 1
             stateless front_after_fields Hne); reflexivity.
Defined.


Section ExportProperties.

Lemma frame_position (x : Q) (k : nat) :
  (k < Z.to_nat (int x))%nat ->
  0 <= inject_Z (Z.of_nat k) /\ inject_Z (Z.of_nat k) + 1 <= x.
Proof.
  intro Hk. rewrite int_iterations in Hk. split.
  - rewrite <- (Zle_Qle 0). lia.
  - apply Qle_trans with (inject_Z (Qfloor x)); [|apply Qfloor_le].
    change 1 with (inject_Z 1). rewrite <- inject_Z_plus. rewrite <- Zle_Qle. lia.
Qed.

Lemma frame_fraction (kq fps D lo hi : Q) :
  0 <= kq -> kq + 1 <= D * fps -> lo <= hi ->
  lo <= lo + kq / fps * ((hi - lo) / D) /\ lo + kq / fps * ((hi - lo) / D) <= hi.
Proof.
  intros Hk HP Hs.
  assert (HP0 : 0 < D * fps) by lra.
  assert (Hfps : ~ fps == 0) by (intro E; rewrite E in HP0; lra).
  assert (HD : ~ D == 0) by (intro E; rewrite E in HP0; lra).
  assert (Hr : kq / fps * ((hi - lo) / D) == (hi - lo) * (kq / (D * fps)))
    by (field; split; assumption).
  rewrite Hr.
  assert (H01 : 0 <= kq / (D * fps) /\ kq / (D * fps) <= 1)
    by (apply quotient_in_unit; [exact HP0|split; lra]).
  destruct H01 as [Hr0 Hr1]. revert Hr0 Hr1. generalize (kq / (D * fps)). intros r Hr0 Hr1.
  split; nra.
Qed.

Lemma export_frame_in_range (simulation_snapshots : list (Q * DataFrame))
      (target_duration : Q) (fps : Z) (frames : list frame_info) (info : frame_info) :
  export_for_video simulation_snapshots target_duration fps = ret frames ->
  In info frames ->
  let sorted_times := sorted (map fst simulation_snapshots) in
  (2 <= length sorted_times)%nat /\
  hd 0 sorted_times <= simulation_time info /\
  simulation_time info <= last sorted_times 0.
Proof.
  intros He Hin S.
  apply In_nth_error in Hin. destruct Hin as [k Hk].
  destruct (export_for_video_frame _ _ _ _ _ _ He Hk)
    as [Hlen [HD [Hfps [Hkn [_ [Hvt [Hst _]]]]]]].
  fold S in Hlen, Hst.
  destruct (frame_position _ _ Hkn) as [Hk0 Hk1].
  assert (Hs : StronglySorted Qle S) by apply sorted_sorted.
  assert (Hhl : hd 0 S <= last S 0).
  { destruct S as [|a l]; [simpl in Hlen; lia|]. apply sorted_head_le_last. exact Hs. }
  rewrite Hvt in Hst.
  destruct (frame_fraction _ _ _ _ _ Hk0 Hk1 Hhl) as [Hlo Hhi].
  rewrite <- Hst in Hlo, Hhi.
  split; [exact Hlen|]. split; [exact Hlo|exact Hhi].
Qed.

Lemma bracket_in_range (T : list Q) (q : Q) :
  StronglySorted Qle T -> (2 <= length T)%nat -> hd 0 T <= q -> q <= last T 0 ->
  exists i, (0 <= i < len T - 1)%Z /\ _find_snapshot_indices q T = ret (i, (i + 1)%Z).
Proof.
  intros Hs Hlen Hlo Hhi.
  destruct (first_bracket_within T 0 q Hs Hlen Hlo Hhi) as [a Ha].
  exists a. split.
  - destruct (first_bracket_shape _ _ _ _ _ Ha) as [_ Hr]. lia.
  - unfold _find_snapshot_indices. rewrite Ha. reflexivity.
Qed.

(** X7: with two or more snapshots and a target duration of zero,
    [export_for_video] raises [ZeroDivisionError] (from
    [sim_duration / target_duration]), for every [fps]. *)
Theorem export_for_video_zero_duration (simulation_snapshots : list (Q * DataFrame))
        (target_duration : Q) (fps : Z) :
  (2 <= length simulation_snapshots)%nat -> target_duration == 0 ->
  export_for_video simulation_snapshots target_duration fps = raise ZeroDivisionError.
Proof.
  intros Hn HD. unfold export_for_video.
  set (S := sorted (map fst simulation_snapshots)).
  assert (Hl : length S = length simulation_snapshots)
    by (unfold S; rewrite sorted_length, length_map; reflexivity).
  assert (Hlen : (len S <? 2)%Z = false) by (apply Z.ltb_ge; unfold len; lia).
  rewrite Hlen.
  assert (Hne : S <> []) by (intro E; rewrite E in Hl; simpl in Hl; lia).
  rewrite (getitem_last _ S 0 Hne), (getitem_hd _ S 0 Hne). cbn [bind ret].
  unfold truediv. apply Qeq_bool_iff in HD. rewrite HD. reflexivity.
Qed.

Lemma export_for_video_zero_duration_witness :
  (2 <= length [(0%Q, lone_tree); (1%Q, lone_tree)])%nat /\ 0 == 0 /\
  export_for_video [(0%Q, lone_tree); (1%Q, lone_tree)] 0 60 = raise ZeroDivisionError.
Proof.
  assert (Hn : (2 <= length [(0%Q, lone_tree); (1%Q, lone_tree)])%nat) by (simpl; lia).
  assert (HD : 0 == 0) by reflexivity.
  split; [exact Hn|]. split; [exact HD|].
  exact (export_for_video_zero_duration _ 0 60 Hn HD).
Defined.


(** X9: every frame [export_for_video] returns has its simulation time
    between the smallest and the largest snapshot time (in exact
    arithmetic), so [_find_snapshot_indices] gives it a proper bracket
    [(i, i + 1)]: the export never takes the clamp to a single snapshot. *)
Theorem export_for_video_within_range (simulation_snapshots : list (Q * DataFrame))
        (target_duration : Q) (fps : Z) (frames : list frame_info) :
  export_for_video simulation_snapshots target_duration fps = ret frames ->
  let sorted_times := sorted (map fst simulation_snapshots) in
  Forall (fun info =>
            hd 0 sorted_times <= simulation_time info /\
            simulation_time info <= last sorted_times 0 /\
            exists i, (0 <= i < len sorted_times - 1)%Z /\
                      _find_snapshot_indices (simulation_time info) sorted_times
                      = ret (i, (i + 1)%Z))
         frames.
Proof.
  intros He S. apply Forall_forall. intros info Hin.
  destruct (export_frame_in_range _ _ _ _ info He Hin) as [Hlen [Hlo Hhi]].
  split; [exact Hlo|]. split; [exact Hhi|].
  apply bracket_in_range; [apply sorted_sorted|assumption..].
Qed.

End ExportProperties.


Lemma export_for_video_within_range_witness :
  exists frames,
    export_for_video [(0, front_before_fields); (10, front_after_fields)] 1 4 = ret frames /\
    Forall (fun info => 0 <= simulation_time info /\ simulation_time info <= 10) frames.
Proof.
  destruct (export_for_video [(0, front_before_fields); (10, front_after_fields)] 1 4)
    as [e|frames] eqn:He.
  - exfalso. vm_compute in He. discriminate He.
  - exists frames. split; [reflexivity|].
    pose proof (export_for_video_within_range _ 1 4 frames He) as Hr.
    eapply Forall_impl; [|exact Hr].
    intros info [Hlo [Hhi _]]. split; [exact Hlo|exact Hhi].
Defined.

(** ** Exported frames and the snapshots *)

Section ExportedStates.

Lemma dict_get_In (snapshots : list (Q * DataFrame)) (t : Q) (df : DataFrame) :
  dict_get snapshots t = ret df -> exists k, In (k, df) snapshots /\ k == t.
Proof.
  induction snapshots as [|[k d] rest IH]; intro H; [discriminate H|].
  cbn [dict_get] in H. destruct (Qeq_bool k t) eqn:E.
  - inversion H; subst d. exists k. split; [left; reflexivity|].
    apply Qeq_bool_iff. exact E.
  - destruct (IH H) as [k' [Hin Hk]]. exists k'. split; [right; exact Hin|exact Hk].
Qed.



(** X11: if the state columns of the input snapshots carry unique labels,
    the state column of every frame [export_for_video] returns is, whole,
    the state column of one of the input snapshots: the export never
    produces a state grid that mixes two snapshots. *)
Theorem export_for_video_states_are_snapshots
        (simulation_snapshots : list (Q * DataFrame)) (target_duration : Q) (fps : Z)
        (frames : list frame_info) :
  export_for_video simulation_snapshots target_duration fps = ret frames ->
  (forall t snapshot states, In (t, snapshot) simulation_snapshots ->
                             state snapshot = Some states -> NoDup (labels states)) ->
  forall info states,
    In info frames -> state (data info) = Some states ->
    exists t snapshot, In (t, snapshot) simulation_snapshots /\
                       state snapshot = Some states.
Proof.
  intros He Hnd info st Hin Hst.
  destruct (export_frame_in_range _ _ _ _ info He Hin) as [Hlen [Hlo Hhi]].
  destruct (bracket_in_range _ _ (sorted_sorted _) Hlen Hlo Hhi) as [i [Hi Hfind]].
  apply In_nth_error in Hin. destruct Hin as [k Hk].
  destruct (export_for_video_frame _ _ _ _ _ _ He Hk)
    as [_ [_ [_ [_ [_ [_ [_ [idx [Hidx Hdata]]]]]]]]].
  rewrite Hfind in Hidx. inversion Hidx; subst idx. clear Hidx.
  unfold _interpolate_snapshot in Hdata.
  assert (Eij : (i =? i + 1)%Z = false) by (apply Z.eqb_neq; lia).
  rewrite Eij in Hdata.
  bind_inv Hdata t1 Ht1. bind_inv Hdata t2 Ht2.
  bind_inv Hdata s1 Hs1. bind_inv Hdata s2 Hs2.
  destruct (dict_get_In _ _ _ Hs1) as [k1 [Hin1 _]].
  destruct (dict_get_In _ _ _ Hs2) as [k2 [Hin2 _]].
  destruct (state s1) as [states1|] eqn:Est1.
  - bind_inv Hdata states2 Hst2. apply getitem_state_inv in Hst2.
    bind_inv Hdata r Hr. inversion Hdata as [Hd]. rewrite <- Hd in Hst.
    cbn [state] in Hst. inversion Hst; subst r.
    destruct (interpolate_states_inv _ _ _ _ Hr) as [Hl _].
    destruct (Qlt_le_dec (1 # 2) (interpolation_factor (simulation_time info) t1 t2))
      as [Hhigh|Hlow].
    + rewrite (interpolate_states_high _ _ _ Hl (Hnd _ _ _ Hin2 Hst2) Hhigh) in Hr.
      inversion Hr; subst st. exists k2, s2. split; assumption.
    + rewrite (interpolate_states_low _ _ _ Hl Hlow) in Hr.
      inversion Hr; subst st. exists k1, s1. split; assumption.
  - exfalso.
    assert (Hd : data info
                 = fold_left (blend_step s1 s2
                                (interpolation_factor (simulation_time info) t1 t2))
                             continuous_cols s1)
      by (unfold ret in Hdata; congruence).
    rewrite Hd, fold_blend_state in Hst. congruence.
Qed.

(** X12: every frame [export_for_video] returns is the blend of two
    snapshots at neighbouring sorted times [t1 <= t2] that enclose the
    frame's simulation time: the blend factor lies in [[0, 1]], and every
    continuous column present in both snapshots is
    [(1 - alpha) * snapshot1[col] + alpha * snapshot2[col]] in the
    frame. *)
Theorem export_for_video_frames_are_blends
        (simulation_snapshots : list (Q * DataFrame)) (target_duration : Q) (fps : Z)
        (frames : list frame_info) (info : frame_info) :
  export_for_video simulation_snapshots target_duration fps = ret frames ->
  In info frames ->
  let sorted_times := sorted (map fst simulation_snapshots) in
  exists i t1 t2 snapshot1 snapshot2,
    (0 <= i < len sorted_times - 1)%Z /\
    getitem sorted_times i = ret t1 /\ getitem sorted_times (i + 1) = ret t2 /\
    dict_get simulation_snapshots t1 = ret snapshot1 /\
    dict_get simulation_snapshots t2 = ret snapshot2 /\
    t1 <= simulation_time info /\ simulation_time info <= t2 /\
    0 <= interpolation_factor (simulation_time info) t1 t2 /\
    interpolation_factor (simulation_time info) t1 t2 <= 1 /\
    forall col c1 c2,
      In col continuous_cols ->
      column (columns snapshot1) col = Some c1 ->
      column (columns snapshot2) col = Some c2 ->
      column (columns (data info)) col
      = Some (blend_column (interpolation_factor (simulation_time info) t1 t2) c1 c2).
Proof.
  intros He Hin S.
  destruct (export_frame_in_range _ _ _ _ info He Hin) as [Hlen [Hlo Hhi]].
  destruct (bracket_in_range _ _ (sorted_sorted _) Hlen Hlo Hhi) as [i [Hi Hfind]].
  fold S in Hfind, Hi.
  apply In_nth_error in Hin. destruct Hin as [k Hk].
  destruct (export_for_video_frame _ _ _ _ _ _ He Hk)
    as [_ [_ [_ [_ [_ [_ [_ [idx [Hidx Hdata]]]]]]]]].
  fold S in Hidx, Hdata.
  rewrite Hfind in Hidx. inversion Hidx; subst idx. clear Hidx.
  assert (Hne : i <> (i + 1)%Z) by lia.
  pose proof Hdata as Hd. unfold _interpolate_snapshot in Hd.
  assert (Eij : (i =? i + 1)%Z = false) by (apply Z.eqb_neq; lia).
  rewrite Eij in Hd.
  bind_inv Hd t1 Ht1. bind_inv Hd t2 Ht2.
  bind_inv Hd s1 Hs1. bind_inv Hd s2 Hs2. clear Hd.
  destruct (find_bracket_sound S _ i (i + 1) t1 t2 Hfind Hne Ht1 Ht2)
    as [_ [_ [Hq1 [Hq2 _]]]].
  destruct (bracket_factor_in_unit _ t1 t2 Hq1 Hq2) as [Ha0 Ha1].
  exists i, t1, t2, s1, s2. split; [exact Hi|].
  split; [exact Ht1|]. split; [exact Ht2|]. split; [exact Hs1|]. split; [exact Hs2|].
  split; [exact Hq1|]. split; [exact Hq2|]. split; [exact Ha0|]. split; [exact Ha1|].
  intros col c1 c2 Hcol Hc1 Hc2.
  rewrite (interpolate_snapshot_columns _ S simulation_snapshots i (i + 1) t1 t2 s1 s2
                                        (data info) Hne Ht1 Ht2 Hs1 Hs2 Hdata).
  apply fold_blend_column; [exact continuous_cols_NoDup|assumption..].
Qed.

End ExportedStates.

Lemma export_for_video_states_are_snapshots_witness :
  exists frames,
    export_for_video [(0, front_before_fields); (10, front_after_fields)] 1 4 = ret frames /\
    forall info states,
      In info frames -> state (data info) = Some states ->
      states = front_before_states \/ states = front_after_states.
Proof.
  destruct (export_for_video [(0, front_before_fields); (10, front_after_fields)] 1 4)
    as [e|frames] eqn:He.
  - exfalso. vm_compute in He. discriminate He.
  - exists frames. split; [reflexivity|].
    assert (Hnd : forall t snapshot states,
               In (t, snapshot) [(0, front_before_fields); (10, front_after_fields)] ->
               state snapshot = Some states -> NoDup (labels states)).
    { intros t snapshot states [E|[E|[]]] Hs; inversion E; subst snapshot;
        inversion Hs; repeat constructor; simpl; intuition discriminate. }
    intros info states Hin Hs.
    destruct (export_for_video_states_are_snapshots _ 1 4 frames He Hnd info states Hin Hs)
      as [t [snapshot [[E|[E|[]]] Hst]]]; inversion E; subst snapshot;
      inversion Hst; [left|right]; reflexivity.
Defined.

Lemma export_for_video_frames_are_blends_witness :
  exists frames info,
    export_for_video [(0, front_before_fields); (10, front_after_fields)] 1 4 = ret frames /\
    nth_error frames 1 = Some info /\
    exists t1 t2 snapshot1 snapshot2,
      dict_get [(0, front_before_fields); (10, front_after_fields)] t1 = ret snapshot1 /\
      dict_get [(0, front_before_fields); (10, front_after_fields)] t2 = ret snapshot2 /\
      t1 <= simulation_time info /\ simulation_time info <= t2 /\
      0 <= interpolation_factor (simulation_time info) t1 t2 /\
      interpolation_factor (simulation_time info) t1 t2 <= 1.
Proof.
  destruct (export_for_video [(0, front_before_fields); (10, front_after_fields)] 1 4)
    as [e|frames] eqn:He.
  { exfalso. vm_compute in He. discriminate He. }
  destruct (nth_error frames 1) as [info|] eqn:Hn.
  2: { exfalso. vm_compute in He. inversion He; subst frames. discriminate Hn. }
  exists frames, info. split; [reflexivity|]. split; [exact Hn|].
  destruct (export_for_video_frames_are_blends _ 1 4 frames info He (nth_error_In _ _ Hn))
    as [i [t1 [t2 [s1 [s2 [_ [_ [_ [Hs1 [Hs2 [Hq1 [Hq2 [Ha0 [Ha1 _]]]]]]]]]]]]]].
  exists t1, t2, s1, s2.
  split; [exact Hs1|]. split; [exact Hs2|]. split; [exact Hq1|]. split; [exact Hq2|].
  split; [exact Ha0|exact Ha1].
Defined.

(** ** The scenario comparison *)

Section ScenarioComparison.




End ScenarioComparison.


(** ** The state grid *)

Section StateGrid.

Lemma axis_index_wrap (n : nat) (i : Z) :
  (- Z.of_nat n <= i < Z.of_nat n)%Z ->
  Np.axis_index n i = ret (Z.to_nat (wrap (Z.of_nat n) i)).
Proof.
  intro H. unfold Np.axis_index, wrap. destruct (i <? 0)%Z eqn:E.
  - apply Z.ltb_lt in E.
    assert (E1 : (i + Z.of_nat n <? 0)%Z = false) by (apply Z.ltb_ge; lia).
    assert (E2 : (Z.of_nat n <=? i + Z.of_nat n)%Z = false) by (apply Z.leb_gt; lia).
    rewrite E1, E2. reflexivity.
  - apply Z.ltb_ge in E.
    assert (E1 : (i <? 0)%Z = false) by (apply Z.ltb_ge; lia).
    assert (E2 : (Z.of_nat n <=? i)%Z = false) by (apply Z.leb_gt; lia).
    rewrite E1, E2. reflexivity.
Qed.

Lemma axis_index_outside (n : nat) (i : Z) :
  ~ (- Z.of_nat n <= i < Z.of_nat n)%Z -> Np.axis_index n i = raise IndexError.
Proof.
  intro H. unfold Np.axis_index. destruct (i <? 0)%Z eqn:E.
  - apply Z.ltb_lt in E.
    assert (E1 : (i + Z.of_nat n <? 0)%Z = true) by (apply Z.ltb_lt; lia).
    rewrite E1. reflexivity.
  - apply Z.ltb_ge in E.
    assert (E1 : (i <? 0)%Z = false) by (apply Z.ltb_ge; lia).
    assert (E2 : (Z.of_nat n <=? i)%Z = true) by (apply Z.leb_le; lia).
    rewrite E1, E2. reflexivity.
Qed.

Lemma wrap_inside (n i : Z) : (- n <= i < n)%Z -> (0 <= wrap n i < n)%Z.
Proof. intro H. unfold wrap. destruct (i <? 0)%Z eqn:E; lia. Qed.

Lemma update_nth_same (A : Type) (l : list A) (n : nat) (f : A -> A) (d : A) :
  (n < length l)%nat -> nth n (Np.update l n f) d = f (nth n l d).
Proof.
  revert n. induction l as [|a l IH]; intros [|n] H; simpl in *; try lia.
  - reflexivity.
  - apply IH. lia.
Qed.

Lemma update_nth_other (A : Type) (l : list A) (n m : nat) (f : A -> A) (d : A) :
  n <> m -> nth m (Np.update l n f) d = nth m l d.
Proof.
  revert n m. induction l as [|a l IH]; intros [|n] [|m] H; simpl; try reflexivity.
  - contradiction.
  - apply IH. lia.
Qed.

Lemma cell_update (A : Type) (h w : nat) (grid : list (list A)) (r c r' c' : nat)
      (v d : A) :
  has_shape h w grid -> (r < h)%nat -> (c < w)%nat ->
  cell (Np.update grid r (fun row => Np.update row c (fun _ => v))) r' c' d
  = if Nat.eqb r r' && Nat.eqb c c' then v else cell grid r' c' d.
Proof.
  intros Hs Hr Hc. unfold cell.
  destruct (Nat.eqb r r') eqn:Er.
  - apply Nat.eqb_eq in Er. subst r'.
    rewrite update_nth_same by (rewrite (proj1 Hs); exact Hr).
    destruct (Nat.eqb c c') eqn:Ec; cbn [andb].
    + apply Nat.eqb_eq in Ec. subst c'.
      rewrite update_nth_same; [reflexivity|].
      rewrite (has_shape_nth _ h w grid r Hs Hr). exact Hc.
    + apply Nat.eqb_neq in Ec. apply update_nth_other. exact Ec.
  - apply Nat.eqb_neq in Er. cbn [andb]. rewrite update_nth_other by exact Er.
    reflexivity.
Qed.

Lemma setitem2_wrap (A : Type) (h w : nat) (grid : list (list A)) (y x : Z) (v : A) :
  has_shape h w grid ->
  (- Z.of_nat h <= y < Z.of_nat h)%Z -> (- Z.of_nat w <= x < Z.of_nat w)%Z ->
  Np.setitem2 grid y x v =
    ret (Np.update grid (Z.to_nat (wrap (Z.of_nat h) y))
                   (fun row => Np.update row (Z.to_nat (wrap (Z.of_nat w) x)) (fun _ => v))).
Proof.
  intros Hs Hy Hx. unfold Np.setitem2. rewrite (proj1 Hs).
  rewrite axis_index_wrap by exact Hy. cbn [bind ret].
  rewrite (has_shape_nth _ h w grid _ Hs) by (pose proof (wrap_inside _ _ Hy); lia).
  rewrite axis_index_wrap by exact Hx. reflexivity.
Qed.

Lemma setitem2_outside (A : Type) (h w : nat) (grid : list (list A)) (y x : Z) (v : A) :
  has_shape h w grid ->
  ~ ((- Z.of_nat h <= y < Z.of_nat h)%Z /\ (- Z.of_nat w <= x < Z.of_nat w)%Z) ->
  Np.setitem2 grid y x v = raise IndexError.
Proof.
  intros Hs Hout. unfold Np.setitem2. rewrite (proj1 Hs).
  destruct (Z_le_dec (- Z.of_nat h) y) as [Hy1|Hy1];
    [destruct (Z_lt_dec y (Z.of_nat h)) as [Hy2|Hy2]|].
  - rewrite axis_index_wrap by lia. cbn [bind ret].
    rewrite (has_shape_nth _ h w grid _ Hs)
      by (pose proof (wrap_inside (Z.of_nat h) y); lia).
    rewrite axis_index_outside by lia. reflexivity.
  - rewrite axis_index_outside by lia. reflexivity.
  - rewrite axis_index_outside by lia. reflexivity.
Qed.

Lemma cell_zeros (height width : Z) (grid : list (list Z)) (r c : nat) :
  Np.zeros height width = ret grid -> cell grid r c 0%Z = 0%Z.
Proof.
  unfold Np.zeros. destruct ((height <? 0)%Z || (width <? 0)%Z); intro H; [discriminate H|].
  inversion H; subst grid. unfold cell.
  destruct (Nat.lt_ge_cases r (Z.to_nat height)) as [Hr|Hr].
  - rewrite nth_indep with (d' := repeat 0%Z (Z.to_nat width)).
    + rewrite nth_repeat. apply nth_repeat.
    + rewrite repeat_length. exact Hr.
  - replace (nth r (repeat (repeat 0%Z (Z.to_nat width)) (Z.to_nat height)) [])
      with (@nil Z)
      by (symmetry; apply nth_overflow; rewrite repeat_length; exact Hr).
    destruct c; reflexivity.
Qed.

Lemma label_cell (width : Z) (l : label) :
  width <> 0%Z ->
  (match l with
   | Tuple x y => ret (x, y)
   | Int i => if (width =? 0)%Z then raise ZeroDivisionError
              else ret ((i mod width)%Z, (i / width)%Z)
   end) = ret (cell_of width l).
Proof.
  intro Hw. destruct l as [x y|i]; [reflexivity|].
  assert (E : (width =? 0)%Z = false) by (apply Z.eqb_neq; exact Hw).
  rewrite E. reflexivity.
Qed.

Lemma for_each_cells (states : Series string) (width height : Z) (g : list (list Z)) :
  Forall (addressable width height) (labels states) ->
  NoDup (map (grid_position width height) (labels states)) ->
  has_shape (Z.to_nat height) (Z.to_nat width) g ->
  exists grid,
    for_each states
      (fun grid item =>
         let '(idx, st) := item in
         '(x, y) <- match idx with
                    | Tuple x y => ret (x, y)
                    | Int i =>
                        if (width =? 0)%Z then raise ZeroDivisionError
                        else ret ((i mod width)%Z, (i / width)%Z)
                    end ;;
         Np.setitem2 grid y x (state_map st))
      g = ret grid /\
    has_shape (Z.to_nat height) (Z.to_nat width) grid /\
    (forall l st, In (l, st) states ->
       cell grid (fst (grid_position width height l)) (snd (grid_position width height l)) 0%Z
       = state_map st) /\
    (forall r c, ~ In (r, c) (map (grid_position width height) (labels states)) ->
       cell grid r c 0%Z = cell g r c 0%Z).
Proof.
  revert g. induction states as [|[l st] states IH]; intros g Hall Hnd Hs.
  - exists g. split; [reflexivity|]. split; [exact Hs|]. split.
    + intros ? ? [].
    + reflexivity.
  - cbn [labels map fst] in Hall, Hnd. inversion Hall as [|? ? Hl Hall']; subst.
    inversion Hnd as [|? ? Hfresh Hnd']; subst.
    cbn [for_each].
    assert (Hw : width <> 0%Z) by (destruct Hl as [Hx _]; lia).
    rewrite (label_cell width l Hw). cbn [bind ret].
    pose proof Hl as [Hx Hy].
    assert (Hpos : grid_position width height l
                   = (Z.to_nat (wrap height (snd (cell_of width l))),
                      Z.to_nat (wrap width (fst (cell_of width l))))) by reflexivity.
    destruct (cell_of width l) as [x y] eqn:Hc. cbn [fst snd] in Hx, Hy, Hpos.
    assert (Hh0 : (0 <= height)%Z) by lia. assert (Hw0 : (0 <= width)%Z) by lia.
    rewrite (setitem2_wrap _ _ _ g y x (state_map st) Hs)
      by (rewrite Z2Nat.id by assumption; assumption).
    rewrite !Z2Nat.id by assumption. cbn [bind ret].
    set (r0 := Z.to_nat (wrap height y)) in *. set (c0 := Z.to_nat (wrap width x)) in *.
    assert (Hr0 : (r0 < Z.to_nat height)%nat)
      by (pose proof (wrap_inside _ _ Hy); unfold r0; lia).
    assert (Hc0 : (c0 < Z.to_nat width)%nat)
      by (pose proof (wrap_inside _ _ Hx); unfold c0; lia).
    destruct (IH (Np.update g r0 (fun row => Np.update row c0 (fun _ => state_map st)))
                 Hall' Hnd' (update_shape _ _ _ g r0 c0 (state_map st) Hs))
      as [grid [Hg [Hsg [Hin Hout]]]].
    exists grid. split; [exact Hg|]. split; [exact Hsg|]. split.
    + intros l' st' [E|Hin'].
      * inversion E; subst l' st'. rewrite Hpos. cbn [fst snd].
        rewrite Hout by (rewrite <- Hpos; exact Hfresh).
        rewrite (cell_update _ _ _ g r0 c0 r0 c0 _ _ Hs Hr0 Hc0).
        rewrite !Nat.eqb_refl. reflexivity.
      * apply Hin. exact Hin'.
    + intros r c Hnot. rewrite Hout by (intro H; apply Hnot; right; exact H).
      rewrite (cell_update _ _ _ g r0 c0 r c _ _ Hs Hr0 Hc0).
      destruct (Nat.eqb r0 r && Nat.eqb c0 c) eqn:E; [|reflexivity].
      exfalso. apply andb_true_iff in E. destruct E as [E1 E2].
      apply Nat.eqb_eq in E1. apply Nat.eqb_eq in E2. subst r c.
      apply Hnot. left. exact Hpos.
Qed.

(** X14: [_states_to_grid] on labels that numpy can address in a
    [height] x [width] grid (each coordinate from [-size] to [size - 1],
    negative ones counted from the far edge) and that address pairwise
    different cells returns a [height] x [width] grid which holds, at the
    cell of every row of the Series, the code of that row's state, and [0]
    at every cell no label addresses. *)
Theorem states_to_grid_cells (states : Series string) (width height : Z) :
  (0 <= height)%Z -> (0 <= width)%Z ->
  Forall (addressable width height) (labels states) ->
  NoDup (map (grid_position width height) (labels states)) ->
  exists grid,
    _states_to_grid states width height = ret grid /\
    has_shape (Z.to_nat height) (Z.to_nat width) grid /\
    (forall l st, In (l, st) states ->
       cell grid (fst (grid_position width height l)) (snd (grid_position width height l)) 0%Z
       = state_map st) /\
    (forall r c, ~ In (r, c) (map (grid_position width height) (labels states)) ->
       cell grid r c 0%Z = 0%Z).
Proof.
  intros Hh Hw Hall Hnd. unfold _states_to_grid.
  destruct (zeros_shape height width Hh Hw) as [g0 [Hz Hs0]].
  rewrite Hz. cbn [bind ret].
  destruct (for_each_cells states width height g0 Hall Hnd Hs0)
    as [grid [Hg [Hsg [Hin Hout]]]].
  exists grid. split; [exact Hg|]. split; [exact Hsg|]. split; [exact Hin|].
  intros r c Hnot. rewrite (Hout r c Hnot). apply (cell_zeros height width). exact Hz.
Qed.

Lemma for_each_off_grid (states : Series string) (width height : Z) (g : list (list Z))
      (l : label) :
  (0 <= height)%Z -> (0 < width)%Z ->
  has_shape (Z.to_nat height) (Z.to_nat width) g ->
  In l (labels states) -> ~ addressable width height l ->
  for_each states
    (fun grid item =>
       let '(idx, st) := item in
       '(x, y) <- match idx with
                  | Tuple x y => ret (x, y)
                  | Int i =>
                      if (width =? 0)%Z then raise ZeroDivisionError
                      else ret ((i mod width)%Z, (i / width)%Z)
                  end ;;
       Np.setitem2 grid y x (state_map st))
    g = raise IndexError.
Proof.
  intros Hh Hw. revert g. induction states as [|[l' st] states IH]; intros g Hs Hin Hout.
  - destruct Hin.
  - cbn [for_each]. rewrite (label_cell width l') by lia. cbn [bind ret].
    destruct (cell_of width l') as [x y] eqn:Hc.
    destruct (Z_le_dec (- height) y) as [Hy1|Hy1];
      [destruct (Z_lt_dec y height) as [Hy2|Hy2];
       [destruct (Z_le_dec (- width) x) as [Hx1|Hx1];
        [destruct (Z_lt_dec x width) as [Hx2|Hx2]|]|]|].
    2-5: rewrite (setitem2_outside _ _ _ g y x (state_map st) Hs) by lia; reflexivity.
    rewrite (setitem2_wrap _ _ _ g y x (state_map st) Hs) by lia. cbn [bind ret].
    apply IH.
    + apply update_shape. exact Hs.
    + cbn [labels map fst] in Hin. destruct Hin as [E|Hin]; [|exact Hin].
      exfalso. subst l'. apply Hout. unfold addressable. rewrite Hc. cbn [fst snd]. lia.
    + exact Hout.
Qed.

(** X15: on a grid of positive width, [_states_to_grid] raises
    [IndexError] as soon as one label of the Series lies outside what
    numpy can address ([-width <= x < width], [-height <= y < height]),
    wherever in the Series the label stands. *)
Theorem states_to_grid_off_grid (states : Series string) (width height : Z) (l : label) :
  (0 <= height)%Z -> (0 < width)%Z ->
  In l (labels states) -> ~ addressable width height l ->
  _states_to_grid states width height = raise IndexError.
Proof.
  intros Hh Hw Hin Hout. unfold _states_to_grid.
  destruct (zeros_shape height width Hh (Z.lt_le_incl _ _ Hw)) as [g0 [Hz Hs0]].
  rewrite Hz. cbn [bind ret].
  apply (for_each_off_grid states width height g0 l); assumption.
Qed.

End StateGrid.

Lemma states_to_grid_cells_witness :
  Forall (addressable 2 2) (labels corner_states) /\
  NoDup (map (grid_position 2 2) (labels corner_states)) /\
  exists grid,
    _states_to_grid corner_states 2 2 = ret grid /\
    cell grid 0 0 0%Z = 1%Z /\ cell grid 1 1 0%Z = 2%Z /\ cell grid 0 1 0%Z = 0%Z.
Proof.
  assert (Ha : Forall (addressable 2 2) (labels corner_states)).
  { repeat constructor; simpl; lia. }
  assert (Hnd : NoDup (map (grid_position 2 2) (labels corner_states))).
  { repeat constructor; simpl; intuition discriminate. }
  assert (Hh : (0 <= 2)%Z) by lia.
  destruct (states_to_grid_cells corner_states 2 2 Hh Hh Ha Hnd)
    as [grid [Hg [_ [Hin Hout]]]].
  split; [exact Ha|]. split; [exact Hnd|].
  exists grid. split; [exact Hg|]. split; [|split].
  - apply (Hin (Tuple 0 0) "Tree"%string). left. reflexivity.
  - apply (Hin (Tuple (-1) (-1)) "Burning"%string). right. left. reflexivity.
  - apply (Hout 0%nat 1%nat). simpl. intuition discriminate.
Defined.

Lemma states_to_grid_off_grid_witness :
  In (Tuple 1 1) (labels [(Tuple 0 0, "Tree"%string); (Tuple 1 1, "Burning"%string)]) /\
  ~ addressable 1 1 (Tuple 1 1) /\
  _states_to_grid [(Tuple 0 0, "Tree"%string); (Tuple 1 1, "Burning"%string)] 1 1
  = raise IndexError.
Proof.
  assert (Hin : In (Tuple 1 1)
                   (labels [(Tuple 0 0, "Tree"%string); (Tuple 1 1, "Burning"%string)]))
    by (right; left; reflexivity).
  assert (Hout : ~ addressable 1 1 (Tuple 1 1)) by (unfold addressable; simpl; lia).
  split; [exact Hin|]. split; [exact Hout|].
  apply (states_to_grid_off_grid _ 1 1 (Tuple 1 1)); [lia|lia|exact Hin|exact Hout].
Defined.

(** ** Ignition thresholds *)

Section Probabilities.

Variable gaussian_filter : list (list Q) -> Q -> list (list Q).

Lemma clip_bounds (x lo hi : Q) : lo <= hi -> lo <= Np.clip x lo hi /\ Np.clip x lo hi <= hi.
Proof.
  intro H. unfold Np.clip.
  destruct (Qlt_bool x lo) eqn:E1; [split; lra|].
  apply Qlt_bool_false_iff in E1.
  destruct (Qlt_bool hi x) eqn:E2; [split; lra|].
  apply Qlt_bool_false_iff in E2. split; lra.
Qed.

Lemma In_imap_from (A B : Type) (f : nat -> A -> B) (n : nat) (l : list A) (b : B) :
  In b (imap_from n f l) -> exists i a, b = f i a.
Proof.
  revert n. induction l as [|a l IH]; intros n H; [destruct H|].
  cbn [imap_from] in H. destruct H as [H|H].
  - exists n, a. symmetry. exact H.
  - apply (IH (S n)). exact H.
Qed.

(** X16: every entry of the array [_create_fire_front_probability]
    returns lies in [[0, 1]], whatever the Gaussian filter returns and
    whatever noise is drawn. *)
Theorem fire_front_probability_in_unit (states_before states_after : Series string)
        (width height : Z) (alpha : Q) (rng : draws) (probability : list Q) :
  _create_fire_front_probability gaussian_filter states_before states_after
                                 width height alpha rng = ret probability ->
  Forall (fun p => 0 <= p /\ p <= 1) probability.
Proof.
  intro H.
  destruct (create_fire_front_probability_inv gaussian_filter _ _ _ _ _ _ _ H)
    as [grid [_ Hp]].
  subst probability. unfold ignition_thresholds, Np.flatten.
  apply Forall_forall. intros p Hin.
  apply in_concat in Hin. destruct Hin as [row [Hrow Hp]].
  unfold imap in Hrow. apply In_imap_from in Hrow. destruct Hrow as [r [row0 Hrow]].
  subst row. unfold imap in Hp. apply In_imap_from in Hp. destruct Hp as [c [v Hp]].
  subst p. apply clip_bounds. lra.
Qed.

End Probabilities.

Lemma fire_front_probability_in_unit_witness :
  exists probability,
    _create_fire_front_probability mean_filter front_before_states front_after_states
                                   2 1 (1 # 2) fixed_draws = ret probability /\
    Forall (fun p => 0 <= p /\ p <= 1) probability.
Proof.
  destruct (_create_fire_front_probability mean_filter front_before_states
              front_after_states 2 1 (1 # 2) fixed_draws) as [e|probability] eqn:Hp.
  - exfalso. vm_compute in Hp. discriminate Hp.
  - exists probability. split; [reflexivity|].
    exact (fire_front_probability_in_unit mean_filter _ _ _ _ _ _ probability Hp).
Defined.

(** ** The field interpolator outside the timestamp range *)

Section OutsideRange.

Variable outer_join : list label -> list label -> list label.
Variable gaussian_filter : list (list Q) -> Q -> list (list Q).

Lemma surrounding_indices_outside (T : list Q) (q : Q) :
  StronglySorted Qle T -> q < hd 0 T \/ last T 0 < q ->
  surrounding_indices T q = (0, len T - 1)%Z.
Proof.
  intros Hs Hq. unfold surrounding_indices.
  destruct Hq as [Hq|Hq].
  - rewrite (first_bracket_below T 0 q Hs Hq). reflexivity.
  - rewrite (first_bracket_above T 0 q Hs Hq). reflexivity.
Qed.

Lemma outside_bracket_states (snapshots : list DataFrame) (T : list Q) (q : Q)
      (first final : DataFrame) (states_first states_final : Series string) :
  StronglySorted Qle T -> q < hd 0 T \/ last T 0 < q ->
  getitem snapshots 0 = ret first -> state first = Some states_first ->
  getitem snapshots (len T - 1) = ret final -> state final = Some states_final ->
  bracket_states snapshots T q states_first states_final.
Proof.
  intros Hs Hq Hf Hsf Hl Hsl. unfold bracket_states.
  rewrite (surrounding_indices_outside T q Hs Hq). cbn [fst snd].
  exists first, final. repeat split; assumption.
Qed.

(** X17: for sorted timestamps (two or more) and a target time before
    the first of them, [_interpolate_fire_states] returns the state column
    of the first snapshot unchanged, for all draws; the last snapshot must
    be present with a state column, because the code reads it. *)
Theorem interpolate_fire_states_before_range (snapshots : list DataFrame) (T : list Q)
        (q : Q) (width height : Z) (rng : draws) (first final : DataFrame)
        (states_first states_final : Series string) :
  StronglySorted Qle T -> (2 <= length T)%nat -> q < hd 0 T ->
  getitem snapshots 0 = ret first -> state first = Some states_first ->
  getitem snapshots (len T - 1) = ret final -> state final = Some states_final ->
  _interpolate_fire_states outer_join gaussian_filter snapshots T q width height rng
  = ret states_first.
Proof.
  intros Hs Hn Hq Hf Hsf Hl Hsl.
  assert (Hne : T <> []) by (intro E; rewrite E in Hn; simpl in Hn; lia).
  assert (Hsi : surrounding_indices T q = (0, len T - 1)%Z)
    by (apply surrounding_indices_outside; [exact Hs|left; exact Hq]).
  assert (Hhl : hd 0 T <= last T 0).
  { destruct T as [|a l]; [contradiction|]. apply sorted_head_le_last. exact Hs. }
  apply (fire_states_nonpositive outer_join gaussian_filter snapshots T q width height rng
                                 states_first states_final (hd 0 T) (last T 0)).
  - apply (outside_bracket_states snapshots T q first final); try assumption.
    left; exact Hq.
  - rewrite Hsi. cbn [fst snd]. unfold len. lia.
  - rewrite Hsi. cbn [fst]. apply getitem_hd. exact Hne.
  - rewrite Hsi. cbn [snd]. apply getitem_last_index. exact Hne.
  - destruct (Qeq_dec (hd 0 T) (last T 0)) as [He|Hne'].
    + rewrite (interpolation_factor_equal q _ _ He). lra.
    + rewrite (interpolation_factor_distinct q _ _ Hne').
      assert (Hd : 0 < last T 0 - hd 0 T).
      { destruct (Qlt_le_dec (hd 0 T) (last T 0)) as [?|?]; [lra|].
        exfalso. apply Hne'. lra. }
      apply Qle_shift_div_r; [exact Hd|]. lra.
Qed.

(** X18: for sorted timestamps and a target time after the last of them,
    [_interpolate_fire_states] does not fall back to the last snapshot: it
    pairs the first snapshot with the last one, so whatever it returns has
    the rows of the first snapshot, each either unchanged or moved one
    step (Tree to Burning, Burning to Burnt) towards the last; a cell that
    is Tree in the first snapshot and Burnt in the last is still Tree
    (labels unique). *)
Theorem interpolate_fire_states_after_range (snapshots : list DataFrame) (T : list Q)
        (q : Q) (width height : Z) (rng : draws) (first final : DataFrame)
        (states_first states_final r : Series string) :
  StronglySorted Qle T -> last T 0 < q ->
  getitem snapshots 0 = ret first -> state first = Some states_first ->
  getitem snapshots (len T - 1) = ret final -> state final = Some states_final ->
  _interpolate_fire_states outer_join gaussian_filter snapshots T q width height rng
  = ret r ->
  transition_rows states_first states_final r /\
  (NoDup (labels states_first) -> NoDup (labels states_final) ->
   forall l, In (l, "Tree"%string) states_first -> In (l, "Burnt"%string) states_final ->
             forall a, In (l, a) r -> a = "Tree"%string).
Proof.
  intros Hs Hq Hf Hsf Hl Hsl Hr.
  destruct (interpolate_fire_states_inv outer_join gaussian_filter _ _ _ _ _ _ _ Hr)
    as [sb [sa [Hbr Hrows]]].
  assert (Hbr' : bracket_states snapshots T q states_first states_final)
    by (apply (outside_bracket_states snapshots T q first final); try assumption;
        right; exact Hq).
  destruct (bracket_states_unique _ _ _ _ _ _ _ Hbr Hbr') as [E1 E2]. subst sb sa.
  split; [exact Hrows|].
  intros Hnd1 Hnd2 l Htree Hburnt a Hin.
  destruct Hrows as [_ Hrows].
  destruct (Hrows l a Hin) as [H0|[[Ha [_ H2]]|[Ha [H1 _]]]].
  - apply (unique_value _ states_first l a "Tree"%string Hnd1 H0 Htree).
  - exfalso.
    pose proof (unique_value _ states_final l _ _ Hnd2 H2 Hburnt) as E. discriminate E.
  - exfalso.
    pose proof (unique_value _ states_first l _ _ Hnd1 H1 Htree) as E. discriminate E.
Qed.

End OutsideRange.

Lemma interpolate_fire_states_before_range_witness :
  StronglySorted Qle [0; 1] /\ (2 <= length [0; 1])%nat /\ -1 < hd 0 [0; 1] /\
  _interpolate_fire_states append_join mean_filter [front_before; front_after]
                           [0; 1] (-1) 2 1 fixed_draws
  = ret front_before_states.
Proof.
  assert (Hs : StronglySorted Qle [0; 1]).
  { repeat constructor; unfold Qle; simpl; lia. }
  assert (Hn : (2 <= length [0; 1])%nat) by (simpl; lia).
  assert (Hq : -1 < hd 0 [0; 1]) by reflexivity.
  split; [exact Hs|]. split; [exact Hn|]. split; [exact Hq|].
  apply (interpolate_fire_states_before_range append_join mean_filter
           [front_before; front_after] [0; 1] (-1) 2 1 fixed_draws
           front_before front_after front_before_states front_after_states Hs Hn Hq);
    reflexivity.
Defined.

Lemma interpolate_fire_states_after_range_witness :
  StronglySorted Qle [0; 1] /\ last [0; 1] 0 < 2 /\
  exists r,
    _interpolate_fire_states append_join mean_filter [front_before; front_after]
                             [0; 1] 2 2 1 fixed_draws = ret r /\
    transition_rows front_before_states front_after_states r.
Proof.
  assert (Hs : StronglySorted Qle [0; 1]).
  { repeat constructor; unfold Qle; simpl; lia. }
  assert (Hq : last [0; 1] 0 < 2) by reflexivity.
  split; [exact Hs|]. split; [exact Hq|].
  destruct (_interpolate_fire_states append_join mean_filter [front_before; front_after]
                                     [0; 1] 2 2 1 fixed_draws) as [e|r] eqn:Hr.
  - exfalso. vm_compute in Hr. discriminate Hr.
  - exists r. split; [reflexivity|].
    exact (proj1 (interpolate_fire_states_after_range append_join mean_filter
                    [front_before; front_after] [0; 1] 2 2 1 fixed_draws
                    front_before front_after front_before_states front_after_states r
                    Hs Hq eq_refl eq_refl eq_refl eq_refl Hr)).
Defined.

(** ** Degenerate timestamp lists *)

Section DegenerateTimestamps.

Variable outer_join : list label -> list label -> list label.
Variable gaussian_filter : list (list Q) -> Q -> list (list Q).

Lemma getitem_raises (A : Type) (l : list A) (i : Z) (e : exn) :
  getitem l i = raise e -> e = IndexError.
Proof.
  unfold getitem. destruct (_ <? 0)%Z; [intro H; inversion H; reflexivity|].
  destruct (nth_error l _); intro H; inversion H; reflexivity.
Qed.

Lemma getitem_state_raises (df : DataFrame) (e : exn) :
  getitem_state df = raise e -> e = KeyError.
Proof.
  unfold getitem_state. destruct (state df); intro H; inversion H; reflexivity.
Qed.

(** X19: with an empty list of timestamps [_interpolate_fire_states]
    never returns: it raises [IndexError] or [KeyError], whatever the
    snapshots are.  With a single timestamp it returns the state column of
    the first snapshot, for every target time. *)
Theorem interpolate_fire_states_degenerate (snapshots : list DataFrame) (q : Q)
        (width height : Z) (rng : draws) :
  (exists e, _interpolate_fire_states outer_join gaussian_filter snapshots [] q
                                      width height rng = raise e /\
             (e = IndexError \/ e = KeyError)) /\
  (forall t first states,
      getitem snapshots 0 = ret first -> state first = Some states ->
      _interpolate_fire_states outer_join gaussian_filter snapshots [t] q
                               width height rng = ret states).
Proof.
  split.
  - unfold _interpolate_fire_states.
    change (surrounding_indices [] q) with (0%Z, (-1)%Z).
    change (0 =? -1)%Z with false. cbv iota beta.
    destruct (getitem snapshots 0) as [e|sb] eqn:E1.
    { exists e. split; [reflexivity|]. left. apply (getitem_raises _ _ _ _ E1). }
    cbn [bind]. destruct (getitem_state sb) as [e|stb] eqn:E2.
    { exists e. split; [reflexivity|]. right. apply (getitem_state_raises _ _ E2). }
    cbn [bind]. destruct (getitem snapshots (-1)) as [e|sa] eqn:E3.
    { exists e. split; [reflexivity|]. left. apply (getitem_raises _ _ _ _ E3). }
    cbn [bind]. destruct (getitem_state sa) as [e|sta] eqn:E4.
    { exists e. split; [reflexivity|]. right. apply (getitem_state_raises _ _ E4). }
    cbn [bind]. exists IndexError. split; [reflexivity|]. left. reflexivity.
  - intros t first states Hf Hs. unfold _interpolate_fire_states.
    change (surrounding_indices [t] q) with (0%Z, 0%Z).
    change (0 =? 0)%Z with true. cbv iota beta.
    rewrite Hf. cbn [bind ret]. unfold getitem_state. rewrite Hs. reflexivity.
Qed.

End DegenerateTimestamps.

Lemma interpolate_fire_states_degenerate_witness :
  getitem [fire_out] 0 = ret fire_out /\
  state fire_out = Some [(Tuple 0 0, "Burning"%string)] /\
  _interpolate_fire_states append_join mean_filter [fire_out] [5] 100 1 1 fixed_draws
  = ret [(Tuple 0 0, "Burning"%string)].
Proof.
  assert (Hg : getitem [fire_out] 0 = ret fire_out) by reflexivity.
  assert (Hs : state fire_out = Some [(Tuple 0 0, "Burning"%string)]) by reflexivity.
  split; [exact Hg|]. split; [exact Hs|].
  exact (proj2 (interpolate_fire_states_degenerate append_join mean_filter [fire_out]
                  100 1 1 fixed_draws) 5 fire_out _ Hg Hs).
Defined.

(** ** Linear paths and their keyframes *)

Section LinearKeyframes.

Variable spline_interp1d : smoothing -> list Q -> list Q -> py (Q -> Q).















End LinearKeyframes.


(** ** The preset paths *)

Section Presets.

Variable spline_interp1d : smoothing -> list Q -> list Q -> py (Q -> Q).

Lemma call_linear3 (x0 x1 x2 y0 y1 y2 t : Q) :
  x0 < x1 -> x1 < x2 ->
  call_linear [(x0, y0); (x1, y1); (x2, y2)] t =
    if Qlt_bool x1 t then (y2 - y1) / (x2 - x1) * (t - x1) + y1
    else (y1 - y0) / (x1 - x0) * (t - x0) + y0.
Proof.
  intros H01 H12. unfold call_linear, searchsorted. cbn [map fst snd filter].
  destruct (Qlt_bool x0 t) eqn:E0, (Qlt_bool x1 t) eqn:E1, (Qlt_bool x2 t) eqn:E2;
    try reflexivity; exfalso;
    repeat match goal with
           | H : Qlt_bool _ _ = true |- _ => apply Qlt_bool_iff in H
           | H : Qlt_bool _ _ = false |- _ => apply Qlt_bool_false_iff in H
           end; lra.
Qed.

Lemma int_zero (x : Q) : x == 0 -> Z.to_nat (int x) = 0%nat.
Proof.
  intro H. rewrite int_iterations. rewrite (Qfloor_comp _ _ H). reflexivity.
Qed.

Lemma pan_sorted_forward (d a b c : Q) :
  0 < d -> sort_points [(0, a); (d * (1 # 2), b); (d, c)]
           = [(0, a); (d * (1 # 2), b); (d, c)].
Proof.
  intro Hd. unfold sort_points. cbn [fold_left insert_point fst].
  assert (E1 : Qlt_bool (d * (1 # 2)) 0 = false) by (apply Qlt_bool_false_iff; lra).
  rewrite E1. cbn [insert_point fst].
  assert (E2 : Qlt_bool d 0 = false) by (apply Qlt_bool_false_iff; lra).
  assert (E3 : Qlt_bool d (d * (1 # 2)) = false) by (apply Qlt_bool_false_iff; lra).
  rewrite E2, E3. reflexivity.
Qed.

Lemma pan_sorted_backward (d a b c : Q) :
  d < 0 -> sort_points [(0, a); (d * (1 # 2), b); (d, c)]
           = [(d, c); (d * (1 # 2), b); (0, a)].
Proof.
  intro Hd. unfold sort_points. cbn [fold_left insert_point fst].
  assert (E1 : Qlt_bool (d * (1 # 2)) 0 = true) by (apply Qlt_bool_iff; lra).
  rewrite E1. cbn [insert_point fst].
  assert (E3 : Qlt_bool d (d * (1 # 2)) = true) by (apply Qlt_bool_iff; lra).
  rewrite E3. reflexivity.
Qed.

Lemma pan_channel (d a b c t : Q) :
  ~ d == 0 ->
  b - a == c - b ->
  call_linear (sort_points [(0, a); (d * (1 # 2), b); (d, c)]) t
  == a + (c - a) * (t / d).
Proof.
  intros Hd Hstep.
  destruct (Qlt_le_dec 0 d) as [Hpos|Hneg].
  - rewrite (pan_sorted_forward d a b c Hpos).
    rewrite call_linear3 by lra.
    destruct (Qlt_bool (d * (1 # 2)) t).
    + assert (E : c == 2 * b - a) by lra. rewrite E. field; try split; lra.
    + assert (E : c == 2 * b - a) by lra. rewrite E. field; try split; lra.
  - assert (Hlt : d < 0).
    { destruct (Qlt_le_dec d 0) as [?|?]; [assumption|]. exfalso. apply Hd. lra. }
    rewrite (pan_sorted_backward d a b c Hlt).
    rewrite call_linear3 by lra.
    destruct (Qlt_bool (d * (1 # 2)) t).
    + assert (E : c == 2 * b - a) by lra. rewrite E. field; try split; lra.
    + assert (E : c == 2 * b - a) by lra. rewrite E. field; try split; lra.
Qed.

(** X21: for every duration and [fps], [_generate_pan_path] returns a
    path of [floor(duration * fps)] poses (none when that is not
    positive); every pose has elevation [30], distance [10] and azimuth
    [-90 + 180 * time / duration] (in exact arithmetic). *)
Theorem pan_path_poses (duration : Q) (fps : Z) :
  exists path,
    _generate_pan_path spline_interp1d duration fps = ret path /\
    length path = Z.to_nat (Qfloor (duration * inject_Z fps)) /\
    Forall (fun pose =>
              pos_azimuth pose == -90 + 180 * (pos_time pose / duration) /\
              pos_elevation pose == 30 /\
              pos_distance pose == 10)
           path.
Proof.
  unfold _generate_pan_path.
  set (keys := [mkKeyframe 0 (-90) 30 10; mkKeyframe (duration * (1 # 2)) 0 30 10;
                mkKeyframe duration 90 30 10]).
  assert (Hk : (2 <= length keys)%nat) by (simpl; lia).
  rewrite (generate_camera_path_poses spline_interp1d keys duration fps Linear _ _ _
             (linear_interp1d_total spline_interp1d keys kp_azimuth Hk)
             (linear_interp1d_total spline_interp1d keys kp_elevation Hk)
             (linear_interp1d_total spline_interp1d keys kp_distance Hk)).
  eexists. split; [reflexivity|]. split.
  - rewrite length_map, range_length. apply int_iterations.
  - destruct (Qeq_dec duration 0) as [Hz|Hnz].
    + assert (E : Z.to_nat (int (duration * inject_Z fps)) = 0%nat)
        by (apply int_zero; rewrite Hz; ring).
      unfold range. rewrite E. constructor.
    + apply Forall_forall. intros pose Hin. apply in_map_iff in Hin.
      destruct Hin as [frame [Hpose _]]. subst pose.
      unfold pose_at. cbn [pos_azimuth pos_elevation pos_distance pos_time].
      cbn [keys map combine kp_time kp_azimuth kp_elevation kp_distance].
      split; [|split].
      * rewrite pan_channel by (try exact Hnz; ring). ring.
      * rewrite pan_channel by (try exact Hnz; ring). ring.
      * rewrite pan_channel by (try exact Hnz; ring). ring.
Qed.

End Presets.

(** ** Combined paths *)

Section CombinedPaths.

Variable spline_interp1d : smoothing -> list Q -> list Q -> py (Q -> Q).

Lemma for_each_app (A S : Type) (l1 l2 : list A) (body : S -> A -> py S) (s : S) :
  for_each (l1 ++ l2) body s = bind (for_each l1 body s) (for_each l2 body).
Proof.
  revert s. induction l1 as [|a l1 IH]; intro s; [reflexivity|].
  cbn [app for_each]. destruct (body s a) as [e|s']; [reflexivity|].
  cbn [bind]. apply IH.
Qed.




(** X22: a segment whose name is not a key of [self.paths] contributes
    nothing to [combine_paths]: no pose, no exception, and its duration is
    not added to the running time, so the later segments are not delayed
    by it.  The argument [total_duration] has no influence either. *)
Theorem combine_paths_skips_unknown (before after : list (string * Q))
        (path_name : string) (path_duration total_duration total_duration' : Q)
        (fps : Z) :
  paths_get (paths spline_interp1d) path_name = None ->
  combine_paths spline_interp1d (before ++ (path_name, path_duration) :: after)
                total_duration fps
  = combine_paths spline_interp1d (before ++ after) total_duration' fps.
Proof.
  intro Hget. unfold combine_paths. rewrite !for_each_app.
  destruct (for_each before _ ([], 0)) as [e|[c t]]; [reflexivity|].
  cbn [bind for_each]. rewrite Hget. reflexivity.
Qed.


End CombinedPaths.

Lemma combine_paths_skips_unknown_witness :
  paths_get (paths no_spline) "spin" = None /\
  combine_paths no_spline [("pan"%string, 1); ("spin"%string, 3); ("pan"%string, 1)] 5 2
  = combine_paths no_spline [("pan"%string, 1); ("pan"%string, 1)] 2 2.
Proof.
  assert (H : paths_get (paths no_spline) "spin" = None) by reflexivity.
  split; [exact H|].
  exact (combine_paths_skips_unknown no_spline [("pan"%string, 1)] [("pan"%string, 1)]
           "spin" 3 5 2 2 H).
Defined.


(** ** Cubic splines through fewer than four keyframes *)

Section CubicNeedsFourPoints.

Variable spline_interp1d : smoothing -> list Q -> list Q -> py (Q -> Q).

(** [interp1d(x, y, kind='cubic')] raises [ValueError] on fewer than four
    points. *)
Hypothesis cubic_needs_four_points :
  forall x y, (length x < 4)%nat -> spline_interp1d Cubic x y = raise ValueError.

Lemma zoom_path_raises (duration : Q) (fps : Z) :
  _generate_zoom_path spline_interp1d duration fps = raise ValueError.
Proof.
  unfold _generate_zoom_path, generate_camera_path, interp1d.
  rewrite cubic_needs_four_points by (simpl; lia). reflexivity.
Qed.

Lemma comprehension_fails (A B : Type) (f : A -> py B) (l : list A) (a : A) :
  In a l -> (forall b, f a <> ret b) -> forall r, comprehension f l <> ret r.
Proof.
  intros Hin Hf. induction l as [|x l IH]; [destruct Hin|].
  intros r H. cbn [comprehension] in H.
  bind_inv H b Hb. bind_inv H bs Hbs.
  destruct Hin as [E|Hin].
  - subst x. apply (Hf b). exact Hb.
  - apply (IH Hin bs). exact Hbs.
Qed.

Lemma for_each_fails (A S : Type) (l : list A) (body : S -> A -> py S) (a : A) :
  In a l -> (forall s s', body s a <> ret s') ->
  forall s r, for_each l body s <> ret r.
Proof.
  intros Hin Hf. induction l as [|x l IH]; [destruct Hin|].
  intros s r H. cbn [for_each] in H. bind_inv H s' Hs'.
  destruct Hin as [E|Hin].
  - subst x. apply (Hf s s'). exact Hs'.
  - apply (IH Hin s' r). exact H.
Qed.

(** X24: the [zoom_in] preset asks for a cubic spline through three
    keyframes.  If [interp1d] rejects a cubic spline through fewer than
    four points with [ValueError], as scipy does, then
    [_generate_zoom_path] raises [ValueError] for every duration and
    [fps], [get_cinematic_paths], which builds every preset, never returns
    a value, and neither does [combine_paths] on a list that contains a
    [zoom_in] segment. *)
Theorem zoom_preset_never_returns (duration : Q) (fps : Z) :
  _generate_zoom_path spline_interp1d duration fps = raise ValueError /\
  (forall r, get_cinematic_paths spline_interp1d duration fps <> ret r) /\
  (forall segments path_duration total_duration r,
      In ("zoom_in"%string, path_duration) segments ->
      combine_paths spline_interp1d segments total_duration fps <> ret r).
Proof.
  split; [apply zoom_path_raises|]. split.
  - unfold get_cinematic_paths.
    apply (comprehension_fails _ _ _ _ ("zoom_in"%string, _generate_zoom_path spline_interp1d)).
    + unfold paths. simpl. auto 10.
    + intros b H. cbn [fst snd] in H. rewrite zoom_path_raises in H. discriminate H.
  - intros segments d td r Hin H. unfold combine_paths in H. bind_inv H final Hfinal.
    revert Hfinal.
    apply (for_each_fails _ _ segments _ ("zoom_in"%string, d) Hin).
    intros [c t] s' Hs'. cbn [paths paths_get] in Hs'.
    change (String.eqb "orbit" "zoom_in") with false in Hs'.
    change (String.eqb "flyover" "zoom_in") with false in Hs'.
    change (String.eqb "fire_follow" "zoom_in") with false in Hs'.
    change (String.eqb "dramatic_reveal" "zoom_in") with false in Hs'.
    change (String.eqb "zoom_in" "zoom_in") with true in Hs'.
    cbv iota in Hs'. rewrite zoom_path_raises in Hs'. discriminate Hs'.
Qed.

(** X25: [smooth_transition] raises [IndexError] when [path1] is empty,
    and when [path1] is not empty and [path2] is.  On two non-empty paths
    it asks for a cubic spline through its two transition keyframes: if
    [interp1d] rejects a cubic spline through fewer than four points with
    [ValueError], as scipy does, it raises [ValueError], so it returns no
    path for any input. *)
Theorem smooth_transition_never_returns (path1 path2 : list camera_pos)
        (transition_duration : Q) (fps : Z) :
  (path1 = [] ->
   smooth_transition spline_interp1d path1 path2 transition_duration fps
   = raise IndexError) /\
  (path1 <> [] -> path2 = [] ->
   smooth_transition spline_interp1d path1 path2 transition_duration fps
   = raise IndexError) /\
  (path1 <> [] -> path2 <> [] ->
   smooth_transition spline_interp1d path1 path2 transition_duration fps
   = raise ValueError).
Proof.
  unfold smooth_transition. split; [|split].
  - intro E. subst path1. reflexivity.
  - intros Hne E. subst path2.
    rewrite (getitem_last _ path1 (mkCameraPos 0 0 0 0 0) Hne). reflexivity.
  - intros Hne1 Hne2.
    rewrite (getitem_last _ path1 (mkCameraPos 0 0 0 0 0) Hne1).
    rewrite (getitem_hd _ path2 (mkCameraPos 0 0 0 0 0) Hne2). cbn [bind ret].
    unfold generate_camera_path, interp1d.
    rewrite cubic_needs_four_points by (simpl; lia). reflexivity.
Qed.

End CubicNeedsFourPoints.

Lemma zoom_preset_never_returns_witness :
  (forall x y, (length x < 4)%nat -> no_spline Cubic x y = raise ValueError) /\
  _generate_zoom_path no_spline 5 60 = raise ValueError.
Proof.
  assert (H : forall x y, (length x < 4)%nat -> no_spline Cubic x y = raise ValueError)
    by (intros x y _; reflexivity).
  split; [exact H|]. exact (proj1 (zoom_preset_never_returns no_spline H 5 60)).
Defined.

Lemma smooth_transition_never_returns_witness :
  (forall x y, (length x < 4)%nat -> no_spline Cubic x y = raise ValueError) /\
  smooth_transition no_spline [mkCameraPos 0 0 0 30 10] [mkCameraPos 0 0 90 30 10] 1 60
  = raise ValueError.
Proof.
  assert (H : forall x y, (length x < 4)%nat -> no_spline Cubic x y = raise ValueError)
    by (intros x y _; reflexivity).
  split; [exact H|].
  apply (smooth_transition_never_returns no_spline H); discriminate.
Defined.
